(** * Ilmify chatbot: the keyword retrieval-and-ranking engine

    A shallow embedding of the retrieval core of the Ilmify portal's chatbot:
    text chunking, keyword extraction, the additive scoring search and the
    extractive answer synthesis.  Two variants of the engine live in the
    repository and both are embedded, each in a module of its own:

    - [Chatbot]   : portal/js/chatbot.js (the base variant);
    - [Assistant] : the "Advanced AI Assistant" bundles (the higher-fidelity
                    variant; both bundles carry the same retrieval code).

    Around the engine, the loops that build the index ([Indexing]), the
    retrieval steps of the responders ([Responder]), the quiz module of the
    portal ([Quiz]) and the quick quiz of the assistant ([MiniQuiz]) are
    embedded as well.

    JavaScript strings are sequences of UTF-16 code units and are modelled as
    lists of [N].  Scores are sums of small integer weights and are modelled
    in [Z]. *)

From Stdlib Require Import String Ascii.
From Stdlib Require Import List ZArith NArith Bool Lia.
From Stdlib Require Import Sorted Permutation.
From Stdlib Require DecimalNat.
Import ListNotations.

Set Implicit Arguments.

(** ** JavaScript strings and the built-ins the engine calls *)

Module JS.

Definition jsstring := list N.

(** A literal: the code units of an ASCII string. *)
Definition js (s : string) : jsstring :=
  map N_of_ascii (list_ascii_of_string s).

Definition unit_eqb (a b : N) : bool := N.eqb a b.

Fixpoint str_eqb (a b : jsstring) : bool :=
  match a, b with
  | [], [] => true
  | x :: a', y :: b' => unit_eqb x y && str_eqb a' b'
  | _, _ => false
  end.

(** [Array.prototype.includes] on an array of strings. *)
Definition arrayIncludes (arr : list jsstring) (x : jsstring) : bool :=
  existsb (str_eqb x) arr.

(** [String.prototype.startsWith] and [String.prototype.includes]. *)
Fixpoint startsWith (s p : jsstring) : bool :=
  match p, s with
  | [], _ => true
  | a :: p', b :: s' => unit_eqb a b && startsWith s' p'
  | _ :: _, [] => false
  end.

Fixpoint includes (s needle : jsstring) : bool :=
  startsWith s needle ||
  match s with
  | [] => false
  | _ :: s' => includes s' needle
  end.

(** The code units matched by [\s] in a regular expression, which are also
    the ones [String.prototype.trim] strips: WhiteSpace and LineTerminator. *)
Definition isWhiteSpace (c : N) : bool :=
  ((9 <=? c) && (c <=? 13) || (c =? 32) || (c =? 160) || (c =? 5760)
   || (8192 <=? c) && (c <=? 8202) || (c =? 8232) || (c =? 8233)
   || (c =? 8239) || (c =? 8287) || (c =? 12288) || (c =? 65279))%N.

Fixpoint trimStart (s : jsstring) : jsstring :=
  match s with
  | [] => []
  | c :: s' => if isWhiteSpace c then trimStart s' else s
  end.

Definition trimEnd (s : jsstring) : jsstring := rev (trimStart (rev s)).

Definition trim (s : jsstring) : jsstring := trimEnd (trimStart s).

(** [s.split(/[...]+/)] for a character class [sep]: the pieces between the
    maximal runs of separators.  A leading or trailing run leaves an empty
    piece, and the empty string splits into one empty piece. *)
Fixpoint split (sep : N -> bool) (s : jsstring) : list jsstring :=
  match s with
  | [] => [[]]
  | c :: r =>
      if sep c then
        match r with
        | c' :: _ => if sep c' then split sep r else [] :: split sep r
        | [] => [] :: split sep r
        end
      else
        match split sep r with
        | piece :: rest => (c :: piece) :: rest
        | [] => [[c]]
        end
  end.

(** [arr.join(sep)]. *)
Fixpoint join (sep : jsstring) (arr : list jsstring) : jsstring :=
  match arr with
  | [] => []
  | [x] => x
  | x :: rest => x ++ sep ++ join sep rest
  end.

(** [s.endsWith(c)] for a one-unit string [c]. *)
Definition endsWith (s : jsstring) (c : N) : bool :=
  match rev s with
  | [] => false
  | d :: _ => unit_eqb d c
  end.

(** [s.replace(/\s+/g, ' ')]: every maximal run of white space becomes one
    space. *)
Fixpoint collapseSpaces (s : jsstring) : jsstring :=
  match s with
  | [] => []
  | c :: r =>
      if isWhiteSpace c then
        match r with
        | c' :: _ => if isWhiteSpace c' then collapseSpaces r
                     else 32%N :: collapseSpaces r
        | [] => [32%N]
        end
      else c :: collapseSpaces r
  end.

(** The ASCII letters [A-Z] to [a-z]; every other code unit is left alone. *)
Definition lower_unit (c : N) : N :=
  if ((65 <=? c) && (c <=? 90))%N then (c + 32)%N else c.

Definition isAscii (c : N) : Prop := (c < 128)%N.

(** [String.prototype.toLowerCase] follows the Unicode case mapping of the
    host.  The engine is embedded over any such mapping; what is fixed is its
    action on ASCII text. *)
Class CaseMapping := {
  toLowerCase : jsstring -> jsstring;
  toLowerCase_ascii :
    forall s, Forall isAscii s -> toLowerCase s = map lower_unit s
}.

(** [/p1|p2|.../i.test(s)] for alternatives made of lower-case ASCII letters
    and spaces.  Without the [u] flag a code unit outside ASCII never
    canonicalizes to an ASCII one, so a unit matches a pattern letter exactly
    when [lower_unit] maps it to that letter. *)
Definition testAnyCI (patterns : list jsstring) (s : jsstring) : bool :=
  existsb (includes (map lower_unit s)) patterns.

(** [arr.slice(0, n)] for a count [n]: the first [n] elements, all of them
    when there are fewer.  (A negative end would count from the end of the
    array; the engine passes result counts: 2, 3, 4, 5 and 8.) *)
Definition slice0 {A} (n : nat) (arr : list A) : list A := firstn n arr.

(** [arr.sort(cmp)].  The sort is stable (ECMAScript 2019), so for a
    consistent comparator its result is determined: [a] stays before a later
    [b] unless [cmp a b > 0].  Inserting from the right computes it. *)
Fixpoint insertBy {A} (cmp : A -> A -> Z) (x : A) (l : list A) : list A :=
  match l with
  | [] => [x]
  | y :: l' => if (cmp x y <=? 0)%Z then x :: l else y :: insertBy cmp x l'
  end.

Definition sortBy {A} (cmp : A -> A -> Z) (l : list A) : list A :=
  fold_right (insertBy cmp) [] l.

(** The case mapping used to run the engine on ASCII text. *)
#[export] Instance asciiCase : CaseMapping :=
  {| toLowerCase := map lower_unit;
     toLowerCase_ascii := fun s _ => eq_refl |}.

End JS.
Export JS.

(** ** Text operations shared by the two variants *)

Module Text.

Definition space : N := 32%N.

Definition isLowerAlnum (c : N) : bool :=
  ((97 <=? c) && (c <=? 122) || (48 <=? c) && (c <=? 57))%N.

(** ASCII letters and digits, and the ASCII units that are neither: the
    punctuation marks, the blanks and the control characters. *)
Definition isAsciiAlnum (c : N) : bool :=
  ((48 <=? c) && (c <=? 57) || (65 <=? c) && (c <=? 90)
   || (97 <=? c) && (c <=? 122))%N.

Definition isPunctuation (c : N) : bool :=
  (c <? 128)%N && negb (isAsciiAlnum c).

(** [s.replace(/[^a-z0-9\s]/g, ' ')]. *)
Definition blankNonAlnum (s : jsstring) : jsstring :=
  map (fun c => if isLowerAlnum c || isWhiteSpace c then c else space) s.

(** [text.toLowerCase().replace(/[^a-z0-9\s]/g, ' ').split(/\s+/)]. *)
Definition words `{CaseMapping} (text : jsstring) : list jsstring :=
  split isWhiteSpace (blankNonAlnum (toLowerCase text)).

(** The body of the chunking loop, the same in [splitIntoChunks] and
    [splitText]: the state is the array of finished chunks and the running
    buffer. *)
Definition chunkStep (chunkSize : Z) (st : list jsstring * jsstring)
    (sentence : jsstring) : list jsstring * jsstring :=
  let (chunks, currentChunk) := st in
  if (Z.of_nat (length (currentChunk ++ sentence)) >? chunkSize)%Z
     && (0 <? length currentChunk)
  then (chunks ++ [trim currentChunk], sentence)
  else (chunks, currentChunk ++ [space] ++ sentence).

(** The loop over the sentences followed by the final flush. *)
Definition chunkSentences (sentences : list jsstring) (chunkSize : Z)
    : list jsstring :=
  let (chunks, currentChunk) :=
    fold_left (chunkStep chunkSize) sentences ([], []) in
  match trim currentChunk with
  | [] => chunks
  | _ :: _ => chunks ++ [trim currentChunk]
  end.

End Text.
Export Text.

(** ** The base variant: portal/js/chatbot.js *)

Module Chatbot.

Record Item := {
  id : jsstring;
  title : jsstring;
  category : jsstring;
  content : jsstring;
  keywords : list jsstring
}.

(** [{ ...item, score }]. *)
Record Scored := { item : Item; score : Z }.

(** The class [[.!?]]. *)
Definition sentenceEnd (c : N) : bool :=
  ((c =? 46) || (c =? 33) || (c =? 63))%N.

Definition splitIntoChunks (text : jsstring) (chunkSize : Z) : list jsstring :=
  let sentences := split sentenceEnd text in
  chunkSentences sentences chunkSize.

Definition stopWords : list jsstring :=
  map js ["the"; "a"; "an"; "and"; "or"; "but"; "in"; "on"; "at"; "to";
          "for"; "of"; "with"; "by"; "is"; "are"; "was"; "were"; "be";
          "been"; "have"; "has"; "had"; "do"; "does"; "did"; "will";
          "would"; "could"; "should"; "this"; "that"; "these"; "those";
          "it"; "its"; "as"; "from"; "can"; "may"; "which"; "who"; "what";
          "when"; "where"; "how"; "all"; "each"; "every"; "both"; "few";
          "more"; "most"; "other"; "some"; "such"; "no"; "not"; "only";
          "same"; "than"; "too"; "very"]%string.

Definition extractKeywords `{CaseMapping} (text : jsstring) : list jsstring :=
  filter (fun word => (2 <? length word) && negb (arrayIncludes stopWords word))
         (words text).

(** The callback of [knowledgeBase.map] in [searchKnowledge]. *)
Definition scoreItem `{CaseMapping} (query : jsstring)
    (queryKeywords : list jsstring) (it : Item) : Scored :=
  let contentLower := toLowerCase (content it) in
  let score :=
    fold_left
      (fun score keyword =>
         let score := if arrayIncludes (keywords it) keyword
                      then (score + 2)%Z else score in
         let score := if includes contentLower keyword
                      then (score + 1)%Z else score in
         if includes contentLower (toLowerCase query)
         then (score + 5)%Z else score)
      queryKeywords 0%Z in
  let titleLower := toLowerCase (title it) in
  let score :=
    fold_left
      (fun score keyword =>
         if includes titleLower keyword then (score + 3)%Z else score)
      queryKeywords score in
  {| item := it; score := score |}.

(** [knowledgeBase] is a module-level variable of the script; it is passed
    explicitly.  [topK] is a result count (3 when the caller omits it). *)
Definition searchKnowledge `{CaseMapping} (knowledgeBase : list Item)
    (query : jsstring) (topK : nat) : list Scored :=
  let queryKeywords := extractKeywords query in
  if length queryKeywords =? 0 then [] else
  let scored := map (scoreItem query queryKeywords) knowledgeBase in
  slice0 topK
    (sortBy (fun a b => (score b - score a)%Z)
       (filter (fun i => (score i >? 0)%Z) scored)).

(** The object returned by [generateAnswer]; its [category] field is named
    [answerCategory] here. *)
Record Answer := {
  answer : jsstring;
  source : jsstring;
  answerCategory : jsstring
}.

Definition generateAnswer `{CaseMapping} (query : jsstring)
    (contexts : list Scored) : option Answer :=
  match contexts with
  | [] => None
  | topContext :: _ =>
      let sentences :=
        filter (fun s => 10 <? length (trim s))
               (split sentenceEnd (content (item topContext))) in
      let queryWords := extractKeywords query in
      let relevantSentences :=
        slice0 3
          (filter (fun sentence =>
                     let lower := toLowerCase sentence in
                     existsb (fun word => includes lower word) queryWords)
                  sentences) in
      let answer :=
        if 0 <? length relevantSentences
        then trim (join (js ". ") relevantSentences)
        else trim (join (js ". ") (slice0 2 sentences)) in
      let answer :=
        if endsWith answer 46%N then answer else answer ++ js "." in
      Some {| answer := answer;
              source := title (item topContext);
              answerCategory := category (item topContext) |}
  end.

End Chatbot.

(** ** The higher-fidelity variant: the "Advanced AI Assistant" bundles *)

Module Assistant.

(** An entry of the knowledge base.  Entries of a pre-built index may come
    without a [keywords] array; the scorer guards for that. *)
Record Item := {
  id : jsstring;
  title : jsstring;
  category : jsstring;
  content : jsstring;
  keywords : option (list jsstring)
}.

(** [{ ...item, score }]. *)
Record Scored := { item : Item; score : Z }.

(** The class [[.!?।]]; the last unit is the danda, U+0964. *)
Definition sentenceEnd (c : N) : bool :=
  ((c =? 46) || (c =? 33) || (c =? 63) || (c =? 2404))%N.

Definition splitText (text : jsstring) (size : Z) : list jsstring :=
  let sentences := split sentenceEnd text in
  chunkSentences sentences size.

Definition stop : list jsstring :=
  map js ["the"; "a"; "an"; "and"; "or"; "but"; "in"; "on"; "at"; "to";
          "for"; "of"; "with"; "by"; "is"; "are"; "was"; "were"; "be";
          "been"; "have"; "has"; "had"; "do"; "does"; "did"; "will";
          "would"; "could"; "should"; "this"; "that"; "these"; "those";
          "it"; "its"; "as"; "from"; "can"; "may"; "which"; "who"; "what";
          "when"; "where"; "how"; "all"; "each"; "every"; "both"; "few";
          "more"; "most"; "other"; "some"; "such"; "no"; "not"; "only";
          "same"; "than"; "too"; "very"; "just"; "also"; "into"; "over";
          "after"; "before"; "between"; "under"; "above"; "below"; "about";
          "there"; "here"]%string.

Definition extractKeywords `{CaseMapping} (text : jsstring) : list jsstring :=
  filter (fun w => (2 <? length w) && negb (arrayIncludes stop w))
         (words text).

(** The callback of [knowledgeBase.map] in [searchKnowledge]. *)
Definition scoreItem `{CaseMapping} (query : jsstring)
    (keywords_ : list jsstring) (it : Item) : Scored :=
  let content_ := toLowerCase (content it) in
  let title_ := toLowerCase (title it) in
  let score :=
    fold_left
      (fun score kw =>
         let score :=
           if match keywords it with
              | Some ks => arrayIncludes ks kw
              | None => false
              end
           then (score + 3)%Z else score in
         let score := if includes content_ kw then (score + 2)%Z else score in
         if includes title_ kw then (score + 4)%Z else score)
      keywords_ 0%Z in
  let score :=
    if includes content_ (toLowerCase query) then (score + 10)%Z else score in
  {| item := it; score := score |}.

(** [knowledgeBase] is a variable of the enclosing closure; it is passed
    explicitly.  [topK] is a result count (5 when the caller omits it). *)
Definition searchKnowledge `{CaseMapping} (knowledgeBase : list Item)
    (query : jsstring) (topK : nat) : list Scored :=
  let keywords_ := extractKeywords query in
  if length keywords_ =? 0 then [] else
  let scored := map (scoreItem query keywords_) knowledgeBase in
  slice0 topK
    (sortBy (fun a b => (score b - score a)%Z)
       (filter (fun i => (score i >? 2)%Z) scored)).

(** *** The remote ranking service

    What [fetch('/api/search', ...)] and [response.json()] can come back
    with.  A JSON body that is not [null] is seen through the two properties
    the code reads: the truthiness of [data.success], and [data.results].

    The service is meant to put an array of ranked chunks under [results],
    in the shape of the scorer's results; their scores are carried through
    unread.  Nothing in [semanticSearch] checks that it does.  Any other
    truthy value (a non-empty string, an object, an array holding something
    that is not a chunk) is kept as the text of its JSON, together with the
    one thing the code asks of it: whether [results.length > 0] holds.  An
    absent or falsy [results] is [None]. *)
Inductive Results :=
| Ranked (results : list Scored)
| Unshaped (json : jsstring) (lengthPositive : bool).

Inductive Body :=
| BodyRejected                 (* response.json() rejects: not JSON *)
| BodyNull                     (* the JSON value null *)
| BodyData (success : bool) (results : option Results).

Inductive FetchOutcome :=
| FetchRejected                (* fetch() rejects: the service is unreachable *)
| FetchResponse (ok : bool) (body : Body).

(** Completions of a block: it finishes with a value or throws. *)
Inductive Completion (A : Type) :=
| Normal (a : A)
| Throw.
Arguments Normal {A} a.
Arguments Throw {A}.

Definition bind {A B} (c : Completion A) (k : A -> Completion B)
    : Completion B :=
  match c with
  | Normal a => k a
  | Throw => Throw
  end.

Notation "x <- c ;; k" := (bind c (fun x => k))
  (at level 61, c at next level, right associativity).

(** [try { body } catch (e) { handler }]. *)
Definition tryCatch {A} (body handler : Completion A) : Completion A :=
  match body with
  | Normal a => Normal a
  | Throw => handler
  end.

Definition awaitFetch (remote : FetchOutcome) : Completion (bool * Body) :=
  match remote with
  | FetchRejected => Throw
  | FetchResponse ok body => Normal (ok, body)
  end.

(** [await response.json()] followed by the property reads on [data]; reading
    a property of [null] throws a TypeError. *)
Definition awaitJson (body : Body) : Completion (bool * option Results) :=
  match body with
  | BodyRejected => Throw
  | BodyNull => Throw
  | BodyData success results => Normal (success, results)
  end.

(** [data.results.length > 0] for a truthy [data.results]. *)
Definition hasResults (results : Results) : bool :=
  match results with
  | Ranked rs => 0 <? length rs
  | Unshaped _ lengthPositive => lengthPositive
  end.

(** The [try] block of [semanticSearch]: [Some results] when it returns,
    [None] when control falls through to the code after it.  The reads of
    [data.results[0]] for the log are on truthy values and do not throw. *)
Definition remoteResults (remote : FetchOutcome)
    : Completion (option Results) :=
  response <- awaitFetch remote ;;
  let (ok, body) := response in
  if ok then
    data <- awaitJson body ;;
    let (success, results) := data in
    match results with
    | Some rs => if success && hasResults rs then Normal (Some rs)
                 else Normal None
    | None => Normal None
    end
  else Normal None.

(** What [semanticSearch] returns is [data.results] as it came, or the
    array that [searchKnowledge] makes. *)
Definition semanticSearch `{CaseMapping} (remote : FetchOutcome)
    (knowledgeBase : list Item) (query : jsstring) (topK : nat)
    : Completion Results :=
  returned <- tryCatch (remoteResults remote) (Normal None) ;;
  match returned with
  | Some results => Normal results
  | None => Normal (Ranked (searchKnowledge knowledgeBase query topK))
  end.

(** *** Answer synthesis *)

(** [sources.add(title)] on a [Set], kept in insertion order. *)
Definition setAdd (s : list jsstring) (x : jsstring) : list jsstring :=
  if arrayIncludes s x then s else s ++ [x].

(** The loop over [contexts.slice(0, 3)]: the combined content and the set
    of source titles.  A context whose [content] is missing or empty is
    skipped. *)
Definition combine (contexts : list Scored) : jsstring * list jsstring :=
  fold_left
    (fun (acc : jsstring * list jsstring) ctx =>
       let (combinedContent, sources) := acc in
       match content (item ctx) with
       | [] => acc
       | _ :: _ => (combinedContent ++ [space] ++ content (item ctx),
                    setAdd sources (title (item ctx)))
       end)
    (slice0 3 contexts) ([], []).

Definition sentencesOf (combinedContent : jsstring) : list jsstring :=
  filter (fun s => 20 <? length s)
         (map trim (split sentenceEnd combinedContent)).

Definition questionWords : list jsstring :=
  map js ["what is"; "definition"; "meaning"; "explain"]%string.

Definition copulas : list jsstring :=
  map js ["is "; "are "; "means "; "refers to"; "defined as"]%string.

(** The callback of [sentences.map]: the relevance score of a sentence. *)
Definition scoreSentence `{CaseMapping} (queryLower : jsstring)
    (keywords_ : list jsstring) (sentence : jsstring) : jsstring * Z :=
  let lower := toLowerCase sentence in
  let score :=
    fold_left
      (fun score kw => if includes lower kw then (score + 2)%Z else score)
      keywords_ 0%Z in
  let score :=
    if includes lower queryLower then (score + 10)%Z else score in
  let score :=
    if testAnyCI questionWords queryLower && testAnyCI copulas lower
    then (score + 3)%Z else score in
  let score :=
    if (score >? 0)%Z && (50 <? length sentence)
    then (score + 1)%Z else score in
  (sentence, score).

(** The object returned by [generateAnswer]; its [category] and [score]
    fields are named [answerCategory] and [answerScore] here. *)
Record Answer := {
  text : jsstring;
  source : jsstring;
  answerCategory : jsstring;
  answerScore : Z
}.

Definition isTerminal (s : jsstring) : bool :=
  endsWith s 46%N || endsWith s 33%N || endsWith s 63%N.

Definition generateAnswer `{CaseMapping} (query : jsstring)
    (contexts : list Scored) : option Answer :=
  match contexts with
  | [] => None
  | first :: _ =>
      let queryLower := toLowerCase query in
      let keywords_ := extractKeywords query in
      let (combinedContent, sources) := combine contexts in
      let sentences := sentencesOf combinedContent in
      let scoredSentences :=
        map (scoreSentence queryLower keywords_) sentences in
      let relevant :=
        map fst
          (slice0 4
             (sortBy (fun a b => (snd b - snd a)%Z)
                (filter (fun s => (snd s >? 1)%Z) scoredSentences))) in
      let answer :=
        if 0 <? length relevant then trim (join (js ". ") relevant)
        else if 0 <? length sentences
             then trim (join (js ". ") (slice0 3 sentences))
             else [] in
      match answer with
      | [] => None
      | _ :: _ =>
          let answer := trim (collapseSpaces answer) in
          let answer :=
            if isTerminal answer then answer else answer ++ js "." in
          Some {| text := answer;
                  source := join (js ", ") sources;
                  answerCategory := category (item first);
                  answerScore := score first |}
      end
  end.

End Assistant.

(** ** The index builders

    The loops of [buildKnowledgeBase] (portal/js/chatbot.js) and of
    [buildKnowledgeBaseFromPDFs] (the assistant bundles) over the PDF
    resources.  The text of a resource comes from [extractPDFText], which
    reads a file: it is an oracle here, [None] when the call throws, which
    the loop catches and answers by skipping the resource. *)

Module Indexing.

(** [String(n)] for an array index [n]: its decimal digits. *)
Fixpoint digits (d : Decimal.uint) : jsstring :=
  match d with
  | Decimal.Nil => []
  | Decimal.D0 d => 48%N :: digits d
  | Decimal.D1 d => 49%N :: digits d
  | Decimal.D2 d => 50%N :: digits d
  | Decimal.D3 d => 51%N :: digits d
  | Decimal.D4 d => 52%N :: digits d
  | Decimal.D5 d => 53%N :: digits d
  | Decimal.D6 d => 54%N :: digits d
  | Decimal.D7 d => 55%N :: digits d
  | Decimal.D8 d => 56%N :: digits d
  | Decimal.D9 d => 57%N :: digits d
  end.

Definition decimal (n : nat) : jsstring := digits (Nat.to_uint n).

Definition underscore : N := 95%N.

(** An entry of the resource catalogue; [resourceId] is the string that the
    template literal makes of [resource.id]. *)
Record Resource := {
  resourceId : jsstring;
  resourceTitle : jsstring;
  resourceCategory : jsstring;
  format : jsstring;
  filepath : jsstring
}.

(** The elements of an array with their indices, as [forEach] passes them to
    its callback. *)
Definition withIndex {A} (l : list A) : list (nat * A) :=
  combine (seq 0 (length l)) l.

(** [`${resource.id}_${idx}`]. *)
Definition entryId (resource : Resource) (idx : nat) : jsstring :=
  resourceId resource ++ [underscore] ++ decimal idx.

(** *** portal/js/chatbot.js *)

Definition Chatbot_eligible (r : Resource) : bool :=
  str_eqb (format r) (js "pdf")
  && (str_eqb (resourceCategory r) (js "textbooks")
      || str_eqb (resourceCategory r) (js "health")).

(** The body of the [try] block once the text is there. *)
Definition Chatbot_entries `{CaseMapping} (resource : Resource)
    (text : jsstring) : list Chatbot.Item :=
  if 100 <? length text then
    map (fun p : nat * jsstring =>
           let (idx, chunk) := p in
           {| Chatbot.id := entryId resource idx;
              Chatbot.title := resourceTitle resource;
              Chatbot.category := resourceCategory resource;
              Chatbot.content := chunk;
              Chatbot.keywords := Chatbot.extractKeywords chunk |})
        (withIndex (Chatbot.splitIntoChunks text 500))
  else [].

Definition Chatbot_indexResources `{CaseMapping}
    (knowledgeBase : list Chatbot.Item) (resourcesCache : list Resource)
    (extractPDFText : Resource -> option jsstring) : list Chatbot.Item :=
  let pdfResources := filter Chatbot_eligible resourcesCache in
  fold_left
    (fun knowledgeBase resource =>
       match extractPDFText resource with
       | Some text => knowledgeBase ++ Chatbot_entries resource text
       | None => knowledgeBase
       end)
    (slice0 5 pdfResources) knowledgeBase.

(** *** The assistant bundles *)

Definition Assistant_eligible (r : Resource) : bool :=
  str_eqb (format r) (js "pdf").

Definition Assistant_entries `{CaseMapping} (resource : Resource)
    (text : jsstring) : list Assistant.Item :=
  if 200 <? length text then
    map (fun p : nat * jsstring =>
           let (idx, chunk) := p in
           {| Assistant.id := entryId resource idx;
              Assistant.title := resourceTitle resource;
              Assistant.category := resourceCategory resource;
              Assistant.content := chunk;
              Assistant.keywords := Some (Assistant.extractKeywords chunk) |})
        (withIndex (Assistant.splitText text 600))
  else [].

Definition Assistant_indexResources `{CaseMapping}
    (knowledgeBase : list Assistant.Item) (resourcesCache : list Resource)
    (extractPDFText : Resource -> option jsstring) : list Assistant.Item :=
  let pdfs := slice0 8 (filter Assistant_eligible resourcesCache) in
  fold_left
    (fun knowledgeBase resource =>
       match extractPDFText resource with
       | Some text => knowledgeBase ++ Assistant_entries resource text
       | None => knowledgeBase
       end)
    pdfs knowledgeBase.

End Indexing.

(** ** The quiz module (Ilmify - Quiz & Practice Module)

    The state of a quiz and the operations of [window.IlmifyQuiz] on it, the
    updates of the page left out.  [Math.random] is an oracle: [draw i] is
    what [Math.floor(Math.random() * (i + 1))] gives at step [i], taken into
    the range [0..i] that the expression has. *)

Module Quiz.

Record Question := {
  q : jsstring;
  options : list jsstring;
  answer : nat;
  explanation : jsstring
}.

(** An element of [currentQuiz.answers]. *)
Record Recorded := {
  question : jsstring;
  selected : nat;
  correct : nat;
  isCorrect : bool
}.

(** [currentQuiz]. *)
Record State := {
  questions : list Question;
  currentIndex : nat;
  score : nat;
  answers : list Recorded;
  subject : jsstring;
  difficulty : jsstring;
  startTime : Z
}.

(** [array[i] = x] inside the bounds of the array. *)
Fixpoint assign {A} (l : list A) (i : nat) (x : A) : list A :=
  match l, i with
  | [], _ => []
  | _ :: r, 0 => x :: r
  | y :: r, S i' => y :: assign r i' x
  end.

(** [[array[i], array[j]] = [array[j], array[i]]]. *)
Definition swap {A} (array : list A) (i j : nat) : list A :=
  match nth_error array j, nth_error array i with
  | Some aj, Some ai => assign (assign array i aj) j ai
  | _, _ => array
  end.

(** The loop of [shuffleArray], from index [i] down to 1. *)
Fixpoint shuffleFrom {A} (draw : nat -> nat) (i : nat) (array : list A)
    : list A :=
  match i with
  | 0 => array
  | S i' => shuffleFrom draw i' (swap array i (draw i mod (i + 1)))
  end.

Definition shuffleArray {A} (draw : nat -> nat) (array : list A) : list A :=
  shuffleFrom draw (length array - 1) array.

(** The questions of a subject, by difficulty; a difficulty may have none
    ([generalKnowledge] has no [hard] questions). *)
Record Bank := {
  easy : option (list Question);
  medium : option (list Question);
  hard : option (list Question)
}.

(** The values of the difficulty selector. *)
Inductive Difficulty := Easy | Medium | Hard | Mixed.

Definition orEmpty (l : option (list Question)) : list Question :=
  match l with
  | Some l => l
  | None => []
  end.

(** The pool that [getRandomQuestions] draws from. *)
Definition pool (subjectQuestions : Bank) (d : Difficulty) : list Question :=
  match d with
  | Mixed => orEmpty (easy subjectQuestions)
             ++ orEmpty (medium subjectQuestions)
             ++ orEmpty (hard subjectQuestions)
  | Easy => orEmpty (easy subjectQuestions)
  | Medium => orEmpty (medium subjectQuestions)
  | Hard => orEmpty (hard subjectQuestions)
  end.

Definition getRandomQuestions (draw : nat -> nat)
    (questionBank : jsstring -> option Bank)
    (subject_ : jsstring) (d : Difficulty) (count : nat) : list Question :=
  match questionBank subject_ with
  | None => []
  | Some subjectQuestions =>
      let shuffled := shuffleArray draw (pool subjectQuestions d) in
      slice0 (Nat.min count (length shuffled)) shuffled
  end.

Definition difficultyName (d : Difficulty) : jsstring :=
  match d with
  | Easy => js "easy"
  | Medium => js "medium"
  | Hard => js "hard"
  | Mixed => js "mixed"
  end.

(** [startQuiz]: the selectors give the subject (empty when none is chosen),
    the difficulty ([None] when none is chosen) and the count; the quiz is
    left as it was when the start is refused. *)
Definition startQuiz (draw : nat -> nat)
    (questionBank : jsstring -> option Bank) (now : Z)
    (subject_ : jsstring) (d : option Difficulty) (count : nat)
    (currentQuiz : State) : State :=
  match subject_, d with
  | [], _ => currentQuiz
  | _ :: _, None => currentQuiz
  | _ :: _, Some d =>
      match getRandomQuestions draw questionBank subject_ d count with
      | [] => currentQuiz
      | qs => {| questions := qs; currentIndex := 0; score := 0;
                 answers := []; subject := subject_;
                 difficulty := difficultyName d; startTime := now |}
      end
  end.

(** [selectAnswer(index)]; [None] when there is no current question, where
    reading [question.answer] throws. *)
Definition selectAnswer (currentQuiz : State) (index : nat) : option State :=
  match nth_error (questions currentQuiz) (currentIndex currentQuiz) with
  | None => None
  | Some question_ =>
      let isCorrect_ := index =? answer question_ in
      Some {| questions := questions currentQuiz;
              currentIndex := currentIndex currentQuiz;
              score := if isCorrect_ then S (score currentQuiz)
                       else score currentQuiz;
              answers := answers currentQuiz
                         ++ [{| question := q question_;
                                selected := index;
                                correct := answer question_;
                                isCorrect := isCorrect_ |}];
              subject := subject currentQuiz;
              difficulty := difficulty currentQuiz;
              startTime := startTime currentQuiz |}
  end.

(** [nextQuestion]: the next question is shown, or the results are
    ([true]).  [currentIndex < length - 1] is written without the
    subtraction. *)
Definition nextQuestion (currentQuiz : State) : State * bool :=
  if S (currentIndex currentQuiz) <? length (questions currentQuiz)
  then ({| questions := questions currentQuiz;
           currentIndex := S (currentIndex currentQuiz);
           score := score currentQuiz;
           answers := answers currentQuiz;
           subject := subject currentQuiz;
           difficulty := difficulty currentQuiz;
           startTime := startTime currentQuiz |}, false)
  else (currentQuiz, true).

Definition restartQuiz (draw : nat -> nat) (now : Z) (currentQuiz : State)
    : State :=
  {| questions := shuffleArray draw (questions currentQuiz);
     currentIndex := 0; score := 0; answers := [];
     subject := subject currentQuiz;
     difficulty := difficulty currentQuiz;
     startTime := now |}.

(** What the player does. *)
Inductive Event :=
| Select (index : nat)
| Next
| Restart (draw : nat -> nat) (now : Z).

Definition step (st : State) (e : Event) : option State :=
  match e with
  | Select index => selectAnswer st index
  | Next => Some (fst (nextQuestion st))
  | Restart draw now => Some (restartQuiz draw now st)
  end.

Fixpoint run (events : list Event) (st : State) : option State :=
  match events with
  | [] => Some st
  | e :: events' =>
      match step st e with
      | Some st' => run events' st'
      | None => None
      end
  end.

(** The events of a player who answers the current question and asks for
    the next one, once per choice. *)
Definition turns (choices : list nat) : list Event :=
  concat (map (fun c => [Select c; Next]) choices).

(** What [selectAnswer] records for a choice on a question. *)
Definition record (choice : nat) (question_ : Question) : Recorded :=
  {| question := q question_;
     selected := choice;
     correct := answer question_;
     isCorrect := choice =? answer question_ |}.

(** *** The history of the quizzes *)

Record Entry := {
  entrySubject : jsstring;
  entryDifficulty : jsstring;
  entryScore : nat;
  total : nat;
  percentage : Z;
  time : Z;
  date : jsstring
}.

(** What [localStorage] holds under the history key: nothing, something that
    does not parse to an array, or a history. *)
Inductive Stored :=
| Absent
| Corrupt
| History (entries : list Entry).

(** [saveQuizHistory], given the entry it makes; [writable] tells whether
    [localStorage.setItem] goes through.  Whatever throws is caught and the
    storage stays as it was. *)
Definition saveQuizHistory (writable : bool) (entry : Entry)
    (stored : Stored) : Stored :=
  let parsed :=
    match stored with
    | Absent => Some []
    | Corrupt => None
    | History h => Some h
    end in
  match parsed with
  | None => stored
  | Some history =>
      let history := history ++ [entry] in
      let history := if 50 <? length history then tl history else history in
      if writable then History history else stored
  end.

(** The streak loop of [updateQuizStats]. *)
Definition bestStreak (history : list Entry) : nat :=
  fst (fold_left
         (fun (acc : nat * nat) (e : Entry) =>
            let (bestStreak, currentStreak) := acc in
            if (percentage e >=? 70)%Z
            then (Nat.max bestStreak (S currentStreak), S currentStreak)
            else (bestStreak, 0))
         history (0, 0)).

(** [formatTime(seconds)] for a whole number of seconds. *)
Definition formatTime (seconds : nat) : jsstring :=
  if seconds <? 60 then Indexing.decimal seconds ++ js "s"
  else Indexing.decimal (seconds / 60) ++ js "m "
       ++ Indexing.decimal (seconds mod 60) ++ js "s".

End Quiz.

(** ** The quick quiz of the assistant (second bundle) *)

Module MiniQuiz.

(** [currentQuizQuestion]: a question of [QUIZ_QUESTIONS] with its
    subject. *)
Record Question := {
  q : jsstring;
  a : jsstring;
  hint : jsstring;
  subject : jsstring
}.

(** The two cards that [checkQuizAnswer] returns; both show the answer. *)
Inductive Verdict :=
| Correct (answer : jsstring)
| Incorrect (answer : jsstring).

(** [checkQuizAnswer(userAnswer)]: what it returns ([None] for [null]) and
    the new value of [currentQuizQuestion]. *)
Definition checkQuizAnswer `{CaseMapping}
    (currentQuizQuestion : option Question) (userAnswer : jsstring)
    : option Verdict * option Question :=
  match currentQuizQuestion with
  | None => (None, None)
  | Some question =>
      let correct := toLowerCase (a question) in
      let answer := trim (toLowerCase userAnswer) in
      let isCorrect :=
        str_eqb answer correct
        || includes answer correct
        || includes correct answer in
      (Some (if isCorrect then Correct (a question)
             else Incorrect (a question)),
       None)
  end.

End MiniQuiz.

(** ** The retrieval steps of the responders

    What [getSmartResponse] does once no canned reply applies: the three
    best chunks are searched, and the answer made of them is given when it
    is longer than 20 units.  [None] stands for falling through to the
    search by title.  The assistant's [getResponse] has two such steps. *)

Module Responder.

Definition retrieve `{CaseMapping} (knowledgeBase : list Chatbot.Item)
    (input : jsstring) : option Chatbot.Answer :=
  let contexts := Chatbot.searchKnowledge knowledgeBase input 3 in
  if 0 <? length contexts then
    match Chatbot.generateAnswer input contexts with
    | Some result =>
        if 20 <? length (Chatbot.answer result) then Some result else None
    | None => None
    end
  else None.

(** The two search stages of the assistant's [getResponse]: what is shown,
    and from which stage.  The first stage asks [semanticSearch] for 8
    contexts; the backup stage, tried when the first shows nothing and the
    knowledge base is not empty, asks [searchKnowledge] for 5.  An answer
    is shown when it is longer than 40 units.

    When the service sent something else than an array of ranked chunks,
    [generateAnswer] is called on it all the same.  What it makes of such a
    value (a TypeError, [null], an answer) is the oracle [generateUnshaped],
    which is given the JSON text of the value. *)
Inductive Stage := FromResources | FromBackup.

Definition search `{CaseMapping}
    (generateUnshaped : jsstring -> Assistant.Completion (option Assistant.Answer))
    (remote : Assistant.FetchOutcome)
    (knowledgeBase : list Assistant.Item) (input : jsstring)
    : Assistant.Completion (option (Stage * Assistant.Answer)) :=
  Assistant.bind (Assistant.semanticSearch remote knowledgeBase input 8)
    (fun contexts =>
  Assistant.bind
    match contexts with
    | Assistant.Ranked contexts =>
        Assistant.Normal
          (if 0 <? length contexts
           then Assistant.generateAnswer input contexts else None)
    | Assistant.Unshaped json lengthPositive =>
        if lengthPositive then generateUnshaped json
        else Assistant.Normal None
    end
    (fun result =>
       let shown :=
         match result with
         | Some result =>
             if 40 <? length (Assistant.text result)
             then Some (FromResources, result) else None
         | None => None
         end in
       match shown with
       | Some response => Assistant.Normal (Some response)
       | None =>
           let backup :=
             if 0 <? length knowledgeBase then
               let localResults :=
                 Assistant.searchKnowledge knowledgeBase input 5 in
               if 0 <? length localResults then
                 match Assistant.generateAnswer input localResults with
                 | Some result =>
                     if 40 <? length (Assistant.text result)
                     then Some (FromBackup, result) else None
                 | None => None
                 end
               else None
             else None in
           Assistant.Normal backup
       end)).

End Responder.


(** ** The parts of a score

    The specification describes a chunk's score as a sum over the query
    keywords of the weights of the keyword-set, content and title matches,
    plus an exact-phrase bonus.  These definitions follow its words; the
    properties below compare them with [scoreItem]. *)

Definition jsstring_eq_dec : forall a b : jsstring, {a = b} + {a <> b} :=
  list_eq_dec N.eq_dec.

Definition sumZ (l : list Z) : Z := fold_right Z.add 0%Z l.

Module ChatbotSpec.
Import Chatbot.

Definition keywordWeight `{CaseMapping} (it : Item) (kw : jsstring) : Z :=
  ((if arrayIncludes (keywords it) kw then 2 else 0)
   + (if includes (toLowerCase (content it)) kw then 1 else 0)
   + (if includes (toLowerCase (title it)) kw then 3 else 0))%Z.

Definition matchScore `{CaseMapping} (kws : list jsstring) (it : Item) : Z :=
  sumZ (map (keywordWeight it) kws).

Definition phraseMatch `{CaseMapping} (query : jsstring) (it : Item) : bool :=
  includes (toLowerCase (content it)) (toLowerCase query).

End ChatbotSpec.

Module AssistantSpec.
Import Assistant.

Definition keywordWeight `{CaseMapping} (it : Item) (kw : jsstring) : Z :=
  ((if match keywords it with
       | Some ks => arrayIncludes ks kw
       | None => false
       end then 3 else 0)
   + (if includes (toLowerCase (content it)) kw then 2 else 0)
   + (if includes (toLowerCase (title it)) kw then 4 else 0))%Z.

Definition matchScore `{CaseMapping} (kws : list jsstring) (it : Item) : Z :=
  sumZ (map (keywordWeight it) kws).

Definition phraseMatch `{CaseMapping} (query : jsstring) (it : Item) : bool :=
  includes (toLowerCase (content it)) (toLowerCase query).

End AssistantSpec.

(** ** Chunks as groups of sentences

    A chunk is a run of consecutive sentences put together with single
    spaces and trimmed; the words of a text are what its white space
    separates. *)

Definition renderGroup (group : list jsstring) : jsstring :=
  trim (join [space] group).

Definition wordsOf (s : jsstring) : list jsstring :=
  filter (fun w => match w with [] => false | _ :: _ => true end)
         (split isWhiteSpace s).

(** A string that begins with a unit other than white space. *)
Definition startsSolid (s : jsstring) : Prop :=
  exists c r, s = c :: r /\ isWhiteSpace c = false.

(** The last steps of the higher-fidelity [generateAnswer] on a non-empty
    answer: white space normalized, terminal punctuation ensured. *)
Definition finishAnswer (answer : jsstring) : jsstring :=
  let answer := trim (collapseSpaces answer) in
  if Assistant.isTerminal answer then answer else answer ++ js ".".

(** ** The state of a quiz *)

(** The number of answers recorded as correct. *)
Definition rightAnswers (answers : list Quiz.Recorded) : nat :=
  length (filter Quiz.isCorrect answers).

(** A quiz that has a current question. *)
Definition inPlay (st : Quiz.State) : Prop :=
  Quiz.currentIndex st < length (Quiz.questions st).

(** ** Sample data

    Chunks as the index builder makes them: [keywords] is [extractKeywords]
    of [content]. *)

Module Samples.

Definition chunk (title content : string) : Chatbot.Item :=
  {| Chatbot.id := js "doc_0";
     Chatbot.title := js title;
     Chatbot.category := js "textbooks";
     Chatbot.content := js content;
     Chatbot.keywords := Chatbot.extractKeywords (js content) |}.

Definition entry (title content : string) : Assistant.Item :=
  {| Assistant.id := js "doc_0";
     Assistant.title := js title;
     Assistant.category := js "textbooks";
     Assistant.content := js content;
     Assistant.keywords := Some (Assistant.extractKeywords (js content)) |}.

Definition waterChunk : Chatbot.Item :=
  chunk "Science" "The water cycle includes evaporation and condensation".

Definition waterEntry : Assistant.Item :=
  entry "Science" "The water cycle includes evaporation and condensation".

(** Three sentences with no blank after the full stops, of 300, 250 and 250
    letters, and of 400, 300 and 300 letters. *)
Definition dense (n1 n2 n3 : nat) : jsstring :=
  repeat 97%N n1 ++ [46%N] ++ repeat 98%N n2 ++ [46%N] ++ repeat 99%N n3.

(** Two resources of the catalogue, and a text of 120 units for each. *)
Definition book (ident title : string) : Indexing.Resource :=
  {| Indexing.resourceId := js ident;
     Indexing.resourceTitle := js title;
     Indexing.resourceCategory := js "textbooks";
     Indexing.format := js "pdf";
     Indexing.filepath := js "content/book.pdf" |}.

Definition catalogue : list Indexing.Resource :=
  [book "1" "Science"; book "2" "Geography"].

Definition pages (r : Indexing.Resource) : option jsstring :=
  Some (js "Water is essential for life. " ++ repeat 97%N 100).

(** A chunk whose only sentence is 12 units long. *)
Definition shortEntry : Assistant.Item := entry "Water" "Water is wet.".

(** A bank with one subject, which has no hard questions. *)
Definition ask (text : string) (right : nat) : Quiz.Question :=
  {| Quiz.q := js text;
     Quiz.options := [js "A"; js "B"; js "C"; js "D"];
     Quiz.answer := right;
     Quiz.explanation := js "See the textbook" |}.

Definition scienceBank : Quiz.Bank :=
  {| Quiz.easy := Some [ask "What planet do we live on?" 2;
                        ask "What gas do plants absorb?" 1];
     Quiz.medium := Some [ask "What is the chemical symbol for water?" 0];
     Quiz.hard := None |}.

Definition bank (subject : jsstring) : option Quiz.Bank :=
  if str_eqb subject (js "science") then Some scienceBank else None.



End Samples.

(** ** Normalized white space

    A string whose white space is made of single blanks: every white-space
    unit is a space, and the unit after it, when there is one, is not white
    space. *)

Fixpoint singleSpaced (s : jsstring) : bool :=
  match s with
  | [] => true
  | c :: r =>
      (if isWhiteSpace c
       then (c =? space)%N
            && match r with
               | c' :: _ => negb (isWhiteSpace c')
               | [] => true
               end
       else true)
      && singleSpaced r
  end.

(** * Properties *)

(** ** The built-ins and the engine on small inputs *)

Example split_pieces_examples :
  split Chatbot.sentenceEnd (js "A. B.") = [js "A"; js " B"; []]
  /\ split Chatbot.sentenceEnd (js "..a!?b") = [[]; js "a"; js "b"]
  /\ split Chatbot.sentenceEnd [] = [[]]
  /\ split isWhiteSpace (js "  a  b ") = [[]; js "a"; js "b"; []].
Proof. repeat split. Qed.

Example trim_collapse_examples :
  trim (js "  a  b  ") = js "a  b"
  /\ collapseSpaces (js " a   b ") = js " a b "
  /\ join (js ". ") [js "a"; js "b"; js "c"] = js "a. b. c".
Proof. repeat split. Qed.

Example extractKeywords_example :
  Chatbot.extractKeywords (js "What is the Water-cycle? It is 42!")
  = [js "water"; js "cycle"].
Proof. reflexivity. Qed.

(** The first end-to-end scenario of the specification: one document, chunk
    size 200, the query ["water cycle"]. *)
Example water_scenario :
  let text := js ("Water is essential for life. Plants need water to grow. "
                  ++ "The water cycle includes evaporation and condensation.") in
  let chunks := Assistant.splitText text 200 in
  let kb := map (fun c => {| Assistant.id := js "doc_0";
                             Assistant.title := js "Water";
                             Assistant.category := js "textbooks";
                             Assistant.content := c;
                             Assistant.keywords :=
                               Some (Assistant.extractKeywords c) |}) chunks in
  let found := Assistant.searchKnowledge kb (js "water cycle") 5 in
  length chunks = 1
  /\ map Assistant.score found = [24%Z]
  /\ Forall (fun r => includes (Assistant.content (Assistant.item r))
                        (js "water cycle") = true) found
  /\ match Assistant.generateAnswer (js "water cycle") found with
     | Some a => includes (Assistant.text a)
                   (js "The water cycle includes evaporation and condensation.")
     | None => false
     end = true.
Proof. vm_compute. repeat split; repeat constructor. Qed.


(** ** Sorting and slicing *)

Section Ranking.

Context {A : Type} (key : A -> Z).

Let cmp (a b : A) : Z := (key b - key a)%Z.
Let desc (a b : A) : Prop := (key b <= key a)%Z.
Let tied (v : Z) (a : A) : bool := (key a =? v)%Z.

Lemma insertBy_perm (x : A) (l : list A) :
  Permutation (insertBy cmp x l) (x :: l).
Proof.
  induction l as [|y l IH]; simpl.
  - apply Permutation_refl.
  - destruct (cmp x y <=? 0)%Z.
    + apply Permutation_refl.
    + apply perm_trans with (y :: x :: l).
      * now apply perm_skip.
      * apply perm_swap.
Qed.

Lemma sortBy_perm (l : list A) : Permutation (sortBy cmp l) l.
Proof.
  induction l as [|x l IH]; simpl.
  - apply perm_nil.
  - apply perm_trans with (x :: sortBy cmp l).
    + apply insertBy_perm.
    + now apply perm_skip.
Qed.

Lemma insertBy_sorted (x : A) (l : list A) :
  StronglySorted desc l -> StronglySorted desc (insertBy cmp x l).
Proof.
  induction l as [|y l IH]; simpl; intros Hs.
  - constructor; [constructor | constructor].
  - inversion Hs as [|? ? Hl Hy]; subst.
    destruct (cmp x y <=? 0)%Z eqn:E.
    + apply Z.leb_le in E. unfold cmp in E.
      constructor; [exact Hs|].
      constructor; [unfold desc; lia|].
      eapply Forall_impl; [|exact Hy].
      unfold desc; intros z Hz; lia.
    + apply Z.leb_gt in E. unfold cmp in E.
      constructor; [now apply IH|].
      apply Forall_forall. intros z Hz.
      apply (Permutation_in _ (insertBy_perm x l)) in Hz.
      destruct Hz as [<-|Hz].
      * unfold desc; lia.
      * rewrite Forall_forall in Hy. now apply Hy.
Qed.

Lemma sortBy_sorted (l : list A) : StronglySorted desc (sortBy cmp l).
Proof.
  induction l as [|x l IH]; simpl.
  - constructor.
  - now apply insertBy_sorted.
Qed.

(** Stability: among the elements of one key the order is left as it was. *)
Lemma insertBy_tied (v : Z) (x : A) (l : list A) :
  filter (tied v) (insertBy cmp x l) = filter (tied v) (x :: l).
Proof.
  induction l as [|y l IH]; simpl; [reflexivity|].
  destruct (cmp x y <=? 0)%Z eqn:E; [reflexivity|].
  apply Z.leb_gt in E. unfold cmp in E.
  simpl. rewrite IH. simpl. unfold tied.
  destruct (key y =? v)%Z eqn:Ey, (key x =? v)%Z eqn:Ex; try reflexivity.
  apply Z.eqb_eq in Ey, Ex. lia.
Qed.

Lemma sortBy_tied (v : Z) (l : list A) :
  filter (tied v) (sortBy cmp l) = filter (tied v) l.
Proof.
  induction l as [|x l IH]; simpl; [reflexivity|].
  rewrite insertBy_tied. simpl. now rewrite IH.
Qed.

Lemma slice0_length (k : nat) (l : list A) : length (slice0 k l) <= k.
Proof. unfold slice0. rewrite length_firstn. lia. Qed.

Lemma slice0_sorted (k : nat) (l : list A) :
  StronglySorted desc l -> StronglySorted desc (slice0 k l).
Proof.
  unfold slice0. revert k. induction l as [|x l IH]; intros [|k] Hs; simpl;
    try constructor.
  - inversion Hs; subst. now apply IH.
  - inversion Hs as [|? ? _ Hx]; subst.
    apply Forall_forall. intros z Hz.
    rewrite Forall_forall in Hx. apply Hx.
    rewrite <- (firstn_skipn k l). apply in_or_app. now left.
Qed.

Lemma slice0_prefix (p : A -> bool) (k : nat) (l : list A) :
  filter p l = filter p (slice0 k l) ++ filter p (skipn k l).
Proof.
  unfold slice0. rewrite <- filter_app. now rewrite firstn_skipn.
Qed.

Lemma slice0_incl (k : nat) (l : list A) (x : A) :
  In x (slice0 k l) -> In x l.
Proof.
  unfold slice0. intros Hx. rewrite <- (firstn_skipn k l).
  apply in_or_app. now left.
Qed.

Lemma filter_tied_above (floor v : Z) (l : list A) :
  (floor < v)%Z ->
  filter (tied v) (filter (fun i => (key i >? floor)%Z) l) = filter (tied v) l.
Proof.
  intros Hv. induction l as [|x l IH]; simpl; [reflexivity|].
  destruct (key x >? floor)%Z eqn:Ef; simpl; rewrite IH; [reflexivity|].
  unfold tied at 2. destruct (key x =? v)%Z eqn:Ev; [|reflexivity].
  apply Z.eqb_eq in Ev. rewrite Z.gtb_ltb in Ef.
  apply Z.ltb_ge in Ef. lia.
Qed.

(** What filtering above a floor, sorting by descending key and keeping the
    first [k] gives, whatever the scored list. *)
Lemma ranked_spec (floor : Z) (k : nat) (l : list A) :
  let r := slice0 k (sortBy cmp (filter (fun i => (key i >? floor)%Z) l)) in
  length r <= k
  /\ StronglySorted desc r
  /\ Forall (fun s => (floor < key s)%Z) r
  /\ forall v, exists rest, filter (tied v) l = filter (tied v) r ++ rest.
Proof.
  intros r. subst r.
  set (kept := filter (fun i => (key i >? floor)%Z) l).
  assert (Hfloor : Forall (fun s => (floor < key s)%Z)
                     (slice0 k (sortBy cmp kept))).
  { apply Forall_forall. intros s Hs.
    apply slice0_incl in Hs.
    apply (Permutation_in _ (sortBy_perm kept)) in Hs.
    apply filter_In in Hs. destruct Hs as [_ Hs].
    apply Z.gtb_lt in Hs. lia. }
  split; [apply slice0_length|].
  split; [apply slice0_sorted, sortBy_sorted|].
  split; [exact Hfloor|].
  intros v.
  destruct (Z_lt_le_dec floor v) as [Hv|Hv].
  - exists (filter (tied v) (skipn k (sortBy cmp kept))).
    rewrite <- slice0_prefix, sortBy_tied.
    unfold kept. symmetry. now apply filter_tied_above.
  - exists (filter (tied v) l).
    replace (filter (tied v) (slice0 k (sortBy cmp kept))) with (@nil A);
      [reflexivity|].
    symmetry. induction Hfloor as [|s r Hs _ IH]; simpl; [reflexivity|].
    unfold tied at 1. destruct (key s =? v)%Z eqn:Ev; [|exact IH].
    apply Z.eqb_eq in Ev. lia.
Qed.

End Ranking.

(** ** Splitting *)

Section Splitting.

Variable sep : N -> bool.

Lemma split_nonempty (s : jsstring) : split sep s <> [].
Proof.
  induction s as [|c r IH]; simpl; [discriminate|].
  destruct (sep c).
  - destruct r as [|c' r']; [discriminate|].
    destruct (sep c'); [exact IH | discriminate].
  - destruct (split sep r); discriminate.
Qed.

(** A separator in front adds at most an empty piece. *)
Lemma split_sep_cons (c : N) (r : jsstring) :
  sep c = true ->
  split sep (c :: r) = split sep r \/ split sep (c :: r) = [] :: split sep r.
Proof.
  intros Hc. simpl. rewrite Hc.
  destruct r as [|c' r']; [now right|].
  destruct (sep c'); [now left | now right].
Qed.

Lemma split_sep_head (c : N) (r : jsstring) :
  sep c = true -> exists t, split sep (c :: r) = [] :: t.
Proof.
  revert c. induction r as [|c' r' IH]; intros c Hc.
  - exists [[]]. simpl. now rewrite Hc.
  - change (split sep (c :: c' :: r'))
      with (if sep c then if sep c' then split sep (c' :: r')
                          else [] :: split sep (c' :: r')
            else match split sep (c' :: r') with
                 | piece :: rest => (c :: piece) :: rest
                 | [] => [[c]]
                 end).
    rewrite Hc. destruct (sep c') eqn:Hc'.
    + now apply IH.
    + now eexists.
Qed.

Lemma split_other_cons (c : N) (r : jsstring) :
  sep c = false ->
  exists h t, split sep r = h :: t /\ split sep (c :: r) = (c :: h) :: t.
Proof.
  intros Hc. simpl. rewrite Hc.
  destruct (split sep r) as [|h t] eqn:E.
  - now apply split_nonempty in E.
  - now exists h, t.
Qed.

(** The pieces hold no separator, and only units of the string. *)
Lemma split_pieces (s piece : jsstring) :
  In piece (split sep s) ->
  Forall (fun c => sep c = false /\ In c s) piece.
Proof.
  revert piece. induction s as [|c r IH]; intros piece Hin.
  - simpl in Hin. destruct Hin as [<-|[]]. constructor.
  - assert (Hr : forall p, In p (split sep r) ->
                 Forall (fun d => sep d = false /\ In d (c :: r)) p).
    { intros p H. eapply Forall_impl; [|apply (IH _ H)].
      intros d [Hd Hd']. split; [exact Hd | now right]. }
    destruct (sep c) eqn:Hc.
    + destruct (split_sep_cons r Hc) as [E|E]; rewrite E in Hin.
      * now apply Hr.
      * destruct Hin as [<-|Hin]; [constructor | now apply Hr].
    + destruct (split_other_cons r Hc) as (h & t & E1 & E2).
      rewrite E2 in Hin. rewrite E1 in Hr.
      destruct Hin as [<-|Hin].
      * constructor; [split; [exact Hc | now left]|].
        apply Hr. now left.
      * apply Hr. now right.
Qed.

(** A string of separators only has empty pieces only. *)
Lemma split_all_sep (s : jsstring) :
  Forall (fun c => sep c = true) s ->
  Forall (fun piece => piece = []) (split sep s).
Proof.
  intros Hs. apply Forall_forall. intros piece Hin.
  apply split_pieces in Hin.
  destruct piece as [|c piece]; [reflexivity|].
  inversion Hin as [|? ? [Hc Hc'] _]; subst.
  rewrite Forall_forall in Hs. rewrite (Hs _ Hc') in Hc. discriminate.
Qed.

(** Joining two strings with a separator: the pieces that pass a test
    refusing the empty piece are those of the first string followed by those
    of the second. *)
Lemma split_app_sep (P : jsstring -> bool) (a b : jsstring) (c : N) :
  P [] = false -> sep c = true ->
  filter P (split sep (a ++ c :: b))
  = filter P (split sep a) ++ filter P (split sep b).
Proof.
  intros HP Hc.
  assert (Hdrop : forall d r, sep d = true ->
            filter P (split sep (d :: r)) = filter P (split sep r)).
  { intros d r Hd. destruct (split_sep_cons r Hd) as [E|E]; rewrite E.
    - reflexivity.
    - simpl. now rewrite HP. }
  rewrite <- (Hdrop c b Hc).
  destruct (split_sep_head b Hc) as [tx Hx].
  remember (c :: b) as x eqn:Ex. clear Ex.
  assert (Htx : filter P tx = filter P (split sep x)).
  { rewrite Hx. simpl. now rewrite HP. }
  assert (S : exists h t t', split sep a = h :: t
              /\ split sep (a ++ x) = h :: t'
              /\ filter P t' = filter P t ++ filter P (split sep x)).
  { induction a as [|d a IH].
    - exists [], [], tx. split; [reflexivity|]. split; [exact Hx|exact Htx].
    - destruct IH as (h & t & t' & E1 & E2 & E3).
      destruct (sep d) eqn:Hd.
      + destruct a as [|d' a'].
        * destruct (split_sep_cons x Hd) as [E|E].
          -- exists [], [[]], tx. split; [simpl; now rewrite Hd|].
             split; [simpl app; now rewrite E|].
             simpl. now rewrite HP.
          -- exists [], [[]], ([] :: tx). split; [simpl; now rewrite Hd|].
             split; [simpl app; now rewrite E, Hx|].
             simpl. now rewrite HP.
        * destruct (sep d') eqn:Hd'.
          -- exists h, t, t'. split; [|split; [|exact E3]].
             ++ rewrite <- E1. simpl. now rewrite Hd, Hd'.
             ++ rewrite <- E2. simpl. now rewrite Hd, Hd'.
          -- exists [], (h :: t), (h :: t'). split; [|split].
             ++ rewrite <- E1. simpl. now rewrite Hd, Hd'.
             ++ rewrite <- E2. simpl. now rewrite Hd, Hd'.
             ++ simpl. destruct (P h); [|exact E3].
                simpl. now rewrite E3.
      + exists (d :: h), t, t'. split; [|split; [|exact E3]].
        * simpl. now rewrite Hd, E1.
        * simpl app. simpl. now rewrite Hd, E2. }
  destruct S as (h & t & t' & E1 & E2 & E3).
  rewrite E1, E2. simpl. destruct (P h); simpl; now rewrite E3.
Qed.

End Splitting.

(** ** Words and keywords *)

Lemma str_eqb_eq (a b : jsstring) : str_eqb a b = true <-> a = b.
Proof.
  revert b. induction a as [|x a IH]; intros [|y b]; simpl;
    try (split; [discriminate | congruence]); [tauto|].
  unfold unit_eqb. rewrite andb_true_iff, N.eqb_eq, IH.
  split; [intros [-> ->]; reflexivity | intros E; injection E; auto].
Qed.

Lemma arrayIncludes_In (arr : list jsstring) (x : jsstring) :
  arrayIncludes arr x = true <-> In x arr.
Proof.
  unfold arrayIncludes. rewrite existsb_exists. split.
  - intros (y & Hy & E). apply str_eqb_eq in E. now subst.
  - intros Hx. exists x. split; [exact Hx | now apply str_eqb_eq].
Qed.

Lemma filter_nil_iff {A} (p : A -> bool) (l : list A) :
  filter p l = [] <-> Forall (fun x => p x = false) l.
Proof.
  induction l as [|x l IH]; simpl.
  - split; [constructor | reflexivity].
  - destruct (p x) eqn:E.
    + split; [discriminate|]. intros H. inversion H; congruence.
    + rewrite IH. split; [now constructor | intros H; now inversion H].
Qed.

Lemma isPunctuation_ascii (c : N) : isPunctuation c = true -> isAscii c.
Proof.
  unfold isPunctuation, isAscii. intros H.
  apply andb_true_iff in H. destruct H as [H _]. now apply N.ltb_lt.
Qed.

Lemma isPunctuation_blank (c : N) :
  isPunctuation c = true ->
  lower_unit c = c /\ isLowerAlnum c = false.
Proof.
  unfold isPunctuation, isAsciiAlnum, lower_unit, isLowerAlnum.
  intros H. apply andb_true_iff in H. destruct H as [_ H].
  apply negb_true_iff in H.
  destruct (N.leb_spec 65 c), (N.leb_spec c 90), (N.leb_spec 97 c),
    (N.leb_spec c 122), (N.leb_spec 48 c), (N.leb_spec c 57);
    simpl in *; try discriminate; split; try reflexivity; lia.
Qed.

Section Words.

Context `{CaseMapping}.

Lemma toLowerCase_nil : toLowerCase [] = [].
Proof. now rewrite toLowerCase_ascii by constructor. Qed.

Lemma words_nil : words [] = [[]].
Proof. unfold words. now rewrite toLowerCase_nil. Qed.

(** A text of ASCII punctuation has no word but empty ones. *)
Lemma words_punctuation (q : jsstring) :
  Forall (fun c => isPunctuation c = true) q ->
  Forall (fun w => w = []) (words q).
Proof.
  intros Hq. unfold words.
  rewrite toLowerCase_ascii
    by (eapply Forall_impl; [|exact Hq]; apply isPunctuation_ascii).
  apply split_all_sep. unfold blankNonAlnum.
  apply Forall_map, Forall_map.
  eapply Forall_impl; [|exact Hq]. intros c Hc. cbv beta.
  destruct (isPunctuation_blank c Hc) as [-> ->]. simpl.
  destruct (isWhiteSpace c) eqn:E; [exact E | reflexivity].
Qed.

(** The words of a text never hold a unit outside [[a-z0-9]]. *)
Lemma words_alnum (text w : jsstring) :
  In w (words text) -> Forall (fun c => isLowerAlnum c = true) w.
Proof.
  unfold words, blankNonAlnum. intros Hw.
  apply split_pieces in Hw.
  eapply Forall_impl; [|exact Hw]. intros c [Hc Hin]. cbv beta in *.
  apply in_map_iff in Hin. destruct Hin as (d & Hd & _).
  destruct (isLowerAlnum d) eqn:Ed; [simpl in Hd; now subst|].
  simpl in Hd. destruct (isWhiteSpace d) eqn:Ew; subst.
  - congruence.
  - discriminate.
Qed.

(** The words of two ASCII texts joined by a space. *)
Lemma words_app_space (P : jsstring -> bool) (a b : jsstring) :
  P [] = false -> Forall isAscii a -> Forall isAscii b ->
  filter P (words (a ++ [space] ++ b))
  = filter P (words a) ++ filter P (words b).
Proof.
  intros HP Ha Hb. unfold words.
  assert (Hab : Forall isAscii (a ++ [space] ++ b)).
  { apply Forall_app. split; [exact Ha|].
    constructor; [unfold isAscii, space; lia | exact Hb]. }
  rewrite !toLowerCase_ascii by assumption.
  unfold blankNonAlnum. rewrite !map_app. simpl map.
  exact (split_app_sep isWhiteSpace P _ _ space HP eq_refl).
Qed.

End Words.

(** ** Keyword extraction *)

Section Keywords.

Context `{CaseMapping}.

Lemma Chatbot_extractKeywords_nil : Chatbot.extractKeywords [] = [].
Proof. unfold Chatbot.extractKeywords. now rewrite words_nil. Qed.

Lemma Assistant_extractKeywords_nil : Assistant.extractKeywords [] = [].
Proof. unfold Assistant.extractKeywords. now rewrite words_nil. Qed.

Lemma Chatbot_extractKeywords_punctuation (q : jsstring) :
  Forall (fun c => isPunctuation c = true) q ->
  Chatbot.extractKeywords q = [].
Proof.
  intros Hq. apply filter_nil_iff.
  eapply Forall_impl; [|apply (words_punctuation Hq)].
  now intros w ->.
Qed.

Lemma Assistant_extractKeywords_punctuation (q : jsstring) :
  Forall (fun c => isPunctuation c = true) q ->
  Assistant.extractKeywords q = [].
Proof.
  intros Hq. apply filter_nil_iff.
  eapply Forall_impl; [|apply (words_punctuation Hq)].
  now intros w ->.
Qed.

Lemma Chatbot_extractKeywords_stop (q : jsstring) :
  Forall (fun w => length w <= 2 \/ In w Chatbot.stopWords) (words q) ->
  Chatbot.extractKeywords q = [].
Proof.
  intros Hq. apply filter_nil_iff.
  eapply Forall_impl; [|exact Hq]. intros w [Hw|Hw]; cbv beta.
  - apply andb_false_iff. left. apply Nat.ltb_ge. exact Hw.
  - apply andb_false_iff. right. apply negb_false_iff.
    now apply arrayIncludes_In.
Qed.

Lemma Assistant_extractKeywords_stop (q : jsstring) :
  Forall (fun w => length w <= 2 \/ In w Assistant.stop) (words q) ->
  Assistant.extractKeywords q = [].
Proof.
  intros Hq. apply filter_nil_iff.
  eapply Forall_impl; [|exact Hq]. intros w [Hw|Hw]; cbv beta.
  - apply andb_false_iff. left. apply Nat.ltb_ge. exact Hw.
  - apply andb_false_iff. right. apply negb_false_iff.
    now apply arrayIncludes_In.
Qed.

End Keywords.

(** C8, as the code has it.  [extractKeywords] returns a sequence, not a set:
    the keywords of two ASCII texts joined by a space are the keywords of the
    first followed by the keywords of the second, so a content word that
    occurs again in the input occurs again in the result.  On the empty input
    it returns the empty sequence.  Both variants. *)
Theorem extractKeywords_sequence `{CaseMapping} :
  (Chatbot.extractKeywords [] = [] /\ Assistant.extractKeywords [] = [])
  /\ forall a b : jsstring,
       Forall isAscii a -> Forall isAscii b ->
       Chatbot.extractKeywords (a ++ [space] ++ b)
       = Chatbot.extractKeywords a ++ Chatbot.extractKeywords b
       /\ Assistant.extractKeywords (a ++ [space] ++ b)
          = Assistant.extractKeywords a ++ Assistant.extractKeywords b.
Proof.
  split.
  - split; [apply Chatbot_extractKeywords_nil
           | apply Assistant_extractKeywords_nil].
  - intros a b Ha Hb.
    split; now apply words_app_space.
Qed.

(** The keywords of ["water"] are returned twice for ["water water"]. *)
Lemma extractKeywords_sequence_witness :
  Forall isAscii (js "water") /\
  Chatbot.extractKeywords (js "water" ++ [space] ++ js "water")
  = Chatbot.extractKeywords (js "water") ++ Chatbot.extractKeywords (js "water").
Proof.
  assert (Hw : Forall isAscii (js "water"))
    by (repeat constructor).
  split; [exact Hw|].
  exact (proj1 (proj2 (@extractKeywords_sequence asciiCase) _ _ Hw Hw)).
Defined.

(** C8, as the claim states it, fails: the result for ["water water"] holds
    the keyword ["water"] twice, in both variants. *)
Lemma extractKeywords_duplicates :
  ~ NoDup (Chatbot.extractKeywords (js "water water"))
  /\ ~ NoDup (Assistant.extractKeywords (js "water water")).
Proof.
  assert (E1 : Chatbot.extractKeywords (js "water water")
               = [js "water"; js "water"]) by reflexivity.
  assert (E2 : Assistant.extractKeywords (js "water water")
               = [js "water"; js "water"]) by reflexivity.
  rewrite E1, E2.
  split; intros Hn; inversion Hn as [|? ? Hin _]; apply Hin; now left.
Qed.

(** ** Search *)

(** C7.  When the query yields no keyword, [searchKnowledge] returns the
    empty array, whatever the knowledge base and [topK]; so it does for the
    empty query, for a query of ASCII punctuation, and for a query whose
    words are all stop-words or at most 2 units long.  Both variants. *)
Theorem searchKnowledge_no_keywords `{CaseMapping}
    (kb : list Chatbot.Item) (kb' : list Assistant.Item) (topK : nat) :
  (forall q, Chatbot.extractKeywords q = [] ->
             Chatbot.searchKnowledge kb q topK = [])
  /\ (forall q, Assistant.extractKeywords q = [] ->
                Assistant.searchKnowledge kb' q topK = [])
  /\ (Chatbot.searchKnowledge kb [] topK = []
      /\ Assistant.searchKnowledge kb' [] topK = [])
  /\ (forall q, Forall (fun c => isPunctuation c = true) q ->
                Chatbot.searchKnowledge kb q topK = []
                /\ Assistant.searchKnowledge kb' q topK = [])
  /\ (forall q,
        Forall (fun w => length w <= 2 \/ In w Chatbot.stopWords) (words q) ->
        Chatbot.searchKnowledge kb q topK = [])
  /\ (forall q,
        Forall (fun w => length w <= 2 \/ In w Assistant.stop) (words q) ->
        Assistant.searchKnowledge kb' q topK = []).
Proof.
  assert (B : forall q, Chatbot.extractKeywords q = [] ->
                        Chatbot.searchKnowledge kb q topK = []).
  { intros q Hq. unfold Chatbot.searchKnowledge. now rewrite Hq. }
  assert (A : forall q, Assistant.extractKeywords q = [] ->
                        Assistant.searchKnowledge kb' q topK = []).
  { intros q Hq. unfold Assistant.searchKnowledge. now rewrite Hq. }
  repeat split; auto.
  - apply B, Chatbot_extractKeywords_nil.
  - apply A, Assistant_extractKeywords_nil.
  - now apply B, Chatbot_extractKeywords_punctuation.
  - now apply A, Assistant_extractKeywords_punctuation.
  - intros q Hq. now apply B, Chatbot_extractKeywords_stop.
  - intros q Hq. now apply A, Assistant_extractKeywords_stop.
Qed.

(** C2.  [searchKnowledge] returns at most [topK] results, in order of
    non-increasing score, each above the floor of its variant (0, and 2 in
    the higher-fidelity one); and for every score [v] the returned chunks of
    score [v] are, in their order, the first chunks of score [v] of the
    knowledge base: ties keep the order of the index. *)
Theorem searchKnowledge_ranked `{CaseMapping} (q : jsstring) (topK : nat) :
  (forall kb : list Chatbot.Item,
     let r := Chatbot.searchKnowledge kb q topK in
     let scored := map (Chatbot.scoreItem q (Chatbot.extractKeywords q)) kb in
     length r <= topK
     /\ StronglySorted
          (fun a b => (Chatbot.score b <= Chatbot.score a)%Z) r
     /\ Forall (fun s => (0 < Chatbot.score s)%Z) r
     /\ forall v, exists rest,
          filter (fun s => (Chatbot.score s =? v)%Z) scored
          = filter (fun s => (Chatbot.score s =? v)%Z) r ++ rest)
  /\ (forall kb : list Assistant.Item,
        let r := Assistant.searchKnowledge kb q topK in
        let scored :=
          map (Assistant.scoreItem q (Assistant.extractKeywords q)) kb in
        length r <= topK
        /\ StronglySorted
             (fun a b => (Assistant.score b <= Assistant.score a)%Z) r
        /\ Forall (fun s => (2 < Assistant.score s)%Z) r
        /\ forall v, exists rest,
             filter (fun s => (Assistant.score s =? v)%Z) scored
             = filter (fun s => (Assistant.score s =? v)%Z) r ++ rest).
Proof.
  split; intros kb r scored; subst r scored.
  - unfold Chatbot.searchKnowledge.
    destruct (length (Chatbot.extractKeywords q) =? 0).
    + repeat split; [simpl; lia | constructor | constructor |].
      intros v. eexists. reflexivity.
    + exact (ranked_spec Chatbot.score 0 topK _).
  - unfold Assistant.searchKnowledge.
    destruct (length (Assistant.extractKeywords q) =? 0).
    + repeat split; [simpl; lia | constructor | constructor |].
      intros v. eexists. reflexivity.
    + exact (ranked_spec Assistant.score 2 topK _).
Qed.

(** ** The parts of a score *)

Lemma sumZ_nonneg (l : list Z) : Forall (fun z => (0 <= z)%Z) l -> (0 <= sumZ l)%Z.
Proof. induction 1; simpl; lia. Qed.

(** A list whose every element occurs at least as often in another one is
    that other one with some elements taken out. *)
Lemma count_occ_le_sum (f : jsstring -> Z) (l1 l2 : list jsstring) :
  (forall k, (0 <= f k)%Z) ->
  (forall k, count_occ jsstring_eq_dec l1 k <= count_occ jsstring_eq_dec l2 k) ->
  (sumZ (map f l1) <= sumZ (map f l2))%Z.
Proof.
  intros Hf. revert l2. induction l1 as [|x l1 IH]; intros l2 Hc.
  - simpl. apply sumZ_nonneg, Forall_map, Forall_forall. intros; apply Hf.
  - assert (Hx : In x l2).
    { apply (count_occ_In jsstring_eq_dec). specialize (Hc x).
      rewrite count_occ_cons_eq in Hc by reflexivity. lia. }
    apply in_split in Hx. destruct Hx as (a & b & ->).
    rewrite map_app. simpl.
    assert (Hsum : forall u v, sumZ (u ++ v) = (sumZ u + sumZ v)%Z).
    { intros u v. induction u; simpl; lia. }
    rewrite Hsum. simpl.
    specialize (IH (a ++ b)).
    rewrite map_app, Hsum in IH.
    assert (Hc' : forall k, count_occ jsstring_eq_dec l1 k
                            <= count_occ jsstring_eq_dec (a ++ b) k).
    { intros k. specialize (Hc k).
      rewrite count_occ_app in *. simpl in Hc.
      destruct (jsstring_eq_dec x k); lia. }
    specialize (IH Hc'). lia.
Qed.

Lemma count_occ_le_length (l1 l2 : list jsstring) :
  (forall k, count_occ jsstring_eq_dec l1 k <= count_occ jsstring_eq_dec l2 k) ->
  length l1 <= length l2.
Proof.
  intros Hc.
  pose proof (@count_occ_le_sum (fun _ => 1%Z) l1 l2
                ltac:(intros; lia) Hc) as Hs.
  assert (Hlen : forall l : list jsstring,
            sumZ (map (fun _ => 1%Z) l) = Z.of_nat (length l)).
  { induction l as [|a l IHl]; [reflexivity|].
    cbn [map sumZ fold_right length].
    change (fold_right Z.add 0%Z (map (fun _ => 1%Z) l))
      with (sumZ (map (fun _ : jsstring => 1%Z) l)).
    rewrite IHl. lia. }
  rewrite !Hlen in Hs. lia.
Qed.

Section ScoreParts.

Context `{CaseMapping}.

Lemma Chatbot_score_parts (q : jsstring) (kws : list jsstring)
    (it : Chatbot.Item) :
  Chatbot.score (Chatbot.scoreItem q kws it)
  = (ChatbotSpec.matchScore kws it
     + if ChatbotSpec.phraseMatch q it
       then 5 * Z.of_nat (length kws) else 0)%Z.
Proof.
  unfold Chatbot.scoreItem, ChatbotSpec.matchScore, ChatbotSpec.phraseMatch.
  simpl Chatbot.score.
  set (c := toLowerCase (Chatbot.content it)).
  set (t := toLowerCase (Chatbot.title it)).
  set (p := includes c (toLowerCase q)).
  assert (L2 : forall l s0,
    fold_left (fun score kw => if includes t kw then (score + 3)%Z else score)
      l s0
    = (s0 + sumZ (map (fun kw => if includes t kw then 3 else 0) l))%Z).
  { induction l as [|kw l IH]; intros s0; simpl; [lia|].
    rewrite IH. destruct (includes t kw); lia. }
  assert (L1 : forall l s0,
    fold_left
      (fun score kw =>
         let score := if arrayIncludes (Chatbot.keywords it) kw
                      then (score + 2)%Z else score in
         let score := if includes c kw then (score + 1)%Z else score in
         if p then (score + 5)%Z else score) l s0
    = (s0 + sumZ (map (fun kw =>
                         (if arrayIncludes (Chatbot.keywords it) kw
                          then 2 else 0)
                         + (if includes c kw then 1 else 0)) l)
       + if p then 5 * Z.of_nat (length l) else 0)%Z).
  { induction l as [|kw l IH]; intros s0.
    - simpl. destruct p; lia.
    - simpl fold_left. rewrite IH. simpl map. simpl sumZ. simpl length.
      destruct (arrayIncludes (Chatbot.keywords it) kw), (includes c kw), p;
        lia. }
  rewrite L2, L1. unfold ChatbotSpec.keywordWeight. fold c t.
  assert (S : forall l,
    (sumZ (map (fun kw =>
                  (if arrayIncludes (Chatbot.keywords it) kw then 2 else 0)
                  + (if includes c kw then 1 else 0)
                  + (if includes t kw then 3 else 0)) l)
     = sumZ (map (fun kw =>
                    (if arrayIncludes (Chatbot.keywords it) kw then 2 else 0)
                    + (if includes c kw then 1 else 0)) l)
       + sumZ (map (fun kw => if includes t kw then 3 else 0) l))%Z).
  { induction l as [|kw l IH]; simpl; lia. }
  rewrite S. lia.
Qed.

Lemma Assistant_score_parts (q : jsstring) (kws : list jsstring)
    (it : Assistant.Item) :
  Assistant.score (Assistant.scoreItem q kws it)
  = (AssistantSpec.matchScore kws it
     + if AssistantSpec.phraseMatch q it then 10 else 0)%Z.
Proof.
  unfold Assistant.scoreItem, AssistantSpec.matchScore,
    AssistantSpec.phraseMatch.
  simpl Assistant.score.
  set (c := toLowerCase (Assistant.content it)).
  set (t := toLowerCase (Assistant.title it)).
  assert (L : forall l s0,
    fold_left
      (fun score kw =>
         let score :=
           if match Assistant.keywords it with
              | Some ks => arrayIncludes ks kw
              | None => false
              end
           then (score + 3)%Z else score in
         let score := if includes c kw then (score + 2)%Z else score in
         if includes t kw then (score + 4)%Z else score) l s0
    = (s0 + sumZ (map (AssistantSpec.keywordWeight it) l))%Z).
  { induction l as [|kw l IH]; intros s0; [simpl; lia|].
    simpl fold_left. rewrite IH. simpl map. simpl sumZ.
    unfold AssistantSpec.keywordWeight at 2. fold c t.
    destruct (match Assistant.keywords it with
              | Some ks => arrayIncludes ks kw
              | None => false
              end), (includes c kw), (includes t kw); lia. }
  rewrite L. destruct (includes c (toLowerCase q)); lia.
Qed.

Lemma Chatbot_keywordWeight_nonneg (it : Chatbot.Item) (kw : jsstring) :
  (0 <= ChatbotSpec.keywordWeight it kw)%Z.
Proof.
  unfold ChatbotSpec.keywordWeight.
  destruct (arrayIncludes _ _), (includes _ _), (includes _ _); lia.
Qed.

Lemma Assistant_keywordWeight_nonneg (it : Assistant.Item) (kw : jsstring) :
  (0 <= AssistantSpec.keywordWeight it kw)%Z.
Proof.
  unfold AssistantSpec.keywordWeight.
  destruct (match Assistant.keywords it with
            | Some ks => arrayIncludes ks kw
            | None => false
            end), (includes _ _), (includes _ _); lia.
Qed.

End ScoreParts.

(** C1, on the base variant.  [searchKnowledge] of portal/js/chatbot.js tests
    the exact phrase inside the loop over the query keywords, so the bonus of
    5 is added once per keyword: a chunk that holds the query gets
    [5 * length keywords] on top of its keyword and title matches.  For the
    query ["water cycle"], of two keywords, the sample chunk scores 6 for its
    matches and 16 in all.  The higher-fidelity variant adds its bonus of 10
    once, after the loop: there the sample chunk scores 10 for its matches
    and 20 in all. *)
Theorem Chatbot_phrase_bonus_per_keyword :
  (forall `{CaseMapping} (q : jsstring) (it : Chatbot.Item),
     let kws := Chatbot.extractKeywords q in
     Chatbot.score (Chatbot.scoreItem q kws it)
     = (ChatbotSpec.matchScore kws it
        + if ChatbotSpec.phraseMatch q it
          then 5 * Z.of_nat (length kws) else 0)%Z)
  /\ (forall `{CaseMapping} (q : jsstring) (it : Assistant.Item),
        let kws := Assistant.extractKeywords q in
        Assistant.score (Assistant.scoreItem q kws it)
        = (AssistantSpec.matchScore kws it
           + if AssistantSpec.phraseMatch q it then 10 else 0)%Z)
  /\ (let q := js "water cycle" in
      let kws := Chatbot.extractKeywords q in
      kws = [js "water"; js "cycle"]
      /\ ChatbotSpec.phraseMatch q Samples.waterChunk = true
      /\ ChatbotSpec.matchScore kws Samples.waterChunk = 6%Z
      /\ map Chatbot.score (Chatbot.searchKnowledge [Samples.waterChunk] q 3)
         = [16%Z])
  /\ (let q := js "water cycle" in
      let kws := Assistant.extractKeywords q in
      AssistantSpec.matchScore kws Samples.waterEntry = 10%Z
      /\ map Assistant.score
           (Assistant.searchKnowledge [Samples.waterEntry] q 5)
         = [20%Z]).
Proof.
  split; [|split; [|split]].
  - intros H q it kws. apply Chatbot_score_parts.
  - intros H q it kws. apply Assistant_score_parts.
  - vm_compute. repeat split.
  - vm_compute. repeat split.
Qed.



(** C3, as the claim states it, fails.  ["cycle water"] has the keywords of
    ["water cycle"], the sample chunk matches them all, and its score drops
    (from 16 to 6, and from 20 to 10) because the exact phrase is gone. *)
Lemma scoring_not_monotone :
  let q1 := js "water cycle" in
  let q2 := js "cycle water" in
  (incl (Chatbot.extractKeywords q1) (Chatbot.extractKeywords q2)
   /\ Forall (fun kw =>
                arrayIncludes (Chatbot.keywords Samples.waterChunk) kw = true)
        (Chatbot.extractKeywords q1)
   /\ (Chatbot.score
         (Chatbot.scoreItem q2 (Chatbot.extractKeywords q2) Samples.waterChunk)
       < Chatbot.score
           (Chatbot.scoreItem q1 (Chatbot.extractKeywords q1)
              Samples.waterChunk))%Z)
  /\ (incl (Assistant.extractKeywords q1) (Assistant.extractKeywords q2)
      /\ Forall (fun kw =>
                   match Assistant.keywords Samples.waterEntry with
                   | Some ks => arrayIncludes ks kw = true
                   | None => False
                   end)
           (Assistant.extractKeywords q1)
      /\ (Assistant.score
            (Assistant.scoreItem q2 (Assistant.extractKeywords q2)
               Samples.waterEntry)
          < Assistant.score
              (Assistant.scoreItem q1 (Assistant.extractKeywords q1)
                 Samples.waterEntry))%Z).
Proof.
  assert (E1 : Chatbot.extractKeywords (js "water cycle")
               = [js "water"; js "cycle"]) by reflexivity.
  assert (E2 : Chatbot.extractKeywords (js "cycle water")
               = [js "cycle"; js "water"]) by reflexivity.
  assert (E3 : Assistant.extractKeywords (js "water cycle")
               = [js "water"; js "cycle"]) by reflexivity.
  assert (E4 : Assistant.extractKeywords (js "cycle water")
               = [js "cycle"; js "water"]) by reflexivity.
  cbv zeta. rewrite E1, E2, E3, E4.
  split; (split; [|split]).
  - intros x [<-|[<-|[]]]; simpl; auto.
  - repeat constructor.
  - vm_compute. reflexivity.
  - intros x [<-|[<-|[]]]; simpl; auto.
  - repeat constructor.
  - vm_compute. reflexivity.
Qed.

(** C3, as the code has it.  When every keyword occurs in the second query's
    keyword list at least as often as in the first's, and the chunk holds the
    second query's string whenever it holds the first's, the chunk's score
    under the second query is not lower than under the first.  Both
    variants, and whatever the chunk matched. *)
Theorem scoring_monotone `{CaseMapping} (q1 q2 : jsstring) :
  (forall it : Chatbot.Item,
     (forall kw,
        count_occ jsstring_eq_dec (Chatbot.extractKeywords q1) kw
        <= count_occ jsstring_eq_dec (Chatbot.extractKeywords q2) kw) ->
     (ChatbotSpec.phraseMatch q1 it = true ->
      ChatbotSpec.phraseMatch q2 it = true) ->
     (Chatbot.score (Chatbot.scoreItem q1 (Chatbot.extractKeywords q1) it)
      <= Chatbot.score (Chatbot.scoreItem q2 (Chatbot.extractKeywords q2) it))%Z)
  /\ (forall it : Assistant.Item,
        (forall kw,
           count_occ jsstring_eq_dec (Assistant.extractKeywords q1) kw
           <= count_occ jsstring_eq_dec (Assistant.extractKeywords q2) kw) ->
        (AssistantSpec.phraseMatch q1 it = true ->
         AssistantSpec.phraseMatch q2 it = true) ->
        (Assistant.score
           (Assistant.scoreItem q1 (Assistant.extractKeywords q1) it)
         <= Assistant.score
              (Assistant.scoreItem q2 (Assistant.extractKeywords q2) it))%Z).
Proof.
  split; intros it Hc Hp.
  - rewrite !Chatbot_score_parts. unfold ChatbotSpec.matchScore.
    pose proof (@count_occ_le_sum (ChatbotSpec.keywordWeight it) _ _
                  (Chatbot_keywordWeight_nonneg it) Hc) as Hs.
    pose proof (@count_occ_le_length _ _ Hc) as Hl.
    destruct (ChatbotSpec.phraseMatch q1 it).
    + rewrite (Hp eq_refl). lia.
    + destruct (ChatbotSpec.phraseMatch q2 it); lia.
  - rewrite !Assistant_score_parts. unfold AssistantSpec.matchScore.
    pose proof (@count_occ_le_sum (AssistantSpec.keywordWeight it) _ _
                  (Assistant_keywordWeight_nonneg it) Hc) as Hs.
    destruct (AssistantSpec.phraseMatch q1 it).
    + rewrite (Hp eq_refl). lia.
    + destruct (AssistantSpec.phraseMatch q2 it); lia.
Qed.

(** ** Chunking *)

Lemma join_snoc (sep : jsstring) (g : list jsstring) (s : jsstring) :
  g <> [] -> join sep (g ++ [s]) = join sep g ++ sep ++ s.
Proof.
  induction g as [|x g IH]; [congruence|]. intros _.
  destruct g as [|y g]; [reflexivity|].
  change (join sep ((x :: y :: g) ++ [s]))
    with (x ++ sep ++ join sep ((y :: g) ++ [s])).
  rewrite IH by discriminate.
  change (join sep (x :: y :: g)) with (x ++ sep ++ join sep (y :: g)).
  now rewrite <- !app_assoc.
Qed.

Lemma trim_space_cons (s : jsstring) : trim (space :: s) = trim s.
Proof. reflexivity. Qed.

Section ChunkLoop.

Variable chunkSize : Z.

(** What the loop keeps true: the sentences read so far are cut into the
    groups of the finished chunks and the group of the running buffer. *)
Let inv (read : list jsstring) (st : list jsstring * jsstring) : Prop :=
  exists groups g,
    concat groups ++ g = read
    /\ Forall (fun g => g <> []) groups
    /\ map renderGroup groups = fst st
    /\ (snd st = join [space] g \/ (g <> [] /\ snd st = space :: join [space] g))
    /\ (g = [] -> read = []).

Lemma chunkStep_inv (read : list jsstring) (st : list jsstring * jsstring)
    (s : jsstring) :
  inv read st -> inv (read ++ [s]) (chunkStep chunkSize st s).
Proof.
  intros (groups & g & Hread & Hne & Hchunks & Hcur & Hg).
  destruct st as [chunks cur]. simpl in Hchunks, Hcur. unfold chunkStep.
  destruct ((Z.of_nat (length (cur ++ s)) >? chunkSize)%Z
            && (0 <? length cur)) eqn:Hcond.
  - apply andb_true_iff in Hcond. destruct Hcond as [_ Hlen].
    apply Nat.ltb_lt in Hlen.
    assert (Hgne : g <> []).
    { intros ->. destruct Hcur as [->|[Hc _]]; [simpl in Hlen; lia|congruence]. }
    exists (groups ++ [g]), [s]. simpl fst. simpl snd.
    split; [|split; [|split; [|split]]].
    + rewrite concat_app. simpl. rewrite app_nil_r, Hread. reflexivity.
    + apply Forall_app. split; [exact Hne | now constructor].
    + rewrite map_app, Hchunks. simpl. f_equal. f_equal. unfold renderGroup.
      destruct Hcur as [->|[_ ->]]; [reflexivity | now rewrite trim_space_cons].
    + now left.
    + discriminate.
  - exists groups, (g ++ [s]). simpl fst. simpl snd.
    split; [|split; [|split; [|split]]].
    + now rewrite app_assoc, Hread.
    + exact Hne.
    + exact Hchunks.
    + destruct g as [|x g].
      * right. split; [discriminate|].
        destruct Hcur as [->|[Hc _]]; [reflexivity | congruence].
      * rewrite join_snoc by discriminate.
        destruct Hcur as [->|[_ ->]]; [now left|].
        right. split; [discriminate | reflexivity].
    + intros E. now apply app_eq_nil in E.
Qed.

Lemma chunkLoop_inv (sentences read : list jsstring)
    (st : list jsstring * jsstring) :
  inv read st ->
  inv (read ++ sentences) (fold_left (chunkStep chunkSize) sentences st).
Proof.
  revert read st. induction sentences as [|s sentences IH]; intros read st Hi.
  - simpl. now rewrite app_nil_r.
  - simpl. replace (read ++ s :: sentences) with ((read ++ [s]) ++ sentences)
      by now rewrite <- app_assoc.
    apply IH. now apply chunkStep_inv.
Qed.

(** The chunks are the renderings of consecutive groups of the sentences; a
    last group that is blank makes no chunk. *)
Lemma chunkSentences_groups (sentences : list jsstring) :
  exists groups,
    concat groups = sentences
    /\ Forall (fun g => g <> []) groups
    /\ (map renderGroup groups = chunkSentences sentences chunkSize
        \/ map renderGroup groups
           = chunkSentences sentences chunkSize ++ [[]]).
Proof.
  assert (H0 : inv [] ([], [])).
  { exists [], []. simpl. repeat split; auto. }
  pose proof (chunkLoop_inv sentences H0) as Hi. simpl app in Hi.
  unfold chunkSentences.
  destruct (fold_left (chunkStep chunkSize) sentences ([], []))
    as [chunks cur].
  destruct Hi as (groups & g & Hread & Hne & Hchunks & Hcur & Hg).
  simpl in Hchunks, Hcur.
  assert (Hr : renderGroup g = trim cur).
  { unfold renderGroup.
    destruct Hcur as [->|[_ ->]]; [reflexivity | now rewrite trim_space_cons]. }
  destruct g as [|x g].
  - exists []. rewrite (Hg eq_refl) in *.
    assert (groups = []) as ->.
    { destruct groups as [|g0 groups]; [reflexivity|].
      inversion Hne; subst. destruct g0; [congruence | discriminate]. }
    simpl in Hchunks. subst chunks.
    destruct Hcur as [->|[Hc _]]; [|congruence].
    split; [reflexivity|]. split; [constructor|]. now left.
  - exists (groups ++ [x :: g]).
    split; [rewrite concat_app; simpl; now rewrite app_nil_r|].
    split; [apply Forall_app; split; [exact Hne|]; constructor;
            [discriminate | constructor]|].
    rewrite map_app, Hchunks. simpl map. rewrite Hr.
    destruct (trim cur); [now right | now left].
Qed.

End ChunkLoop.

(** ** The words of a text *)

Lemma wordsOf_app_ws (a b : jsstring) (c : N) :
  isWhiteSpace c = true -> wordsOf (a ++ c :: b) = wordsOf a ++ wordsOf b.
Proof. intros Hc. now apply split_app_sep. Qed.

Lemma wordsOf_cons_ws (c : N) (s : jsstring) :
  isWhiteSpace c = true -> wordsOf (c :: s) = wordsOf s.
Proof. intros Hc. exact (wordsOf_app_ws [] s c Hc). Qed.

Lemma wordsOf_snoc_ws (c : N) (s : jsstring) :
  isWhiteSpace c = true -> wordsOf (s ++ [c]) = wordsOf s.
Proof.
  intros Hc. rewrite (wordsOf_app_ws s [] c Hc). apply app_nil_r.
Qed.

Lemma wordsOf_trimStart (s : jsstring) : wordsOf (trimStart s) = wordsOf s.
Proof.
  induction s as [|c s IH]; simpl; [reflexivity|].
  destruct (isWhiteSpace c) eqn:Hc; [|reflexivity].
  now rewrite IH, wordsOf_cons_ws.
Qed.

Lemma wordsOf_trimEnd (s : jsstring) : wordsOf (trimEnd s) = wordsOf s.
Proof.
  unfold trimEnd. rewrite <- (rev_involutive s) at 2.
  induction (rev s) as [|c r IH]; simpl; [reflexivity|].
  destruct (isWhiteSpace c) eqn:Hc; [|reflexivity].
  now rewrite IH, wordsOf_snoc_ws.
Qed.

Lemma wordsOf_trim (s : jsstring) : wordsOf (trim s) = wordsOf s.
Proof. unfold trim. now rewrite wordsOf_trimEnd, wordsOf_trimStart. Qed.

Lemma wordsOf_join (l : list jsstring) :
  wordsOf (join [space] l) = concat (map wordsOf l).
Proof.
  induction l as [|x l IH]; [reflexivity|].
  destruct l as [|y l].
  - simpl. now rewrite app_nil_r.
  - change (join [space] (x :: y :: l))
      with (x ++ space :: join [space] (y :: l)).
    rewrite wordsOf_app_ws by reflexivity. now rewrite IH.
Qed.

Lemma wordsOf_groups (groups : list (list jsstring)) :
  wordsOf (join [space] (map renderGroup groups))
  = wordsOf (join [space] (concat groups)).
Proof.
  rewrite !wordsOf_join.
  induction groups as [|g groups IH]; [reflexivity|].
  simpl. rewrite map_app, concat_app, IH. f_equal.
  unfold renderGroup. now rewrite wordsOf_trim, wordsOf_join.
Qed.

Lemma chunkSentences_words (sentences : list jsstring) (chunkSize : Z) :
  wordsOf (join [space] (chunkSentences sentences chunkSize))
  = wordsOf (join [space] sentences).
Proof.
  destruct (chunkSentences_groups chunkSize sentences)
    as (groups & Hc & _ & [Hr|Hr]).
  - subst sentences. now rewrite <- Hr, wordsOf_groups.
  - subst sentences. rewrite <- wordsOf_groups, Hr, !wordsOf_join.
    rewrite map_app, concat_app. simpl. now rewrite app_nil_r.
Qed.

(** C5.  The chunks of a text are its sentences, all of them, once each and
    in order, cut into consecutive groups: each chunk is a group put together
    with single spaces and trimmed, and only a last group that is blank is
    left without a chunk.  So the chunks put together have the words of the
    sentences put together.  For every chunk size, in both variants. *)
Theorem splitIntoChunks_keeps_sentences (T : jsstring) (S : Z) :
  ((exists groups,
      concat groups = split Chatbot.sentenceEnd T
      /\ Forall (fun g => g <> []) groups
      /\ (map renderGroup groups = Chatbot.splitIntoChunks T S
          \/ map renderGroup groups = Chatbot.splitIntoChunks T S ++ [[]]))
   /\ wordsOf (join [space] (Chatbot.splitIntoChunks T S))
      = wordsOf (join [space] (split Chatbot.sentenceEnd T)))
  /\ ((exists groups,
         concat groups = split Assistant.sentenceEnd T
         /\ Forall (fun g => g <> []) groups
         /\ (map renderGroup groups = Assistant.splitText T S
             \/ map renderGroup groups = Assistant.splitText T S ++ [[]]))
      /\ wordsOf (join [space] (Assistant.splitText T S))
         = wordsOf (join [space] (split Assistant.sentenceEnd T))).
Proof.
  unfold Chatbot.splitIntoChunks, Assistant.splitText.
  split; (split; [apply chunkSentences_groups | apply chunkSentences_words]).
Qed.

(** C6, on inputs that break it.  The loop measures the buffer and the
    sentence without the space it then puts between them, so a chunk of two
    sentences can be one unit longer than the chunk size.  With the sizes the
    index builders pass, 500 and 600, a text of three sentences of 300, 250
    and 250 letters (400, 300 and 300) gives a second chunk of two sentences
    and 501 (601) units; with size 6 the text ["aaa.bbb.ccc"] gives
    ["bbb ccc"], of 7 units. *)
Theorem splitIntoChunks_overflow :
  (let T := Samples.dense 300 250 250 in
   split Chatbot.sentenceEnd T
   = [repeat 97%N 300; repeat 98%N 250; repeat 99%N 250]
   /\ Chatbot.splitIntoChunks T 500
      = [repeat 97%N 300; renderGroup [repeat 98%N 250; repeat 99%N 250]]
   /\ length (renderGroup [repeat 98%N 250; repeat 99%N 250]) = 501)
  /\ (let T := Samples.dense 400 300 300 in
      split Assistant.sentenceEnd T
      = [repeat 97%N 400; repeat 98%N 300; repeat 99%N 300]
      /\ Assistant.splitText T 600
         = [repeat 97%N 400; renderGroup [repeat 98%N 300; repeat 99%N 300]]
      /\ length (renderGroup [repeat 98%N 300; repeat 99%N 300]) = 601)
  /\ (let T := js "aaa.bbb.ccc" in
      split Chatbot.sentenceEnd T = [js "aaa"; js "bbb"; js "ccc"]
      /\ Chatbot.splitIntoChunks T 6 = [js "aaa"; js "bbb ccc"]
      /\ Assistant.splitText T 6 = [js "aaa"; js "bbb ccc"]
      /\ js "bbb ccc" = renderGroup [js "bbb"; js "ccc"]
      /\ length (js "bbb ccc") = 7).
Proof. vm_compute. repeat split. Qed.

(** ** Answer synthesis *)

Lemma trimStart_solid (s : jsstring) : trimStart s = [] \/ startsSolid (trimStart s).
Proof.
  induction s as [|c s IH]; simpl; [now left|].
  destruct (isWhiteSpace c) eqn:Hc; [exact IH|].
  right. now exists c, s.
Qed.

Lemma trimStart_snoc_solid (r : jsstring) (c : N) :
  isWhiteSpace c = false -> exists u, trimStart (r ++ [c]) = u ++ [c].
Proof.
  intros Hc. induction r as [|d r IH]; simpl.
  - rewrite Hc. now exists [].
  - destruct (isWhiteSpace d); [exact IH|]. now exists (d :: r).
Qed.

Lemma trimEnd_solid (s : jsstring) : startsSolid s -> startsSolid (trimEnd s).
Proof.
  intros (c & r & -> & Hc). unfold trimEnd. simpl rev.
  destruct (rev r) as [|d r'] eqn:Er.
  - simpl. rewrite Hc. simpl. now exists c, [].
  - assert (Hlast : exists a t, rev r ++ [c] = a :: t ++ [c]).
    { rewrite Er. now exists d, r'. }
    destruct Hlast as (a & t & Hlast). rewrite <- Er, Hlast.
    simpl. destruct (isWhiteSpace a).
    + destruct (@trimStart_snoc_solid t c Hc) as [u ->].
      rewrite rev_app_distr. simpl. now exists c, (rev u).
    + change (a :: t ++ [c]) with ((a :: t) ++ [c]).
      rewrite rev_app_distr. simpl. now eexists c, _.
Qed.

Lemma trim_solid (s : jsstring) : startsSolid s -> startsSolid (trim s).
Proof.
  intros Hs. unfold trim. apply trimEnd_solid.
  destruct Hs as (c & r & -> & Hc). simpl. rewrite Hc. now exists c, r.
Qed.

Lemma trim_nil_or_solid (s : jsstring) : trim s = [] \/ startsSolid (trim s).
Proof.
  unfold trim. destruct (trimStart_solid s) as [->|Hs].
  - now left.
  - right. now apply trimEnd_solid.
Qed.

Lemma join_solid (sep x : jsstring) (rest : list jsstring) :
  startsSolid x -> startsSolid (join sep (x :: rest)).
Proof.
  intros (c & r & -> & Hc). destruct rest as [|y rest].
  - now exists c, r.
  - change (join sep ((c :: r) :: y :: rest))
      with (c :: (r ++ sep ++ join sep (y :: rest))).
    now eexists c, _.
Qed.

Lemma collapseSpaces_solid (s : jsstring) :
  startsSolid s -> startsSolid (collapseSpaces s).
Proof.
  intros (c & r & -> & Hc). simpl. rewrite Hc. now eexists c, _.
Qed.

Lemma startsSolid_not_nil (s : jsstring) : startsSolid s -> s <> [].
Proof. intros (c & r & -> & _). discriminate. Qed.

Lemma finishAnswer_not_nil (s : jsstring) :
  startsSolid s -> finishAnswer s <> [].
Proof.
  intros Hs. unfold finishAnswer.
  pose proof (@startsSolid_not_nil _ (@trim_solid _ (@collapseSpaces_solid _ Hs))) as Hn.
  destruct (Assistant.isTerminal _); [exact Hn|].
  intros E. apply app_eq_nil in E. destruct E as [_ E]. discriminate.
Qed.

(** The sentences kept by the higher-fidelity variant are trimmed and more
    than 20 units long. *)
Lemma sentencesOf_solid (combinedContent s : jsstring) :
  In s (Assistant.sentencesOf combinedContent) -> startsSolid s.
Proof.
  unfold Assistant.sentencesOf. intros Hs.
  apply filter_In in Hs. destruct Hs as [Hs Hlen].
  apply in_map_iff in Hs. destruct Hs as (s0 & <- & _).
  destruct (trim_nil_or_solid s0) as [E|Hsolid]; [|exact Hsolid].
  rewrite E in Hlen. discriminate.
Qed.

Section Synthesis.

Context `{CaseMapping}.

(** The sentences picked as relevant are sentences of the combined content. *)
Lemma relevant_incl (queryLower : jsstring) (kws sentences : list jsstring)
    (x : jsstring) :
  In x (map fst
          (slice0 4
             (sortBy (fun a b => (snd b - snd a)%Z)
                (filter (fun s => (snd s >? 1)%Z)
                   (map (Assistant.scoreSentence queryLower kws) sentences))))) ->
  In x sentences.
Proof.
  intros Hx. apply in_map_iff in Hx. destruct Hx as ([s z] & <- & Hx).
  apply slice0_incl in Hx.
  apply (Permutation_in _ (@sortBy_perm _ snd _)) in Hx.
  apply filter_In in Hx. destruct Hx as [Hx _].
  apply in_map_iff in Hx. destruct Hx as (s' & E & Hs').
  unfold Assistant.scoreSentence in E. injection E as <- _. exact Hs'.
Qed.

Lemma Assistant_generateAnswer_cases (query : jsstring)
    (first : Assistant.Scored) (rest : list Assistant.Scored) :
  let contexts := first :: rest in
  let sentences := Assistant.sentencesOf (fst (Assistant.combine contexts)) in
  let relevant :=
    map fst
      (slice0 4
         (sortBy (fun a b => (snd b - snd a)%Z)
            (filter (fun s => (snd s >? 1)%Z)
               (map (Assistant.scoreSentence (toLowerCase query)
                       (Assistant.extractKeywords query)) sentences)))) in
  (sentences = [] /\ Assistant.generateAnswer query contexts = None)
  \/ (sentences <> []
      /\ exists answer source,
           startsSolid answer
           /\ answer = trim (join (js ". ")
                               (match relevant with
                                | [] => slice0 3 sentences
                                | _ :: _ => relevant
                                end))
           /\ Assistant.generateAnswer query contexts
              = Some {| Assistant.text := finishAnswer answer;
                        Assistant.source := source;
                        Assistant.answerCategory :=
                          Assistant.category (Assistant.item first);
                        Assistant.answerScore := Assistant.score first |}).
Proof.
  intros contexts sentences relevant.
  unfold Assistant.generateAnswer. fold contexts.
  destruct (Assistant.combine contexts) as [combinedContent sources] eqn:Ec.
  simpl fst in sentences. fold sentences. fold relevant.
  assert (Hsolid : forall x, In x sentences -> startsSolid x)
    by (intros x; apply sentencesOf_solid).
  assert (Hrel : forall x, In x relevant -> In x sentences)
    by (intros x; apply relevant_incl).
  destruct relevant as [|x relevant'] eqn:Er.
  - simpl length. simpl Nat.ltb.
    destruct sentences as [|s sentences'] eqn:Es.
    + left. split; reflexivity.
    + right. split; [discriminate|].
      assert (Ha : startsSolid (trim (join (js ". ") (slice0 3 (s :: sentences'))))).
      { apply trim_solid. simpl slice0. apply join_solid.
        apply Hsolid. now left. }
      exists (trim (join (js ". ") (slice0 3 (s :: sentences')))),
        (join (js ", ") sources).
      split; [exact Ha|]. split; [reflexivity|].
      simpl length. simpl Nat.ltb. cbv iota.
      destruct Ha as (c & r & Ea & Hc). rewrite Ea. reflexivity.
  - right.
    assert (Hx : In x sentences) by (apply Hrel; now left).
    split; [intros E; rewrite E in Hx; destruct Hx|].
    assert (Ha : startsSolid (trim (join (js ". ") (x :: relevant')))).
    { apply trim_solid, join_solid, Hsolid, Hx. }
    exists (trim (join (js ". ") (x :: relevant'))), (join (js ", ") sources).
    split; [exact Ha|]. split; [reflexivity|].
    simpl length. simpl Nat.ltb. cbv iota.
    destruct Ha as (c & r & Ea & Hc). rewrite Ea. reflexivity.
Qed.

End Synthesis.

(** C4, as the claim states it, fails in the higher-fidelity variant.  The
    query ["water"] retrieves the sample chunk ["Water is wet."], whose only
    sentence is not longer than 20 units, and [generateAnswer] returns
    [null] for this non-empty result. *)
Lemma generateAnswer_none_nonempty :
  let contexts := Assistant.searchKnowledge [Samples.shortEntry] (js "water") 5 in
  contexts <> [] /\ Assistant.generateAnswer (js "water") contexts = None.
Proof.
  cbv zeta. split.
  - assert (E : length (Assistant.searchKnowledge [Samples.shortEntry]
                          (js "water") 5) = 1) by (vm_compute; reflexivity).
    intros E'. rewrite E' in E. discriminate.
  - vm_compute. reflexivity.
Qed.

(** C4, as the code has it.  The base variant returns [null] exactly for the
    empty context array.  The higher-fidelity variant returns [null] exactly
    when the context array is empty or the combined content of its first
    three contexts has no sentence whose trimmed length exceeds 20.  An answer
    that is returned is never the empty string; and when there are such
    sentences but none scores above 1, the answer is made of the first three
    of them, in their order. *)
Theorem generateAnswer_none_iff `{CaseMapping} (query : jsstring) :
  (forall contexts : list Chatbot.Scored,
     (Chatbot.generateAnswer query contexts = None <-> contexts = [])
     /\ (forall a, Chatbot.generateAnswer query contexts = Some a ->
                   Chatbot.answer a <> []))
  /\ (forall contexts : list Assistant.Scored,
        let sentences :=
          Assistant.sentencesOf (fst (Assistant.combine contexts)) in
        (Assistant.generateAnswer query contexts = None
         <-> contexts = [] \/ sentences = [])
        /\ (forall a, Assistant.generateAnswer query contexts = Some a ->
                      Assistant.text a <> [])
        /\ (contexts <> [] -> sentences <> [] ->
            Forall (fun s =>
                      (snd (Assistant.scoreSentence (toLowerCase query)
                              (Assistant.extractKeywords query) s) <= 1)%Z)
                   sentences ->
            exists a,
              Assistant.generateAnswer query contexts = Some a
              /\ Assistant.text a
                 = finishAnswer
                     (trim (join (js ". ") (slice0 3 sentences))))).
Proof.
  split.
  - intros contexts. split.
    + destruct contexts as [|c cs]; simpl; split; congruence.
    + intros a Ha. destruct contexts as [|c cs]; [discriminate|].
      unfold Chatbot.generateAnswer in Ha. injection Ha as <-.
      simpl Chatbot.answer.
      match goal with
      | |- (if endsWith ?x _ then _ else _) <> [] =>
          destruct (endsWith x 46%N) eqn:E; [destruct x; [discriminate E|discriminate]|]
      end.
      intros E'. apply app_eq_nil in E'. destruct E' as [_ E']. discriminate.
  - intros [|first rest] sentences.
    + split; [|split].
      * simpl. split; [now left | reflexivity].
      * discriminate.
      * congruence.
    + destruct (Assistant_generateAnswer_cases query first rest)
        as [[Hs Hg]|(Hs & answer & source & Hsolid & Ha & Hg)];
        fold sentences in Hs.
      * split; [|split].
        -- split; [now right | intros _; exact Hg].
        -- rewrite Hg. discriminate.
        -- congruence.
      * split; [|split].
        -- rewrite Hg. split; [discriminate|].
           intros [E|E]; [discriminate | congruence].
        -- intros a E. rewrite Hg in E. injection E as <-.
           simpl. now apply finishAnswer_not_nil.
        -- intros _ _ Hlow. eexists. split; [exact Hg|].
           simpl Assistant.text. f_equal. rewrite Ha.
           fold sentences.
           replace (filter (fun s => (snd s >? 1)%Z)
                      (map (Assistant.scoreSentence (toLowerCase query)
                              (Assistant.extractKeywords query)) sentences))
             with (@nil (jsstring * Z)); [reflexivity|].
           symmetry. apply filter_nil_iff, Forall_map.
           eapply Forall_impl; [|exact Hlow]. intros s Hle. cbv beta.
           rewrite Z.gtb_ltb. apply Z.ltb_ge. exact Hle.
Qed.

(** ** The remote ranking service *)



(** ** Instances of the properties on the sample data *)

(** C3 at the queries ["water"] and ["water cycle"] on the sample chunk. *)
Lemma scoring_monotone_witness :
  let q1 := js "water" in
  let q2 := js "water cycle" in
  (forall kw,
     count_occ jsstring_eq_dec (Chatbot.extractKeywords q1) kw
     <= count_occ jsstring_eq_dec (Chatbot.extractKeywords q2) kw)
  /\ (ChatbotSpec.phraseMatch q1 Samples.waterChunk = true ->
      ChatbotSpec.phraseMatch q2 Samples.waterChunk = true)
  /\ (Chatbot.score
        (Chatbot.scoreItem q1 (Chatbot.extractKeywords q1) Samples.waterChunk)
      <= Chatbot.score
           (Chatbot.scoreItem q2 (Chatbot.extractKeywords q2)
              Samples.waterChunk))%Z.
Proof.
  cbv zeta.
  assert (Hc : forall kw,
            count_occ jsstring_eq_dec (Chatbot.extractKeywords (js "water")) kw
            <= count_occ jsstring_eq_dec
                 (Chatbot.extractKeywords (js "water cycle")) kw).
  { change (Chatbot.extractKeywords (js "water")) with [js "water"].
    change (Chatbot.extractKeywords (js "water cycle"))
      with [js "water"; js "cycle"].
    intros kw. cbn [count_occ].
    destruct (jsstring_eq_dec (js "water") kw);
      destruct (jsstring_eq_dec (js "cycle") kw); lia. }
  assert (Hp : ChatbotSpec.phraseMatch (js "water") Samples.waterChunk = true ->
               ChatbotSpec.phraseMatch (js "water cycle") Samples.waterChunk
               = true).
  { intros _. vm_compute. reflexivity. }
  split; [exact Hc|]. split; [exact Hp|].
  exact (proj1 (@scoring_monotone asciiCase (js "water") (js "water cycle"))
           Samples.waterChunk Hc Hp).
Defined.

(** C4 at a query that no sentence of the context answers: the answer falls
    back to the first sentences. *)
Lemma generateAnswer_none_iff_witness :
  let query := js "photosynthesis" in
  let contexts := [{| Assistant.item := Samples.waterEntry;
                      Assistant.score := 5 |}] in
  let sentences := Assistant.sentencesOf (fst (Assistant.combine contexts)) in
  contexts <> []
  /\ sentences <> []
  /\ Forall (fun s =>
               (snd (Assistant.scoreSentence (toLowerCase query)
                       (Assistant.extractKeywords query) s) <= 1)%Z)
            sentences
  /\ exists a,
       Assistant.generateAnswer query contexts = Some a
       /\ Assistant.text a
          = finishAnswer (trim (join (js ". ") (slice0 3 sentences))).
Proof.
  cbv zeta.
  set (contexts := [{| Assistant.item := Samples.waterEntry;
                       Assistant.score := 5%Z |}]).
  assert (Es : Assistant.sentencesOf (fst (Assistant.combine contexts))
               = [js "The water cycle includes evaporation and condensation"])
    by (vm_compute; reflexivity).
  assert (H1 : contexts <> []) by discriminate.
  assert (H2 : Assistant.sentencesOf (fst (Assistant.combine contexts)) <> [])
    by (rewrite Es; discriminate).
  assert (H3 : Forall (fun s =>
                 (snd (Assistant.scoreSentence (toLowerCase (js "photosynthesis"))
                         (Assistant.extractKeywords (js "photosynthesis")) s)
                  <= 1)%Z)
                (Assistant.sentencesOf (fst (Assistant.combine contexts)))).
  { rewrite Es. constructor; [vm_compute; discriminate | constructor]. }
  split; [exact H1|]. split; [exact H2|]. split; [exact H3|].
  exact (proj2 (proj2 (proj2 (@generateAnswer_none_iff asciiCase
                                (js "photosynthesis")) contexts))
           H1 H2 H3).
Defined.

(** C7 at a query of punctuation and at a query of stop-words. *)
Lemma searchKnowledge_no_keywords_witness :
  Forall (fun c => isPunctuation c = true) (js "?!")
  /\ Chatbot.searchKnowledge [Samples.waterChunk] (js "?!") 3 = []
  /\ Assistant.searchKnowledge [Samples.waterEntry] (js "?!") 3 = []
  /\ Forall (fun w => length w <= 2 \/ In w Chatbot.stopWords)
       (words (js "what is it"))
  /\ Chatbot.searchKnowledge [Samples.waterChunk] (js "what is it") 3 = [].
Proof.
  pose proof (@searchKnowledge_no_keywords asciiCase
                [Samples.waterChunk] [Samples.waterEntry] 3)
    as (_ & _ & _ & Hp & Hs & _).
  assert (H1 : Forall (fun c => isPunctuation c = true) (js "?!"))
    by (repeat constructor).
  assert (H2 : Forall (fun w => length w <= 2 \/ In w Chatbot.stopWords)
                 (words (js "what is it"))).
  { change (words (js "what is it")) with [js "what"; js "is"; js "it"].
    repeat constructor; right; apply arrayIncludes_In; reflexivity. }
  split; [exact H1|].
  split; [exact (proj1 (Hp _ H1))|].
  split; [exact (proj2 (Hp _ H1))|].
  split; [exact H2|].
  exact (Hs _ H2).
Defined.

(** * Further properties of the engine *)

(** ** Keywords *)

Lemma isLowerAlnum_plain (c : N) :
  isLowerAlnum c = true ->
  isWhiteSpace c = false /\ isAscii c /\ lower_unit c = c.
Proof.
  unfold isLowerAlnum, isWhiteSpace, isAscii, lower_unit. intros Hc.
  destruct (N.leb_spec 97 c), (N.leb_spec c 122), (N.leb_spec 48 c),
    (N.leb_spec c 57); simpl in Hc; try discriminate;
    (split; [|split; [lia|]]);
    repeat match goal with
      | |- context [N.leb ?a ?b] => destruct (N.leb_spec a b); try lia
      | |- context [N.eqb ?a ?b] => destruct (N.eqb_spec a b); try lia
      end; reflexivity.
Qed.

Lemma map_fixed {A} (f : A -> A) (l : list A) :
  Forall (fun x => f x = x) l -> map f l = l.
Proof. induction 1; simpl; congruence. Qed.

Lemma split_no_sep (sep : N -> bool) (s : jsstring) :
  Forall (fun c => sep c = false) s -> split sep s = [s].
Proof.
  induction 1 as [|c s Hc _ IH]; [reflexivity|].
  simpl. now rewrite Hc, IH.
Qed.

(** Splitting what was joined with a separator gives the pieces back, when no
    piece holds a separator. *)
Lemma split_join (sep : N -> bool) (P : jsstring -> bool) (c : N)
    (l : list jsstring) :
  P [] = false -> sep c = true ->
  Forall (fun w => P w = true /\ Forall (fun u => sep u = false) w) l ->
  filter P (split sep (join [c] l)) = l.
Proof.
  intros HP Hc Hl. induction Hl as [|x l [Hx Hx'] Hl IH].
  - simpl. now rewrite HP.
  - destruct l as [|y l].
    + simpl join. rewrite (@split_no_sep sep x Hx'). simpl. now rewrite Hx.
    + change (join [c] (x :: y :: l)) with (x ++ c :: join [c] (y :: l)).
      rewrite (split_app_sep sep P x _ c HP Hc), IH.
      rewrite (@split_no_sep sep x Hx'). simpl. now rewrite Hx.
Qed.

Section KeywordFacts.

Context `{CaseMapping}.

(** Text made of lower-case letters, digits and blanks goes through the
    lower-casing and the blanking unchanged. *)
Lemma words_plain (s : jsstring) :
  Forall (fun c => isLowerAlnum c = true \/ c = space) s ->
  words s = split isWhiteSpace s.
Proof.
  intros Hs. unfold words.
  assert (Ha : Forall isAscii s).
  { eapply Forall_impl; [|exact Hs]. intros c [Hc| ->].
    - now apply isLowerAlnum_plain.
    - unfold isAscii, space. lia. }
  rewrite (@toLowerCase_ascii _ s Ha).
  rewrite map_fixed.
  - unfold blankNonAlnum. f_equal. apply map_fixed.
    eapply Forall_impl; [|exact Hs]. intros c [Hc| ->].
    + now rewrite Hc.
    + reflexivity.
  - eapply Forall_impl; [|exact Hs]. intros c [Hc| ->].
    + now apply isLowerAlnum_plain.
    + reflexivity.
Qed.

Lemma join_space_plain (l : list jsstring) :
  Forall (Forall (fun c => isLowerAlnum c = true)) l ->
  Forall (fun c => isLowerAlnum c = true \/ c = space) (join [space] l).
Proof.
  induction 1 as [|x l Hx Hl IH]; [constructor|].
  assert (Hx' : Forall (fun c => isLowerAlnum c = true \/ c = space) x).
  { eapply Forall_impl; [|exact Hx]. now left. }
  destruct l as [|y l]; [exact Hx'|].
  change (join [space] (x :: y :: l)) with (x ++ space :: join [space] (y :: l)).
  apply Forall_app. split; [exact Hx'|].
  constructor; [now right | exact IH].
Qed.

Lemma keywords_rejoin (P : jsstring -> bool) (text : jsstring) :
  P [] = false ->
  filter P (words (join [space] (filter P (words text))))
  = filter P (words text).
Proof.
  intros HP.
  assert (Hal : Forall (Forall (fun c => isLowerAlnum c = true))
                  (filter P (words text))).
  { apply Forall_forall. intros w Hw. apply filter_In in Hw.
    apply (words_alnum text w), Hw. }
  rewrite words_plain by (apply join_space_plain; exact Hal).
  apply split_join; [exact HP | reflexivity|].
  apply Forall_forall. intros w Hw. split.
  - apply filter_In in Hw. apply Hw.
  - rewrite Forall_forall in Hal. specialize (Hal w Hw).
    eapply Forall_impl; [|exact Hal]. intros c Hc.
    now apply isLowerAlnum_plain.
Qed.

End KeywordFacts.

(** X1.  Every keyword that [extractKeywords] returns is longer than 2 units,
    is made of the units [a-z0-9] only, and is not in the stop-word list of
    its variant. *)
Theorem extractKeywords_wellformed `{CaseMapping} (text : jsstring) :
  Forall (fun w => 2 < length w
                   /\ Forall (fun c => isLowerAlnum c = true) w
                   /\ ~ In w Chatbot.stopWords)
         (Chatbot.extractKeywords text)
  /\ Forall (fun w => 2 < length w
                      /\ Forall (fun c => isLowerAlnum c = true) w
                      /\ ~ In w Assistant.stop)
            (Assistant.extractKeywords text).
Proof.
  split; apply Forall_forall; intros w Hw; apply filter_In in Hw;
    destruct Hw as [Hw Hc]; apply andb_true_iff in Hc; destruct Hc as [Hl Hs];
    (split; [now apply Nat.ltb_lt | split; [now apply (words_alnum text)|]]);
    intros Hin; apply arrayIncludes_In in Hin; rewrite Hin in Hs;
    discriminate.
Qed.

(** X2.  Extracting keywords is stable: the keywords of the extracted
    keywords, joined by single spaces, are the extracted keywords again, in
    the same order. *)
Theorem extractKeywords_rejoin `{CaseMapping} (text : jsstring) :
  Chatbot.extractKeywords (join [space] (Chatbot.extractKeywords text))
  = Chatbot.extractKeywords text
  /\ Assistant.extractKeywords (join [space] (Assistant.extractKeywords text))
     = Assistant.extractKeywords text.
Proof.
  split; now apply keywords_rejoin.
Qed.

(** ** Trimming *)

Lemma trimStart_suffix (s : jsstring) : exists p, s = p ++ trimStart s.
Proof.
  induction s as [|c s [p IH]]; [now exists []|].
  simpl. destruct (isWhiteSpace c).
  - exists (c :: p). simpl. now rewrite <- IH.
  - now exists [].
Qed.

Lemma trimEnd_prefix (s : jsstring) : exists t, s = trimEnd s ++ t.
Proof.
  unfold trimEnd. destruct (trimStart_suffix (rev s)) as [p Hp].
  exists (rev p). rewrite <- rev_app_distr, <- Hp. now rewrite rev_involutive.
Qed.

Lemma trim_infix (s : jsstring) : exists p t, s = p ++ trim s ++ t.
Proof.
  unfold trim. destruct (trimStart_suffix s) as [p Hp].
  destruct (trimEnd_prefix (trimStart s)) as [t Ht].
  exists p, t. now rewrite <- Ht.
Qed.

Lemma trim_Forall (P : N -> Prop) (s : jsstring) :
  Forall P s -> Forall P (trim s).
Proof.
  intros Hs. destruct (trim_infix s) as (p & t & E). rewrite E in Hs.
  apply Forall_app in Hs. destruct Hs as [_ Hs].
  apply Forall_app in Hs. apply Hs.
Qed.

Lemma trim_length_le (s : jsstring) : length (trim s) <= length s.
Proof.
  destruct (trim_infix s) as (p & t & E). rewrite E at 2.
  rewrite !length_app. lia.
Qed.

Lemma trimStart_idem (s : jsstring) : trimStart (trimStart s) = trimStart s.
Proof.
  induction s as [|c s IH]; [reflexivity|].
  simpl. destruct (isWhiteSpace c) eqn:Hc; [exact IH|].
  simpl. now rewrite Hc.
Qed.

Lemma trimStart_solid_id (s : jsstring) : startsSolid s -> trimStart s = s.
Proof. intros (c & r & -> & Hc). simpl. now rewrite Hc. Qed.

Lemma trim_idem (s : jsstring) : trim (trim s) = trim s.
Proof.
  assert (He : forall x, trimEnd (trimEnd x) = trimEnd x).
  { intros x. unfold trimEnd. now rewrite rev_involutive, trimStart_idem. }
  unfold trim at 1. destruct (trim_nil_or_solid s) as [E|Hs].
  - now rewrite E.
  - rewrite (@trimStart_solid_id _ Hs). unfold trim. apply He.
Qed.

Lemma join_Forall (P : N -> Prop) (sep : jsstring) (l : list jsstring) :
  Forall P sep -> Forall (Forall P) l -> Forall P (join sep l).
Proof.
  intros Hsep. induction 1 as [|x l Hx Hl IH]; [constructor|].
  destruct l as [|y l]; [exact Hx|].
  change (join sep (x :: y :: l)) with (x ++ sep ++ join sep (y :: l)).
  apply Forall_app. split; [exact Hx|].
  apply Forall_app. split; [exact Hsep | exact IH].
Qed.

(** ** The size and the content of the chunks *)

Section ChunkBound.

Variable chunkSize : Z.
Variable all : list jsstring.

Let good (c : jsstring) : Prop :=
  (exists s, In s all /\ c = trim s)
  \/ (Z.of_nat (length c) <= chunkSize + 1)%Z.

Let bounded (st : list jsstring * jsstring) : Prop :=
  Forall good (fst st)
  /\ (snd st = []
      \/ (exists s, In s all /\ trim (snd st) = trim s)
      \/ (Z.of_nat (length (snd st)) <= chunkSize + 1)%Z).

Lemma bounded_flush (cur : jsstring) :
  cur <> [] ->
  (cur = []
   \/ (exists s, In s all /\ trim cur = trim s)
   \/ (Z.of_nat (length cur) <= chunkSize + 1)%Z) ->
  good (trim cur).
Proof.
  intros Hne [E|[(s & Hs & E)|Hl]].
  - congruence.
  - left. now exists s.
  - right. pose proof (trim_length_le cur). lia.
Qed.

Lemma chunkStep_bounded (st : list jsstring * jsstring) (s : jsstring) :
  In s all -> bounded st -> bounded (chunkStep chunkSize st s).
Proof.
  intros Hs [Hchunks Hcur]. destruct st as [chunks cur].
  simpl in Hchunks, Hcur. unfold chunkStep.
  destruct (Z.of_nat (length (cur ++ s)) >? chunkSize)%Z eqn:Hsize;
    destruct (0 <? length cur) eqn:Hlen; simpl andb; cbv iota.
  - split; simpl.
    + apply Forall_app. split; [exact Hchunks|].
      constructor; [|constructor]. apply bounded_flush; [|exact Hcur].
      intros ->. discriminate.
    + right. left. now exists s.
  - apply Nat.ltb_ge in Hlen. destruct cur; [|simpl in Hlen; lia].
    split; [exact Hchunks|]. simpl. right. left. now exists s.
  - split; [exact Hchunks|]. simpl. right. right.
    rewrite Z.gtb_ltb in Hsize. apply Z.ltb_ge in Hsize.
    rewrite !length_app in *. simpl. lia.
  - apply Nat.ltb_ge in Hlen. destruct cur; [|simpl in Hlen; lia].
    split; [exact Hchunks|]. simpl. right. left. now exists s.
Qed.

Lemma chunkLoop_bounded (sentences : list jsstring)
    (st : list jsstring * jsstring) :
  incl sentences all -> bounded st ->
  bounded (fold_left (chunkStep chunkSize) sentences st).
Proof.
  revert st. induction sentences as [|s sentences IH]; intros st Hin Hb.
  - exact Hb.
  - simpl. apply IH.
    + intros x Hx. apply Hin. now right.
    + apply chunkStep_bounded; [apply Hin; now left | exact Hb].
Qed.

Lemma chunkSentences_bounded :
  Forall good (chunkSentences all chunkSize).
Proof.
  assert (H0 : bounded ([], [])).
  { split; [constructor | now left]. }
  pose proof (chunkLoop_bounded (incl_refl all) H0) as [Hchunks Hcur].
  unfold chunkSentences.
  destruct (fold_left (chunkStep chunkSize) all ([], [])) as [chunks cur].
  simpl in Hchunks, Hcur.
  assert (Hflush : trim cur <> [] -> good (trim cur)).
  { intros Hne. apply bounded_flush; [|exact Hcur]. intros ->. now apply Hne. }
  destruct (trim cur) as [|c t] eqn:Et; [exact Hchunks|].
  apply Forall_app. split; [exact Hchunks|].
  constructor; [|constructor]. apply Hflush. discriminate.
Qed.

End ChunkBound.

(** Chunks hold nothing but units of the sentences and blanks, and they are
    trimmed. *)
Lemma chunkSentences_units (P : N -> Prop) (sentences : list jsstring)
    (chunkSize : Z) :
  P space -> Forall (Forall P) sentences ->
  Forall (fun c => Forall P c /\ trim c = c)
         (chunkSentences sentences chunkSize).
Proof.
  intros Hsp Hs.
  destruct (chunkSentences_groups chunkSize sentences)
    as (groups & Hc & _ & Hr).
  assert (Hall : Forall (fun c => Forall P c /\ trim c = c)
                   (map renderGroup groups)).
  { apply Forall_map, Forall_forall. intros g Hg. unfold renderGroup. split.
    - apply trim_Forall, join_Forall; [now constructor|].
      apply Forall_forall. intros s Hin. rewrite Forall_forall in Hs.
      apply Hs. rewrite <- Hc. apply in_concat. now exists g.
    - apply trim_idem. }
  destruct Hr as [Hr|Hr]; rewrite Hr in Hall; [exact Hall|].
  apply Forall_app in Hall. apply Hall.
Qed.

(** X3.  Every chunk is either one sentence of the text, trimmed, or at most
    one unit longer than the chunk size.  For every chunk size, in both
    variants. *)
Theorem chunk_length_bound (T : jsstring) (S : Z) :
  Forall (fun c =>
            (exists s, In s (split Chatbot.sentenceEnd T) /\ c = trim s)
            \/ (Z.of_nat (length c) <= S + 1)%Z)
         (Chatbot.splitIntoChunks T S)
  /\ Forall (fun c =>
               (exists s, In s (split Assistant.sentenceEnd T) /\ c = trim s)
               \/ (Z.of_nat (length c) <= S + 1)%Z)
            (Assistant.splitText T S).
Proof.
  split; apply chunkSentences_bounded.
Qed.

(** X4.  A chunk holds no sentence terminator and has no white space at
    either end; splitting it into sentences again gives the chunk itself as
    the only sentence.  In both variants. *)
Theorem chunk_is_one_sentence (T : jsstring) (S : Z) :
  Forall (fun c => Forall (fun u => Chatbot.sentenceEnd u = false) c
                   /\ trim c = c
                   /\ split Chatbot.sentenceEnd c = [c])
         (Chatbot.splitIntoChunks T S)
  /\ Forall (fun c => Forall (fun u => Assistant.sentenceEnd u = false) c
                      /\ trim c = c
                      /\ split Assistant.sentenceEnd c = [c])
            (Assistant.splitText T S).
Proof.
  split.
  - eapply Forall_impl;
      [|apply (@chunkSentences_units
                 (fun u => Chatbot.sentenceEnd u = false)
                 (split Chatbot.sentenceEnd T) S eq_refl)].
    + intros c [Hc Ht]. split; [exact Hc|]. split; [exact Ht|].
      now apply split_no_sep.
    + apply Forall_forall. intros s Hs.
      apply split_pieces in Hs. eapply Forall_impl; [|exact Hs].
      intros u Hu. apply Hu.
  - eapply Forall_impl;
      [|apply (@chunkSentences_units
                 (fun u => Assistant.sentenceEnd u = false)
                 (split Assistant.sentenceEnd T) S eq_refl)].
    + intros c [Hc Ht]. split; [exact Hc|]. split; [exact Ht|].
      now apply split_no_sep.
    + apply Forall_forall. intros s Hs.
      apply split_pieces in Hs. eapply Forall_impl; [|exact Hs].
      intros u Hu. apply Hu.
Qed.

Lemma Chatbot_chunk_facts (T : jsstring) (S : Z) (c : jsstring) :
  In c (Chatbot.splitIntoChunks T S) ->
  Forall (fun u => Chatbot.sentenceEnd u = false) c /\ trim c = c.
Proof.
  intros Hc.
  assert (Hall : Forall (fun c => Forall (fun u => Chatbot.sentenceEnd u = false) c
                                  /\ trim c = c)
                   (Chatbot.splitIntoChunks T S)).
  { apply (@chunkSentences_units (fun u => Chatbot.sentenceEnd u = false)
             (split Chatbot.sentenceEnd T) S eq_refl).
    apply Forall_forall. intros s Hs.
    apply split_pieces in Hs. eapply Forall_impl; [|exact Hs].
    intros u Hu. apply Hu. }
  rewrite Forall_forall in Hall. now apply Hall.
Qed.

Lemma Assistant_chunk_facts (T : jsstring) (S : Z) (c : jsstring) :
  In c (Assistant.splitText T S) ->
  Forall (fun u => Assistant.sentenceEnd u = false) c /\ trim c = c.
Proof.
  intros Hc.
  assert (Hall : Forall (fun c => Forall (fun u => Assistant.sentenceEnd u = false) c
                                  /\ trim c = c)
                   (Assistant.splitText T S)).
  { apply (@chunkSentences_units (fun u => Assistant.sentenceEnd u = false)
             (split Assistant.sentenceEnd T) S eq_refl).
    apply Forall_forall. intros s Hs.
    apply split_pieces in Hs. eapply Forall_impl; [|exact Hs].
    intros u Hu. apply Hu. }
  rewrite Forall_forall in Hall. now apply Hall.
Qed.

Lemma endsWith_absent (s : jsstring) (c : N) :
  Forall (fun u => u <> c) s -> endsWith s c = false.
Proof.
  intros Hs. unfold endsWith. destruct (rev s) as [|d r] eqn:Er; [reflexivity|].
  unfold unit_eqb. apply N.eqb_neq.
  rewrite Forall_forall in Hs. apply Hs.
  apply in_rev. rewrite Er. now left.
Qed.

(** ** Answers from chunks of the index *)

Lemma Chatbot_generateAnswer_solid `{CaseMapping} (query : jsstring)
    (top : Chatbot.Scored) (rest : list Chatbot.Scored) :
  Forall (fun u => Chatbot.sentenceEnd u = false)
         (Chatbot.content (Chatbot.item top)) ->
  trim (Chatbot.content (Chatbot.item top))
  = Chatbot.content (Chatbot.item top) ->
  Chatbot.generateAnswer query (top :: rest)
  = Some {| Chatbot.answer :=
              (if 10 <? length (Chatbot.content (Chatbot.item top))
               then Chatbot.content (Chatbot.item top) else [])
              ++ js ".";
            Chatbot.source := Chatbot.title (Chatbot.item top);
            Chatbot.answerCategory := Chatbot.category (Chatbot.item top) |}.
Proof.
  intros Hno Htrim.
  set (c := Chatbot.content (Chatbot.item top)) in *.
  assert (Hend : endsWith c 46%N = false).
  { apply endsWith_absent. eapply Forall_impl; [|exact Hno].
    intros u Hu ->. discriminate. }
  unfold Chatbot.generateAnswer. fold c. cbv zeta.
  rewrite (@split_no_sep Chatbot.sentenceEnd c Hno).
  cbn [filter]. rewrite !Htrim.
  destruct (10 <? length c) eqn:Hlen.
  - cbn [filter].
    destruct (existsb (fun word => includes (toLowerCase c) word)
                (Chatbot.extractKeywords query));
      cbn [slice0 firstn length Nat.ltb Nat.leb join];
      rewrite ?Htrim, Hend; reflexivity.
  - reflexivity.
Qed.

(** X5.  In the base variant, when the top context is a chunk made by
    [splitIntoChunks], no sentence is selected: the answer is the whole chunk
    followed by a full stop when the chunk is longer than 10 units, and a
    lone full stop otherwise, whatever the query. *)
Theorem Chatbot_answer_is_chunk `{CaseMapping} (query T : jsstring) (S : Z)
    (top : Chatbot.Scored) (rest : list Chatbot.Scored) :
  In (Chatbot.content (Chatbot.item top)) (Chatbot.splitIntoChunks T S) ->
  Chatbot.generateAnswer query (top :: rest)
  = Some {| Chatbot.answer :=
              (if 10 <? length (Chatbot.content (Chatbot.item top))
               then Chatbot.content (Chatbot.item top) else [])
              ++ js ".";
            Chatbot.source := Chatbot.title (Chatbot.item top);
            Chatbot.answerCategory := Chatbot.category (Chatbot.item top) |}.
Proof.
  intros Hin. apply Chatbot_chunk_facts in Hin. destruct Hin as [Hno Htrim].
  now apply Chatbot_generateAnswer_solid.
Qed.

Lemma Chatbot_answer_is_chunk_witness :
  let text :=
    js "Water is wet. The water cycle includes evaporation and condensation. Ice is cold" in
  let top := {| Chatbot.item := Samples.waterChunk; Chatbot.score := 20 |} in
  In (Chatbot.content (Chatbot.item top)) (Chatbot.splitIntoChunks text 30)
  /\ Chatbot.generateAnswer (js "water cycle") [top]
     = Some {| Chatbot.answer :=
                 js "The water cycle includes evaporation and condensation.";
               Chatbot.source := js "Science";
               Chatbot.answerCategory := js "textbooks" |}.
Proof.
  cbv zeta.
  assert (Hin : In (Chatbot.content
                      (Chatbot.item
                         {| Chatbot.item := Samples.waterChunk;
                            Chatbot.score := 20 |}))
                   (Chatbot.splitIntoChunks
                      (js "Water is wet. The water cycle includes evaporation and condensation. Ice is cold")
                      30)).
  { vm_compute. right. left. reflexivity. }
  split; [exact Hin|].
  rewrite (@Chatbot_answer_is_chunk asciiCase (js "water cycle") _ 30 _ [] Hin).
  reflexivity.
Defined.

Lemma Assistant_combine_units (P : N -> Prop) (contexts : list Assistant.Scored) :
  P space ->
  Forall (fun ctx => Forall P (Assistant.content (Assistant.item ctx)))
         (slice0 3 contexts) ->
  Forall P (fst (Assistant.combine contexts)).
Proof.
  intros Hsp. unfold Assistant.combine.
  assert (G : forall l (acc : jsstring * list jsstring),
             Forall P (fst acc) ->
             Forall (fun ctx => Forall P (Assistant.content (Assistant.item ctx))) l ->
             Forall P (fst (fold_left
               (fun (acc : jsstring * list jsstring) ctx =>
                  let (combinedContent, sources) := acc in
                  match Assistant.content (Assistant.item ctx) with
                  | [] => acc
                  | _ :: _ =>
                      (combinedContent ++ [space]
                         ++ Assistant.content (Assistant.item ctx),
                       Assistant.setAdd sources (Assistant.title (Assistant.item ctx)))
                  end) l acc))).
  { induction l as [|ctx l IH]; intros [cc ss] Hacc Hl; [exact Hacc|].
    inversion Hl as [|? ? Hctx Hl']; subst. simpl fold_left. apply IH; [|exact Hl'].
    destruct (Assistant.content (Assistant.item ctx)) as [|u r] eqn:E;
      [exact Hacc|].
    simpl fst in *. apply Forall_app. split; [exact Hacc|].
    constructor; [exact Hsp | exact Hctx]. }
  intros Hl. apply G; [constructor | exact Hl].
Qed.

(** X6.  In the higher-fidelity variant, when the first three contexts are
    chunks made by [splitText], the sentences are not told apart: the
    combined content is one sentence, and the answer is all of it, white
    space normalized and a full stop added, when it is longer than 20 units;
    otherwise there is no answer.  The query plays no part. *)
Theorem Assistant_answer_is_chunks `{CaseMapping} (query : jsstring)
    (first : Assistant.Scored) (rest : list Assistant.Scored) :
  Forall (fun ctx => exists T S,
            In (Assistant.content (Assistant.item ctx)) (Assistant.splitText T S))
         (slice0 3 (first :: rest)) ->
  let combined := trim (fst (Assistant.combine (first :: rest))) in
  Assistant.generateAnswer query (first :: rest)
  = if 20 <? length combined
    then Some {| Assistant.text := finishAnswer combined;
                 Assistant.source :=
                   join (js ", ") (snd (Assistant.combine (first :: rest)));
                 Assistant.answerCategory :=
                   Assistant.category (Assistant.item first);
                 Assistant.answerScore := Assistant.score first |}
    else None.
Proof.
  intros Hchunks combined.
  assert (Hno : Forall (fun u => Assistant.sentenceEnd u = false)
                  (fst (Assistant.combine (first :: rest)))).
  { apply Assistant_combine_units; [reflexivity|].
    eapply Forall_impl; [|exact Hchunks]. intros ctx (T & S & Hin).
    now apply (Assistant_chunk_facts T S). }
  subst combined.
  assert (Hrel : forall t : jsstring,
            let relevant :=
              map fst
                (slice0 4
                   (sortBy (fun a b : jsstring * Z => (snd b - snd a)%Z)
                      (filter (fun s : jsstring * Z => (snd s >? 1)%Z)
                         (map (Assistant.scoreSentence (toLowerCase query)
                                 (Assistant.extractKeywords query)) [t])))) in
            relevant = [t] \/ relevant = []).
  { intros t relevant. subst relevant.
    change (map (Assistant.scoreSentence (toLowerCase query)
                   (Assistant.extractKeywords query)) [t])
      with [Assistant.scoreSentence (toLowerCase query)
              (Assistant.extractKeywords query) t].
    remember (Assistant.scoreSentence (toLowerCase query)
                (Assistant.extractKeywords query) t) as sc eqn:Esc.
    assert (Hfst : fst sc = t) by (subst sc; reflexivity).
    cbn [filter]. destruct (snd sc >? 1)%Z.
    - left. simpl. now rewrite Hfst.
    - now right. }
  unfold Assistant.generateAnswer. cbv zeta.
  destruct (Assistant.combine (first :: rest)) as [cc sources].
  simpl fst in *. simpl snd.
  assert (Es : Assistant.sentencesOf cc
               = if 20 <? length (trim cc) then [trim cc] else []).
  { unfold Assistant.sentencesOf.
    now rewrite (@split_no_sep Assistant.sentenceEnd cc Hno). }
  rewrite !Es.
  destruct (20 <? length (trim cc)) eqn:Hlen; [|reflexivity].
  assert (Hne : trim cc <> []) by (intros E; rewrite E in Hlen; discriminate).
  destruct (Hrel (trim cc)) as [E|E]; rewrite !E;
    cbn [length Nat.ltb Nat.leb join slice0 firstn];
    rewrite trim_idem;
    (destruct (trim cc) as [|u t]; [congruence | reflexivity]).
Qed.

Lemma Assistant_answer_is_chunks_witness :
  let text :=
    js "Water is wet. The water cycle includes evaporation and condensation. Ice is cold" in
  let first :=
    {| Assistant.item := Samples.waterEntry; Assistant.score := 20 |} in
  In (Assistant.content (Assistant.item first)) (Assistant.splitText text 30)
  /\ exists a,
       Assistant.generateAnswer (js "water cycle") [first] = Some a
       /\ Assistant.text a
          = js "The water cycle includes evaporation and condensation.".
Proof.
  cbv zeta.
  assert (Hin : In (Assistant.content
                      (Assistant.item
                         {| Assistant.item := Samples.waterEntry;
                            Assistant.score := 20 |}))
                   (Assistant.splitText
                      (js "Water is wet. The water cycle includes evaporation and condensation. Ice is cold")
                      30)).
  { vm_compute. right. left. reflexivity. }
  split; [exact Hin|].
  rewrite (@Assistant_answer_is_chunks asciiCase (js "water cycle")
             {| Assistant.item := Samples.waterEntry; Assistant.score := 20 |}
             []).
  - eexists. split; reflexivity.
  - repeat constructor. eexists. eexists. exact Hin.
Defined.

(** ** The best chunks *)

Lemma StronglySorted_app_inv {A} (R : A -> A -> Prop) (a b : list A) :
  StronglySorted R (a ++ b) -> Forall (fun x => Forall (R x) b) a.
Proof.
  induction a as [|x a IH]; intros Hs; [constructor|].
  simpl in Hs. inversion Hs as [|? ? Hs' Hx]; subst.
  constructor; [|now apply IH].
  apply Forall_app in Hx. apply Hx.
Qed.

(** Keeping the first [k] of the sorted candidates keeps [k] of them, or all
    when there are fewer, and leaves out none that beats one that is kept. *)
Lemma ranked_best {A} (key : A -> Z) (floor : Z) (k : nat) (l : list A) :
  let cand := filter (fun i => (key i >? floor)%Z) l in
  let r := slice0 k (sortBy (fun a b => (key b - key a)%Z) cand) in
  length r = Nat.min k (length cand)
  /\ incl r l
  /\ exists rest,
       Permutation (r ++ rest) cand
       /\ Forall (fun x => Forall (fun y => (key y <= key x)%Z) rest) r.
Proof.
  intros cand r. subst r.
  pose proof (@sortBy_perm A key cand) as Hp.
  pose proof (@sortBy_sorted A key cand) as Hs.
  split; [|split].
  - unfold slice0. rewrite length_firstn.
    now rewrite (Permutation_length Hp).
  - intros x Hx. apply slice0_incl in Hx.
    apply (Permutation_in _ Hp) in Hx.
    apply filter_In in Hx. apply Hx.
  - exists (skipn k (sortBy (fun a b => (key b - key a)%Z) cand)).
    unfold slice0. rewrite firstn_skipn. split; [exact Hp|].
    apply StronglySorted_app_inv. now rewrite firstn_skipn.
Qed.

(** X7.  For a query with keywords, [searchKnowledge] returns [topK] chunks,
    or all the chunks that score above the floor when there are fewer; each
    is a chunk of the knowledge base with its score; and no chunk that is
    left out scores higher than a chunk that is returned. *)
Theorem searchKnowledge_best `{CaseMapping} (q : jsstring) (topK : nat) :
  (forall kb : list Chatbot.Item,
     Chatbot.extractKeywords q <> [] ->
     let scored := map (Chatbot.scoreItem q (Chatbot.extractKeywords q)) kb in
     let cand := filter (fun i => (Chatbot.score i >? 0)%Z) scored in
     let r := Chatbot.searchKnowledge kb q topK in
     length r = Nat.min topK (length cand)
     /\ incl r scored
     /\ exists rest,
          Permutation (r ++ rest) cand
          /\ Forall (fun x =>
                       Forall (fun y => (Chatbot.score y <= Chatbot.score x)%Z)
                              rest) r)
  /\ (forall kb : list Assistant.Item,
        Assistant.extractKeywords q <> [] ->
        let scored :=
          map (Assistant.scoreItem q (Assistant.extractKeywords q)) kb in
        let cand := filter (fun i => (Assistant.score i >? 2)%Z) scored in
        let r := Assistant.searchKnowledge kb q topK in
        length r = Nat.min topK (length cand)
        /\ incl r scored
        /\ exists rest,
             Permutation (r ++ rest) cand
             /\ Forall (fun x =>
                          Forall (fun y =>
                                    (Assistant.score y <= Assistant.score x)%Z)
                                 rest) r).
Proof.
  split; intros kb Hk scored cand r; subst r cand scored.
  - unfold Chatbot.searchKnowledge.
    destruct (Chatbot.extractKeywords q) as [|kw kws] eqn:E; [congruence|].
    simpl length. simpl Nat.eqb. cbv iota.
    exact (ranked_best Chatbot.score 0 topK _).
  - unfold Assistant.searchKnowledge.
    destruct (Assistant.extractKeywords q) as [|kw kws] eqn:E; [congruence|].
    simpl length. simpl Nat.eqb. cbv iota.
    exact (ranked_best Assistant.score 2 topK _).
Qed.

(** The query ["water cycle"] on the two sample chunks. *)
Lemma searchKnowledge_best_witness :
  let q := js "water cycle" in
  let kb := [Samples.waterChunk; Samples.chunk "Maths" "Two and two make four"] in
  Chatbot.extractKeywords q <> []
  /\ length (Chatbot.searchKnowledge kb q 3) = 1
  /\ incl (Chatbot.searchKnowledge kb q 3)
          (map (Chatbot.scoreItem q (Chatbot.extractKeywords q)) kb).
Proof.
  cbv zeta.
  assert (Hk : Chatbot.extractKeywords (js "water cycle") <> [])
    by (vm_compute; discriminate).
  split; [exact Hk|].
  pose proof (proj1 (@searchKnowledge_best asciiCase (js "water cycle") 3)
                [Samples.waterChunk;
                 Samples.chunk "Maths" "Two and two make four"] Hk)
    as (Hlen & Hincl & _).
  split; [|exact Hincl].
  rewrite Hlen. vm_compute. reflexivity.
Defined.

(** ** The range of a score *)

Lemma sumZ_bounds {A} (f : A -> Z) (b : Z) (l : list A) :
  (forall x, 0 <= f x <= b)%Z ->
  (0 <= sumZ (map f l) <= b * Z.of_nat (length l))%Z.
Proof.
  intros Hf. induction l as [|x l IH].
  - simpl. lia.
  - cbn [map sumZ fold_right length].
    change (fold_right Z.add 0%Z (map f l)) with (sumZ (map f l)).
    specialize (Hf x). lia.
Qed.

(** X8.  A chunk's score is never negative, and a query of [n] keywords
    gives it at most [11 * n] in the base variant and [9 * n + 10] in the
    higher-fidelity one. *)
Theorem score_range `{CaseMapping} (q : jsstring) (kws : list jsstring) :
  (forall it : Chatbot.Item,
     0 <= Chatbot.score (Chatbot.scoreItem q kws it)
       <= 11 * Z.of_nat (length kws))%Z
  /\ (forall it : Assistant.Item,
        0 <= Assistant.score (Assistant.scoreItem q kws it)
          <= 9 * Z.of_nat (length kws) + 10)%Z.
Proof.
  split; intros it.
  - rewrite Chatbot_score_parts. unfold ChatbotSpec.matchScore.
    assert (Hw : forall kw, (0 <= ChatbotSpec.keywordWeight it kw <= 6)%Z).
    { intros kw. unfold ChatbotSpec.keywordWeight.
      destruct (arrayIncludes _ _), (includes _ _), (includes _ _); lia. }
    pose proof (@sumZ_bounds _ (ChatbotSpec.keywordWeight it) 6%Z kws Hw).
    destruct (ChatbotSpec.phraseMatch q it); lia.
  - rewrite Assistant_score_parts. unfold AssistantSpec.matchScore.
    assert (Hw : forall kw, (0 <= AssistantSpec.keywordWeight it kw <= 9)%Z).
    { intros kw. unfold AssistantSpec.keywordWeight.
      destruct (match Assistant.keywords it with
                | Some ks => arrayIncludes ks kw
                | None => false
                end), (includes _ _), (includes _ _); lia. }
    pose proof (@sumZ_bounds _ (AssistantSpec.keywordWeight it) 9%Z kws Hw).
    destruct (AssistantSpec.phraseMatch q it); lia.
Qed.

(** ** The form of an answer *)

Lemma singleSpaced_collapse (s : jsstring) : singleSpaced (collapseSpaces s) = true.
Proof.
  induction s as [|c s IH]; [reflexivity|].
  simpl collapseSpaces. destruct (isWhiteSpace c) eqn:Hc.
  - destruct s as [|d s]; [reflexivity|].
    destruct (isWhiteSpace d) eqn:Hd; [exact IH|].
    simpl collapseSpaces in IH. rewrite Hd in IH.
    simpl collapseSpaces. rewrite Hd.
    change (singleSpaced (32%N :: d :: collapseSpaces s))
      with ((true && negb (isWhiteSpace d))
            && singleSpaced (d :: collapseSpaces s)).
    now rewrite Hd, IH.
  - simpl. rewrite Hc. exact IH.
Qed.

Lemma singleSpaced_suffix (a b : jsstring) :
  singleSpaced (a ++ b) = true -> singleSpaced b = true.
Proof.
  induction a as [|c a IH]; [auto|].
  simpl. intros Hs. apply andb_true_iff in Hs. now apply IH.
Qed.

Lemma singleSpaced_prefix (a b : jsstring) :
  singleSpaced (a ++ b) = true -> singleSpaced a = true.
Proof.
  induction a as [|c a IH]; [reflexivity|].
  simpl. intros Hs. apply andb_true_iff in Hs. destruct Hs as [Hc Hs].
  rewrite (IH Hs), andb_true_r.
  destruct (isWhiteSpace c); [|reflexivity].
  apply andb_true_iff in Hc. destruct Hc as [Hc Hn]. rewrite Hc. simpl.
  destruct a as [|d a]; [reflexivity | exact Hn].
Qed.

Lemma singleSpaced_snoc (a : jsstring) (c : N) :
  isWhiteSpace c = false -> singleSpaced a = true ->
  singleSpaced (a ++ [c]) = true.
Proof.
  intros Hc. induction a as [|d a IH]; simpl.
  - now rewrite Hc.
  - intros Hs. apply andb_true_iff in Hs. destruct Hs as [Hd Hs].
    rewrite (IH Hs), andb_true_r.
    destruct (isWhiteSpace d); [|reflexivity].
    apply andb_true_iff in Hd. destruct Hd as [Hd Hn]. rewrite Hd. simpl.
    destruct a as [|e a]; simpl; [now rewrite Hc | exact Hn].
Qed.

Lemma singleSpaced_trim (s : jsstring) :
  singleSpaced s = true -> singleSpaced (trim s) = true.
Proof.
  intros Hs. destruct (trim_infix s) as (p & t & E). rewrite E in Hs.
  apply singleSpaced_suffix in Hs. now apply singleSpaced_prefix in Hs.
Qed.

Lemma endsWith_snoc (s : jsstring) (c : N) : endsWith (s ++ [c]) c = true.
Proof.
  unfold endsWith. rewrite rev_app_distr. simpl. apply N.eqb_refl.
Qed.

Lemma finishAnswer_form (s : jsstring) :
  startsSolid s ->
  Assistant.isTerminal (finishAnswer s) = true
  /\ singleSpaced (finishAnswer s) = true
  /\ startsSolid (finishAnswer s).
Proof.
  intros Hs. unfold finishAnswer.
  pose proof (@trim_solid _ (@collapseSpaces_solid _ Hs)) as Hsolid.
  pose proof (singleSpaced_trim _ (singleSpaced_collapse s)) as Hsp.
  destruct (Assistant.isTerminal (trim (collapseSpaces s))) eqn:Ht.
  - now repeat split.
  - split; [|split].
    + unfold Assistant.isTerminal. change (js ".") with [46%N].
      now rewrite endsWith_snoc.
    + now apply singleSpaced_snoc.
    + destruct Hsolid as (c & r & -> & Hc). now eexists c, _.
Qed.

(** X9.  An answer of the base variant ends with a full stop.  An answer of
    the higher-fidelity variant ends with a full stop, an exclamation mark or
    a question mark, begins with a unit that is not white space, and has its
    white space normalized: only single blanks, each followed by a unit that
    is not white space. *)
Theorem answer_form `{CaseMapping} (query : jsstring) :
  (forall contexts a,
     Chatbot.generateAnswer query contexts = Some a ->
     endsWith (Chatbot.answer a) 46%N = true)
  /\ (forall contexts a,
        Assistant.generateAnswer query contexts = Some a ->
        Assistant.isTerminal (Assistant.text a) = true
        /\ singleSpaced (Assistant.text a) = true
        /\ startsSolid (Assistant.text a)).
Proof.
  split; intros contexts a Ha.
  - destruct contexts as [|c cs]; [discriminate|].
    unfold Chatbot.generateAnswer in Ha. injection Ha as <-.
    simpl Chatbot.answer.
    match goal with
    | |- endsWith (if endsWith ?x _ then _ else _) _ = true =>
        destruct (endsWith x 46%N) eqn:E; [exact E|]
    end.
    change (js ".") with [46%N]. apply endsWith_snoc.
  - destruct contexts as [|first rest]; [discriminate|].
    destruct (Assistant_generateAnswer_cases query first rest)
      as [[_ Hg]|(_ & answer & source & Hsolid & _ & Hg)];
      rewrite Hg in Ha; [discriminate|].
    injection Ha as <-. simpl Assistant.text.
    now apply finishAnswer_form.
Qed.

(** The answer to ["water cycle"] from the sample chunk. *)
Lemma answer_form_witness :
  let contexts := Chatbot.searchKnowledge [Samples.waterChunk] (js "water cycle") 3 in
  exists a,
    Chatbot.generateAnswer (js "water cycle") contexts = Some a
    /\ endsWith (Chatbot.answer a) 46%N = true.
Proof.
  cbv zeta.
  destruct (Chatbot.generateAnswer (js "water cycle")
              (Chatbot.searchKnowledge [Samples.waterChunk] (js "water cycle") 3))
    as [a|] eqn:E.
  - exists a. split; [reflexivity|].
    exact (proj1 (@answer_form asciiCase (js "water cycle")) _ a E).
  - vm_compute in E. discriminate E.
Defined.

(** ** The sources of an answer *)

Lemma setAdd_spec (s : list jsstring) (x : jsstring) :
  NoDup s ->
  NoDup (Assistant.setAdd s x)
  /\ forall t, In t (Assistant.setAdd s x) <-> In t s \/ t = x.
Proof.
  intros Hs. unfold Assistant.setAdd.
  destruct (arrayIncludes s x) eqn:E.
  - apply arrayIncludes_In in E. split; [exact Hs|].
    intros t. split; [now left | intros [Ht| ->]; assumption].
  - assert (Hx : ~ In x s).
    { intros Hin. apply arrayIncludes_In in Hin. congruence. }
    split.
    + apply NoDup_rev in Hs. rewrite <- (rev_involutive (s ++ [x])).
      apply NoDup_rev. rewrite rev_app_distr. simpl.
      constructor; [|exact Hs]. now rewrite <- in_rev.
    + intros t. rewrite in_app_iff. simpl. intuition congruence.
Qed.

Lemma combine_sources (contexts : list Assistant.Scored) :
  let sources := snd (Assistant.combine contexts) in
  NoDup sources
  /\ forall t, In t sources
               <-> exists ctx, In ctx (slice0 3 contexts)
                               /\ Assistant.content (Assistant.item ctx) <> []
                               /\ Assistant.title (Assistant.item ctx) = t.
Proof.
  unfold Assistant.combine.
  assert (G : forall l (acc : jsstring * list jsstring),
    NoDup (snd acc) ->
    let res := fold_left
      (fun (acc : jsstring * list jsstring) ctx =>
         let (combinedContent, sources) := acc in
         match Assistant.content (Assistant.item ctx) with
         | [] => acc
         | _ :: _ =>
             (combinedContent ++ [space] ++ Assistant.content (Assistant.item ctx),
              Assistant.setAdd sources (Assistant.title (Assistant.item ctx)))
         end) l acc in
    NoDup (snd res)
    /\ forall t, In t (snd res)
                 <-> In t (snd acc)
                     \/ exists ctx, In ctx l
                          /\ Assistant.content (Assistant.item ctx) <> []
                          /\ Assistant.title (Assistant.item ctx) = t).
  { induction l as [|ctx l IH]; intros [cc ss] Hnd.
    - simpl. split; [exact Hnd|]. intros t. split; [now left|].
      intros [Ht|(ctx & [] & _)]. exact Ht.
    - simpl fold_left.
      destruct (Assistant.content (Assistant.item ctx)) as [|u r] eqn:E.
      + destruct (IH (cc, ss) Hnd) as [H1 H2]. split; [exact H1|].
        intros t. rewrite H2. simpl snd. split.
        * intros [Ht|(c & Hc & Hne & Ht)]; [now left|].
          right. exists c. split; [now right | now split].
        * intros [Ht|(c & [<-|Hc] & Hne & Ht)]; [now left | congruence |].
          right. now exists c.
      + simpl snd in Hnd.
        destruct (setAdd_spec (Assistant.title (Assistant.item ctx)) Hnd)
          as [Hnd' Hin'].
        destruct (IH (cc ++ [space] ++ u :: r,
                      Assistant.setAdd ss (Assistant.title (Assistant.item ctx)))
                    Hnd') as [H1 H2].
        split; [exact H1|].
        intros t. rewrite H2. simpl snd. rewrite Hin'. split.
        * intros [[Ht| ->]|(c & Hc & Hne & Ht)].
          -- now left.
          -- right. exists ctx. split; [now left|]. split; [|reflexivity].
             rewrite E. discriminate.
          -- right. exists c. split; [now right | now split].
        * intros [Ht|(c & [<-|Hc] & Hne & Ht)].
          -- left. now left.
          -- left. right. now symmetry.
          -- right. now exists c. }
  cbv zeta.
  destruct (G (slice0 3 contexts) ([], []) (NoDup_nil _)) as [H1 H2].
  split; [exact H1|]. intros t. rewrite H2. simpl. tauto.
Qed.

(** X10.  The source of an answer of the higher-fidelity variant lists, joined
    by [", "], the titles of those of the first three contexts that have a
    content, each title once; its category and its score are those of the
    first context. *)
Theorem answer_sources `{CaseMapping} (query : jsstring)
    (contexts : list Assistant.Scored) (a : Assistant.Answer) :
  Assistant.generateAnswer query contexts = Some a ->
  exists sources first,
    Assistant.source a = join (js ", ") sources
    /\ NoDup sources
    /\ (forall t, In t sources
                  <-> exists ctx, In ctx (slice0 3 contexts)
                        /\ Assistant.content (Assistant.item ctx) <> []
                        /\ Assistant.title (Assistant.item ctx) = t)
    /\ hd_error contexts = Some first
    /\ Assistant.answerCategory a = Assistant.category (Assistant.item first)
    /\ Assistant.answerScore a = Assistant.score first.
Proof.
  intros Ha. destruct contexts as [|first rest]; [discriminate|].
  exists (snd (Assistant.combine (first :: rest))), first.
  destruct (combine_sources (first :: rest)) as [Hnd Hin].
  unfold Assistant.generateAnswer in Ha.
  destruct (Assistant.combine (first :: rest)) as [cc sources].
  simpl snd in *. cbv zeta in Ha.
  match type of Ha with
  | match ?x with [] => None | _ :: _ => _ end = Some _ =>
      destruct x; [discriminate|]
  end.
  injection Ha as <-. simpl.
  repeat split; try reflexivity; try exact Hnd; apply Hin.
Qed.

(** The sources of the answer to ["water cycle"] from the sample entry. *)
Lemma answer_sources_witness :
  let contexts :=
    Assistant.searchKnowledge [Samples.waterEntry] (js "water cycle") 5 in
  exists a,
    Assistant.generateAnswer (js "water cycle") contexts = Some a
    /\ exists sources, Assistant.source a = join (js ", ") sources
                       /\ NoDup sources.
Proof.
  cbv zeta.
  destruct (Assistant.generateAnswer (js "water cycle")
              (Assistant.searchKnowledge [Samples.waterEntry]
                 (js "water cycle") 5)) as [a|] eqn:E.
  - exists a. split; [reflexivity|].
    destruct (@answer_sources asciiCase (js "water cycle") _ a E)
      as (sources & first & Hs & Hnd & _).
    exists sources. now split.
  - vm_compute in E. discriminate E.
Defined.

(** * The index builders *)

Import Indexing.

Lemma digits_inj (d d' : Decimal.uint) : digits d = digits d' -> d = d'.
Proof.
  revert d'. induction d; destruct d'; simpl; intros E;
    try discriminate; try reflexivity;
    injection E as E; f_equal; auto.
Qed.

Lemma decimal_inj (n m : nat) : decimal n = decimal m -> n = m.
Proof.
  intros E. apply digits_inj in E.
  now apply DecimalNat.Unsigned.to_uint_inj.
Qed.

Lemma digits_are_digits (d : Decimal.uint) :
  Forall (fun u => (48 <= u <= 57)%N) (digits d).
Proof. induction d; simpl; constructor; try lia; assumption. Qed.

Lemma decimal_no_underscore (n : nat) : ~ In underscore (decimal n).
Proof.
  intros Hin. pose proof (digits_are_digits (Nat.to_uint n)) as Hd.
  rewrite Forall_forall in Hd. specialize (Hd _ Hin).
  unfold underscore in Hd. lia.
Qed.

(** Two strings cut at their last occurrence of a unit. *)
Lemma app_sep_last (u : N) (a b x y : jsstring) :
  ~ In u x -> ~ In u y -> a ++ u :: x = b ++ u :: y -> a = b /\ x = y.
Proof.
  intros Hx Hy E.
  assert (G : forall p q r t : jsstring,
             ~ In u p -> ~ In u q -> p ++ u :: r = q ++ u :: t ->
             p = q /\ r = t).
  { induction p as [|c p IH]; intros [|d q] r t Hp Hq E'; simpl in E'.
    - injection E' as ->. now split.
    - injection E' as <- _. exfalso. apply Hq. now left.
    - injection E' as -> _. exfalso. apply Hp. now left.
    - injection E' as -> E'.
      destruct (IH q r t) as [-> ->]; auto.
      + intros Hin. apply Hp. now right.
      + intros Hin. apply Hq. now right. }
  apply (f_equal (@rev N)) in E. rewrite !rev_app_distr in E. simpl in E.
  rewrite <- !app_assoc in E. simpl in E.
  destruct (G (rev x) (rev y) (rev a) (rev b)) as [E1 E2]; auto.
  - now rewrite <- in_rev.
  - now rewrite <- in_rev.
  - split.
    + rewrite <- (rev_involutive a), <- (rev_involutive b). now f_equal.
    + rewrite <- (rev_involutive x), <- (rev_involutive y). now f_equal.
Qed.

Lemma entryId_inj (r r' : Resource) (i j : nat) :
  entryId r i = entryId r' j -> resourceId r = resourceId r' /\ i = j.
Proof.
  unfold entryId. simpl. intros E.
  apply app_sep_last in E; try apply decimal_no_underscore.
  destruct E as [E1 E2]. split; [exact E1 | now apply decimal_inj].
Qed.

Lemma withIndex_In {A} (l : list A) (i : nat) (x : A) :
  In (i, x) (withIndex l) <-> nth_error l i = Some x.
Proof.
  unfold withIndex.
  assert (G : forall (l : list A) s i,
             In (i, x) (combine (seq s (length l)) l)
             <-> s <= i /\ nth_error l (i - s) = Some x).
  { clear l i. induction l as [|y l IH]; intros s i; simpl.
    - split; [tauto|]. intros [_ E]. destruct (i - s); discriminate.
    - rewrite IH. split.
      + intros [E|[Hle E]].
        * injection E as -> ->. rewrite Nat.sub_diag. split; [lia|reflexivity].
        * split; [lia|]. replace (i - s) with (S (i - S s)) by lia. exact E.
      + intros [Hle E]. destruct (i - s) as [|k] eqn:Ek.
        * left. injection E as ->. f_equal. lia.
        * right. split; [lia|]. replace (i - S s) with k by lia. exact E. }
  rewrite G, Nat.sub_0_r. split; [tauto | intros E; split; [lia|exact E]].
Qed.

Lemma withIndex_fst {A} (l : list A) :
  map fst (withIndex l) = seq 0 (length l).
Proof.
  unfold withIndex. generalize 0.
  induction l as [|y l IH]; intros s; simpl; [reflexivity|].
  now rewrite IH.
Qed.

Lemma withIndex_length {A} (l : list A) : length (withIndex l) = length l.
Proof.
  rewrite <- (length_map fst), withIndex_fst. apply length_seq.
Qed.


Lemma fold_left_collect {A T B} (ext : A -> option T) (g : A -> T -> list B)
    (l : list A) (acc : list B) :
  fold_left (fun acc x => match ext x with
                          | Some t => acc ++ g x t
                          | None => acc
                          end) l acc
  = acc ++ concat (map (fun x => match ext x with
                                 | Some t => g x t
                                 | None => []
                                 end) l).
Proof.
  revert acc. induction l as [|x l IH]; intros acc; simpl.
  - now rewrite app_nil_r.
  - rewrite IH. destruct (ext x); [now rewrite <- app_assoc | reflexivity].
Qed.

Lemma selected_distinct {A B} (ident : A -> B) (keep : A -> bool)
    (rs : list A) (Hd : NoDup (map ident rs)) :
  NoDup (map ident (filter keep rs)).
Proof.
  induction rs as [|r rs IH]; cbn [filter map] in *; [exact Hd|].
  apply NoDup_cons_iff in Hd. destruct Hd as [Hr Hd].
  destruct (keep r); [|exact (IH Hd)].
  cbn [map]. apply NoDup_cons; [|exact (IH Hd)].
  intros Hin. apply Hr. apply in_map_iff in Hin.
  destruct Hin as (y & E & Hy). apply filter_In in Hy.
  apply in_map_iff. exists y. split; [exact E | apply Hy].
Qed.

Lemma NoDup_map_slice0 {A B} (f : A -> B) (k : nat) (l : list A) :
  NoDup (map f l) -> NoDup (map f (slice0 k l)).
Proof.
  unfold slice0. revert k. induction l as [|x l IH]; intros [|k] Hn; simpl;
    try constructor.
  - inversion Hn as [|? ? Hx Hl]; subst. intros Hin. apply Hx.
    apply in_map_iff in Hin. destruct Hin as (y & E & Hy).
    apply in_map_iff. exists y. split; [exact E|].
    rewrite <- (firstn_skipn k l). apply in_or_app. now left.
  - inversion Hn; subst. now apply IH.
Qed.

(** The identifiers made for resources of distinct identifiers are
    distinct. *)
Lemma entryIds_NoDup (n : Resource -> nat) (rs : list Resource) :
  NoDup (map resourceId rs) ->
  NoDup (concat (map (fun r => map (entryId r) (seq 0 (n r))) rs)).
Proof.
  induction rs as [|r rs IH]; simpl; intros Hn; [constructor|].
  inversion Hn as [|? ? Hr Hrs]; subst.
  apply NoDup_app.
  - assert (G : forall l, NoDup l -> NoDup (map (entryId r) l)).
    { induction 1 as [|x l Hx Hl IHl]; simpl; constructor; [|exact IHl].
      intros Hin. apply in_map_iff in Hin. destruct Hin as (y & E & Hy).
      apply entryId_inj in E. destruct E as [_ ->]. contradiction. }
    apply G, seq_NoDup.
  - now apply IH.
  - intros x Hx Hx'. apply in_map_iff in Hx. destruct Hx as (i & <- & _).
    apply in_concat in Hx'. destruct Hx' as (ids & Hids & Hin).
    apply in_map_iff in Hids. destruct Hids as (r' & <- & Hr').
    apply in_map_iff in Hin. destruct Hin as (j & E & _).
    apply entryId_inj in E. destruct E as [E _].
    apply Hr. rewrite <- E. now apply in_map.
Qed.

Section IndexFacts.

Context `{CaseMapping}.

Lemma Chatbot_entries_ids (r : Resource) (text : jsstring) :
  map Chatbot.id (Chatbot_entries r text)
  = map (entryId r) (seq 0 (length (Chatbot_entries r text))).
Proof.
  unfold Chatbot_entries. destruct (100 <? length text); [|reflexivity].
  rewrite length_map, map_map.
  set (chunks := Chatbot.splitIntoChunks text 500).
  rewrite withIndex_length, <- withIndex_fst, map_map.
  apply map_ext. now intros [idx chunk].
Qed.

Lemma Assistant_entries_ids (r : Resource) (text : jsstring) :
  map Assistant.id (Assistant_entries r text)
  = map (entryId r) (seq 0 (length (Assistant_entries r text))).
Proof.
  unfold Assistant_entries. destruct (200 <? length text); [|reflexivity].
  rewrite length_map, map_map.
  set (chunks := Assistant.splitText text 600).
  rewrite withIndex_length, <- withIndex_fst, map_map.
  apply map_ext. now intros [idx chunk].
Qed.

End IndexFacts.

Lemma Chatbot_indexed `{CaseMapping}
    (resources : list Resource) (extract : Resource -> option jsstring) :
  forall (kb : list Chatbot.Item) (e : Chatbot.Item),
     In e (Chatbot_indexResources kb resources extract)
     <-> In e kb
        \/ exists r text idx chunk,
           In r (slice0 5 (filter Chatbot_eligible resources))
           /\ extract r = Some text
           /\ 100 < length text
           /\ nth_error (Chatbot.splitIntoChunks text 500) idx = Some chunk
           /\ e = {| Chatbot.id := entryId r idx;
                     Chatbot.title := resourceTitle r;
                     Chatbot.category := resourceCategory r;
                     Chatbot.content := chunk;
                     Chatbot.keywords := Chatbot.extractKeywords chunk |}.
Proof.
  intros kb e.
  unfold Chatbot_indexResources. cbv zeta.
  rewrite (fold_left_collect extract Chatbot_entries).
  rewrite in_app_iff, in_concat. split.
  - intros [He|(es & Hes & He)]; [now left | right].
    apply in_map_iff in Hes. destruct Hes as (r & <- & Hr).
    destruct (extract r) as [text|] eqn:Et; [|destruct He].
    unfold Chatbot_entries in He.
    destruct (100 <? length text) eqn:Hl; [|destruct He].
    apply in_map_iff in He. destruct He as ([idx chunk] & <- & Hin).
    apply withIndex_In in Hin. apply Nat.ltb_lt in Hl.
    exists r, text, idx, chunk. auto.
  - intros [He|(r & text & idx & chunk & Hr & Et & Hl & Hn & ->)];
      [now left | right].
    exists (Chatbot_entries r text). split.
    + apply in_map_iff. exists r. split; [now rewrite Et | exact Hr].
    + unfold Chatbot_entries. apply Nat.ltb_lt in Hl. rewrite Hl.
      apply in_map_iff. exists (idx, chunk). split; [reflexivity|].
      now apply withIndex_In.
Qed.





Lemma collected_ids {A} (ident : A -> jsstring)
    (entries : Resource -> jsstring -> list A)
    (extract : Resource -> option jsstring) (rs : list Resource) :
  (forall r text,
     map ident (entries r text)
     = map (entryId r) (seq 0 (length (entries r text)))) ->
  NoDup (map resourceId rs) ->
  NoDup (map ident
           (concat (map (fun r => match extract r with
                                  | Some text => entries r text
                                  | None => []
                                  end) rs))).
Proof.
  intros Hids Hnd.
  rewrite concat_map, map_map.
  pose (n := fun r => match extract r with
                      | Some text => length (entries r text)
                      | None => 0
                      end).
  rewrite (map_ext _ (fun r => map (entryId r) (seq 0 (n r)))).
  - now apply entryIds_NoDup.
  - intros r. unfold n. destruct (extract r) as [text|]; [apply Hids | reflexivity].
Qed.

(** X12.  When the resources of the catalogue have distinct identifiers, the
    entries that an index builder puts into an empty knowledge base have
    distinct identifiers too, whatever the resource identifiers look like
    (they may themselves contain underscores and digits). *)
Theorem indexResources_unique_ids `{CaseMapping}
    (resources : list Resource) (extract : Resource -> option jsstring)
    (Hids : NoDup (map resourceId resources)) :
  NoDup (map Chatbot.id (Chatbot_indexResources [] resources extract))
  /\ NoDup (map Assistant.id (Assistant_indexResources [] resources extract)).
Proof.
  split.
  - unfold Chatbot_indexResources. cbv zeta.
    rewrite (fold_left_collect extract Chatbot_entries). rewrite app_nil_l.
    apply collected_ids; [apply Chatbot_entries_ids|].
    now apply NoDup_map_slice0, selected_distinct.
  - unfold Assistant_indexResources. cbv zeta.
    rewrite (fold_left_collect extract Assistant_entries). rewrite app_nil_l.
    apply collected_ids; [apply Assistant_entries_ids|].
    now apply NoDup_map_slice0, selected_distinct.
Qed.

Lemma indexResources_unique_ids_witness :
  NoDup (map resourceId Samples.catalogue)
  /\ NoDup (map Chatbot.id
              (Chatbot_indexResources [] Samples.catalogue Samples.pages))
  /\ NoDup (map Assistant.id
              (Assistant_indexResources [] Samples.catalogue Samples.pages)).
Proof.
  assert (Hids : NoDup (map resourceId Samples.catalogue)).
  { repeat constructor; simpl; intuition discriminate. }
  split; [exact Hids|].
  exact (@indexResources_unique_ids asciiCase Samples.catalogue Samples.pages
           Hids).
Defined.

(** * The retrieval step *)

Lemma ranked_head {A} (key : A -> Z) (floor : Z) (k : nat) (l : list A)
    (top : A) (rest : list A) :
  slice0 k (sortBy (fun a b => (key b - key a)%Z)
              (filter (fun i => (key i >? floor)%Z) l)) = top :: rest ->
  In top l
  /\ (floor < key top)%Z
  /\ forall y, In y l -> (key y <= key top)%Z.
Proof.
  intros E.
  pose proof (@sortBy_perm A key (filter (fun i => (key i >? floor)%Z) l))
    as Hp.
  pose proof (@sortBy_sorted A key (filter (fun i => (key i >? floor)%Z) l))
    as Hs.
  destruct (sortBy (fun a b => (key b - key a)%Z)
              (filter (fun i => (key i >? floor)%Z) l)) as [|x sorted];
    [destruct k; discriminate E|].
  destruct k as [|k]; [discriminate E|].
  unfold slice0 in E. cbn [firstn] in E. injection E as -> _.
  assert (Htop : In top (filter (fun i => (key i >? floor)%Z) l)).
  { apply (Permutation_in _ Hp). now left. }
  apply filter_In in Htop. destruct Htop as [Hin Hfl].
  apply Z.gtb_lt in Hfl.
  split; [exact Hin|]. split; [lia|].
  intros y Hy. destruct (key y >? floor)%Z eqn:Ey.
  - assert (Hy' : In y (top :: sorted)).
    { apply (Permutation_in _ (Permutation_sym Hp)).
      apply filter_In. now split. }
    destruct Hy' as [<-|Hy']; [lia|].
    inversion Hs as [|? ? _ Hall]; subst.
    rewrite Forall_forall in Hall. exact (Hall y Hy').
  - assert (~ (floor < key y)%Z).
    { intros Hgt. apply Z.gtb_lt in Hgt. congruence. }
    lia.
Qed.

(** X13.  When the knowledge base is the one the index builder makes, an
    answer found by the retrieval step of [getSmartResponse] is a whole
    chunk of an indexed text followed by a full stop, with the title and the
    category of the chunk's resource; the chunk is at least 20 units long,
    has a positive score for the input, and no chunk of the knowledge base
    scores higher. *)
Theorem retrieve_whole_chunk `{CaseMapping} (resources : list Resource)
    (extract : Resource -> option jsstring) (input : jsstring)
    (result : Chatbot.Answer) :
  let kb := Chatbot_indexResources [] resources extract in
  let rate e :=
    Chatbot.score (Chatbot.scoreItem input (Chatbot.extractKeywords input) e)
  in
  Responder.retrieve kb input = Some result ->
  exists r text idx chunk top,
    In r (slice0 5 (filter Chatbot_eligible resources))
    /\ extract r = Some text
    /\ nth_error (Chatbot.splitIntoChunks text 500) idx = Some chunk
    /\ In top kb
    /\ Chatbot.id top = entryId r idx
    /\ Chatbot.content top = chunk
    /\ Chatbot.answer result = chunk ++ js "."
    /\ Chatbot.source result = resourceTitle r
    /\ Chatbot.answerCategory result = resourceCategory r
    /\ 20 <= length chunk
    /\ (0 < rate top)%Z
    /\ forall e, In e kb -> (rate e <= rate top)%Z.
Proof.
  intros kb rate. unfold Responder.retrieve. cbv zeta.
  destruct (Chatbot.searchKnowledge kb input 3) as [|best rest] eqn:Es;
    [discriminate|].
  change (0 <? length (best :: rest)) with true. cbv iota.
  unfold Chatbot.searchKnowledge in Es. cbv zeta in Es.
  destruct (length (Chatbot.extractKeywords input) =? 0); [discriminate Es|].
  apply ranked_head in Es. destruct Es as (Hin & Hpos & Hmax).
  apply in_map_iff in Hin. destruct Hin as (top & <- & Htop).
  destruct (proj1 (Chatbot_indexed resources extract [] top) Htop)
    as [[]|(r & text & idx & chunk & Hr & Et & _ & Hn & Etop)].
  assert (Hc : In (Chatbot.content top) (Chatbot.splitIntoChunks text 500)).
  { rewrite Etop. cbn [Chatbot.content]. eapply nth_error_In, Hn. }
  apply Chatbot_chunk_facts in Hc. destruct Hc as [Hno Htrim].
  rewrite (@Chatbot_generateAnswer_solid _ input
             (Chatbot.scoreItem input (Chatbot.extractKeywords input) top)
             rest Hno Htrim).
  change (Chatbot.item (Chatbot.scoreItem input
                          (Chatbot.extractKeywords input) top)) with top.
  cbn [Chatbot.answer].
  assert (Econtent : Chatbot.content top = chunk) by now rewrite Etop.
  destruct (10 <? length (Chatbot.content top)) eqn:E10;
    [|change (length ([] ++ js ".")) with 1; change (20 <? 1) with false;
      cbv iota; discriminate].
  rewrite length_app. change (length (js ".")) with 1.
  destruct (20 <? length (Chatbot.content top) + 1) eqn:Elen;
    [|discriminate].
  apply Nat.ltb_lt in Elen.
  intros Eres. injection Eres as <-.
  cbn [Chatbot.answer Chatbot.source Chatbot.answerCategory].
  exists r, text, idx, chunk, top. rewrite Econtent in *.
  split; [exact Hr|]. split; [exact Et|]. split; [exact Hn|].
  split; [exact Htop|]. split; [now rewrite Etop|].
  split; [reflexivity|]. split; [reflexivity|].
  split; [now rewrite Etop|]. split; [now rewrite Etop|].
  split; [lia|]. split; [exact Hpos|].
  intros e He. apply Hmax. apply in_map_iff. now exists e.
Qed.

Lemma retrieve_whole_chunk_witness :
  exists result chunk,
    Responder.retrieve
      (Chatbot_indexResources [] Samples.catalogue Samples.pages)
      (js "water life") = Some result
    /\ Chatbot.answer result = chunk ++ js "."
    /\ 20 <= length chunk.
Proof.
  destruct (Responder.retrieve
              (Chatbot_indexResources [] Samples.catalogue Samples.pages)
              (js "water life")) as [result|] eqn:E.
  - destruct (@retrieve_whole_chunk asciiCase Samples.catalogue Samples.pages
                (js "water life") result E)
      as (r & text & idx & chunk & top & _ & _ & _ & _ & _ & _ & Ha & _ & _
          & Hl & _).
    exists result, chunk. repeat split; assumption.
  - vm_compute in E. discriminate E.
Defined.

(** * The quiz module *)

Section Shuffle.

Context {A : Type}.

Lemma nth_error_assign_eq (l : list A) (i : nat) (x : A) :
  i < length l -> nth_error (Quiz.assign l i x) i = Some x.
Proof.
  revert i. induction l as [|y l IH]; intros [|i] Hi; simpl in *;
    try lia; [reflexivity | apply IH; lia].
Qed.

Lemma nth_error_assign_neq (l : list A) (i j : nat) (x : A) :
  i <> j -> nth_error (Quiz.assign l i x) j = nth_error l j.
Proof.
  revert i j. induction l as [|y l IH]; intros [|i] [|j] Hij; simpl;
    try reflexivity; [congruence | apply IH; congruence].
Qed.

Lemma assign_perm (l : list A) (i : nat) (x y : A) :
  nth_error l i = Some y ->
  Permutation (x :: l) (y :: Quiz.assign l i x).
Proof.
  revert i. induction l as [|z l IH]; intros [|i] Hi; simpl in *;
    try discriminate.
  - injection Hi as ->. apply perm_swap.
  - rewrite (perm_swap z x l), (perm_swap z y (Quiz.assign l i x)).
    apply perm_skip, IH, Hi.
Qed.

Lemma swap_perm (l : list A) (i j : nat) : Permutation (Quiz.swap l i j) l.
Proof.
  unfold Quiz.swap.
  destruct (nth_error l j) as [aj|] eqn:Ej; [|reflexivity].
  destruct (nth_error l i) as [ai|] eqn:Ei; [|reflexivity].
  assert (Hj : nth_error (Quiz.assign l i aj) j = Some aj).
  { destruct (Nat.eq_dec i j) as [<-|Hij].
    - apply nth_error_assign_eq, nth_error_Some. congruence.
    - now rewrite nth_error_assign_neq. }
  symmetry. apply Permutation_cons_inv with (a := aj).
  rewrite (@assign_perm l i aj ai Ei).
  exact (@assign_perm (Quiz.assign l i aj) j ai aj Hj).
Qed.

Lemma shuffleFrom_perm (draw : nat -> nat) (i : nat) (l : list A) :
  Permutation (Quiz.shuffleFrom draw i l) l.
Proof.
  revert l. induction i as [|i IH]; intros l; simpl; [reflexivity|].
  rewrite IH. apply swap_perm.
Qed.

End Shuffle.

(** X14.  Whatever numbers [Math.random] gives, [shuffleArray] returns a
    rearrangement of its array: every element as many times as before. *)
Theorem shuffleArray_perm {A} (draw : nat -> nat) (array : list A) :
  Permutation (Quiz.shuffleArray draw array) array.
Proof. apply shuffleFrom_perm. Qed.

(** X15.  [getRandomQuestions] returns nothing for a subject that the bank
    does not have; for a subject of the bank it returns [count] questions, or
    the whole pool of the difficulty when that is smaller, and together with
    the questions it leaves out they are a rearrangement of the pool: no
    question is returned more often than the pool has it. *)
Theorem getRandomQuestions_draws (draw : nat -> nat)
    (questionBank : jsstring -> option Quiz.Bank) (subject : jsstring)
    (d : Quiz.Difficulty) (count : nat) :
  let drawn := Quiz.getRandomQuestions draw questionBank subject d count in
  match questionBank subject with
  | None => drawn = []
  | Some subjectQuestions =>
      length drawn = Nat.min count (length (Quiz.pool subjectQuestions d))
      /\ exists rest,
           Permutation (drawn ++ rest) (Quiz.pool subjectQuestions d)
  end.
Proof.
  unfold Quiz.getRandomQuestions.
  destruct (questionBank subject) as [b|]; cbv zeta; [|reflexivity].
  pose proof (shuffleFrom_perm draw (length (Quiz.pool b d) - 1)
                (Quiz.pool b d)) as Hp.
  fold (Quiz.shuffleArray draw (Quiz.pool b d)) in Hp.
  rewrite (Permutation_length Hp) at 1. split.
  - unfold slice0. rewrite length_firstn, (Permutation_length Hp). lia.
  - exists (skipn (Nat.min count (length (Quiz.pool b d)))
              (Quiz.shuffleArray draw (Quiz.pool b d))).
    unfold slice0. rewrite (Permutation_length Hp).
    now rewrite firstn_skipn.
Qed.

Import Quiz.

Lemma selectAnswer_inPlay (st : State) (index : nat) :
  inPlay st ->
  exists question_,
    nth_error (questions st) (currentIndex st) = Some question_
    /\ selectAnswer st index
       = Some {| questions := questions st;
                 currentIndex := currentIndex st;
                 score := if index =? answer question_ then S (score st)
                          else score st;
                 answers := answers st ++ [record index question_];
                 subject := subject st;
                 difficulty := difficulty st;
                 startTime := startTime st |}.
Proof.
  unfold inPlay, selectAnswer. intros Hp.
  destruct (nth_error (questions st) (currentIndex st)) as [qn|] eqn:E.
  - exists qn. split; reflexivity.
  - apply nth_error_None in E. lia.
Qed.

Lemma rightAnswers_snoc (l : list Recorded) (r : Recorded) :
  rightAnswers (l ++ [r])
  = if isCorrect r then S (rightAnswers l) else rightAnswers l.
Proof.
  unfold rightAnswers. rewrite filter_app, length_app. simpl.
  destruct (isCorrect r); simpl; lia.
Qed.

Lemma rightAnswers_cons (r : Recorded) (l : list Recorded) :
  rightAnswers (r :: l)
  = (if isCorrect r then 1 else 0) + rightAnswers l.
Proof. unfold rightAnswers. simpl. now destruct (isCorrect r). Qed.

Lemma step_inPlay (st : State) (e : Event) :
  inPlay st -> score st = rightAnswers (answers st) ->
  exists st',
    step st e = Some st'
    /\ inPlay st'
    /\ score st' = rightAnswers (answers st')
    /\ Permutation (questions st') (questions st)
    /\ subject st' = subject st
    /\ difficulty st' = difficulty st.
Proof.
  intros Hp Hs. destruct e as [index| |draw now]; simpl.
  - destruct (selectAnswer_inPlay index Hp) as (qn & _ & ->).
    eexists. split; [reflexivity|]. unfold inPlay. simpl.
    rewrite rightAnswers_snoc. simpl.
    repeat split; auto. destruct (index =? answer qn); lia.
  - unfold nextQuestion.
    destruct (S (currentIndex st) <? length (questions st)) eqn:E;
      eexists; (split; [reflexivity|]); unfold inPlay; simpl;
      repeat split; auto.
    now apply Nat.ltb_lt in E.
  - eexists. split; [reflexivity|]. unfold inPlay, rightAnswers. simpl.
    pose proof (shuffleFrom_perm draw (length (questions st) - 1)
                  (questions st)) as P.
    fold (shuffleArray draw (questions st)) in P.
    repeat split; auto.
    rewrite (Permutation_length P). unfold inPlay in Hp. lia.
Qed.

Lemma run_inPlay (events : list Event) (st : State) :
  inPlay st -> score st = rightAnswers (answers st) ->
  exists st',
    run events st = Some st'
    /\ inPlay st'
    /\ score st' = rightAnswers (answers st')
    /\ Permutation (questions st') (questions st)
    /\ subject st' = subject st
    /\ difficulty st' = difficulty st.
Proof.
  revert st. induction events as [|e events IH]; intros st Hp Hs; simpl.
  - exists st. repeat split; auto.
  - destruct (step_inPlay e Hp Hs) as (st1 & -> & Hp1 & Hs1 & P1 & S1 & D1).
    destruct (IH st1 Hp1 Hs1) as (st' & -> & Hp' & Hs' & P' & S' & D').
    exists st'. repeat split; auto; try congruence.
    now rewrite P'.
Qed.

(** X16.  Once [startQuiz] has started a quiz, no sequence of answers, of
    steps to the next question and of restarts makes [selectAnswer] fail
    for want of a current question.  After any such sequence the index still
    points at a question, the score is the number of recorded answers that
    are correct, the questions are a rearrangement of the ones drawn at the
    start, and the subject and the difficulty are the ones chosen. *)
Theorem quiz_session_safe (draw : nat -> nat)
    (questionBank : jsstring -> option Bank) (now : Z) (subject_ : jsstring)
    (d : Difficulty) (count : nat) (currentQuiz : State)
    (events : list Event) :
  subject_ <> [] ->
  getRandomQuestions draw questionBank subject_ d count <> [] ->
  exists st,
    run events
        (startQuiz draw questionBank now subject_ (Some d) count currentQuiz)
    = Some st
    /\ currentIndex st < length (questions st)
    /\ score st = rightAnswers (answers st)
    /\ Permutation (questions st)
                   (getRandomQuestions draw questionBank subject_ d count)
    /\ subject st = subject_
    /\ difficulty st = difficultyName d.
Proof.
  intros Hsub Hqs. unfold startQuiz.
  destruct subject_ as [|c subject_]; [congruence|].
  destruct (getRandomQuestions draw questionBank (c :: subject_) d count)
    as [|qn qs] eqn:E; [congruence|].
  apply run_inPlay.
  - unfold inPlay. simpl. lia.
  - reflexivity.
Qed.

Lemma quiz_session_safe_witness :
  exists st,
    run [Select 2; Select 0; Next; Restart (fun _ => 0) 9%Z; Select 1; Next;
         Next; Select 3]
        (startQuiz (fun i => i) Samples.bank 5%Z (js "science") (Some Mixed) 5
           {| questions := []; currentIndex := 0; score := 0; answers := [];
              subject := []; difficulty := []; startTime := 0 |})
    = Some st
    /\ currentIndex st < length (questions st)
    /\ score st = rightAnswers (answers st).
Proof.
  destruct (@quiz_session_safe (fun i => i) Samples.bank 5%Z (js "science")
              Mixed 5
              {| questions := []; currentIndex := 0; score := 0;
                 answers := []; subject := []; difficulty := [];
                 startTime := 0 |}
              [Select 2; Select 0; Next; Restart (fun _ => 0) 9%Z; Select 1;
               Next; Next; Select 3])
    as (st & E & Hi & Hs & _).
  - discriminate.
  - vm_compute. discriminate.
  - exists st. repeat split; assumption.
Defined.

(** X17.  [selectAnswer] does not check whether the current question has
    been answered: called [n] times with the right option of the current
    question it records [n] answers and adds [n] to the score, which can so
    exceed the number of questions. *)
Theorem selectAnswer_counts_again (st : State) (question_ : Question)
    (n : nat) :
  nth_error (questions st) (currentIndex st) = Some question_ ->
  exists st',
    run (repeat (Select (answer question_)) n) st = Some st'
    /\ score st' = score st + n
    /\ answers st'
       = answers st ++ repeat (record (answer question_) question_) n
    /\ questions st' = questions st
    /\ currentIndex st' = currentIndex st.
Proof.
  revert st. induction n as [|n IH]; intros st E; simpl.
  - exists st. rewrite app_nil_r. repeat split; auto.
  - unfold selectAnswer. rewrite E. cbv zeta. rewrite Nat.eqb_refl.
    match goal with |- context [run _ ?s] => destruct (IH s E)
      as (st' & -> & Hs & Ha & Hq & Hi) end.
    exists st'. simpl in *. rewrite Hs, Ha, Hq, Hi, <- app_assoc.
    unfold record. rewrite Nat.eqb_refl.
    repeat split; auto; lia.
Qed.

Lemma selectAnswer_counts_again_witness :
  let st := {| questions := [Samples.ask "What planet do we live on?" 2];
               currentIndex := 0; score := 0; answers := [];
               subject := js "science"; difficulty := js "easy";
               startTime := 0 |} in
  exists st',
    run [Select 2; Select 2; Select 2] st = Some st'
    /\ score st' = 3
    /\ length (questions st') = 1.
Proof.
  cbv zeta.
  destruct (@selectAnswer_counts_again
              {| questions := [Samples.ask "What planet do we live on?" 2];
                 currentIndex := 0; score := 0; answers := [];
                 subject := js "science"; difficulty := js "easy";
                 startTime := 0 |}
              (Samples.ask "What planet do we live on?" 2) 3 eq_refl)
    as (st' & E & Hs & _ & Hq & _).
  exists st'. split; [exact E|]. split; [exact Hs|]. now rewrite Hq.
Defined.

Lemma skipn_nth_error {A} (l : list A) (i : nat) (x : A) :
  nth_error l i = Some x -> skipn i l = x :: skipn (S i) l.
Proof.
  revert i. induction l as [|y l IH]; intros [|i] E; simpl in *;
    try discriminate.
  - now injection E as ->.
  - now apply IH.
Qed.

(** X18.  A player who answers the current question once and then asks for
    the next one, choice after choice, gets the choices recorded against
    the questions in their order, and a score raised by the number of
    choices that are the right option; the index moves on by one per
    choice and stops at the last question. *)
Theorem quiz_played_in_order (choices : list nat) (st : State) :
  currentIndex st < length (questions st) ->
  currentIndex st + length choices <= length (questions st) ->
  let played :=
    map (fun p => record (fst p) (snd p))
        (combine choices (skipn (currentIndex st) (questions st))) in
  exists st',
    run (turns choices) st = Some st'
    /\ answers st' = answers st ++ played
    /\ score st' = score st + rightAnswers played
    /\ questions st' = questions st
    /\ currentIndex st'
       = Nat.min (currentIndex st + length choices)
                 (length (questions st) - 1).
Proof.
  revert st. induction choices as [|c choices IH]; intros st Hp Hl; cbv zeta.
  - exists st. simpl. rewrite app_nil_r. unfold rightAnswers. simpl.
    repeat split; auto; lia.
  - destruct (selectAnswer_inPlay c Hp) as (qn & Eq & Es).
    unfold turns. simpl. rewrite Es. fold (turns choices).
    rewrite (skipn_nth_error _ _ Eq). simpl in Hl.
    unfold nextQuestion. cbn [questions currentIndex fst].
    destruct (S (currentIndex st) <? length (questions st)) eqn:En.
    + apply Nat.ltb_lt in En. cbn [fst].
      match goal with |- context [run _ ?s] =>
        destruct (IH s) as (st' & -> & Ha & Hs & Hq & Hi) end;
        [simpl; lia | simpl; lia |].
      exists st'. cbn [questions currentIndex score answers] in *.
      rewrite Ha, Hs, Hq, Hi. cbn [combine map fst snd].
      rewrite <- app_assoc, rightAnswers_cons.
      cbn [app].
      repeat split; auto; try lia.
      unfold record. cbn [isCorrect]. destruct (c =? answer qn); lia.
    + apply Nat.ltb_ge in En. cbn [fst].
      destruct choices as [|c' choices]; [|simpl in Hl; lia].
      exists {| questions := questions st;
                currentIndex := currentIndex st;
                score := if c =? answer qn then S (score st) else score st;
                answers := answers st ++ [record c qn];
                subject := subject st;
                difficulty := difficulty st;
                startTime := startTime st |}.
      simpl. unfold rightAnswers, record. simpl.
      repeat split; auto; try lia.
      destruct (c =? answer qn); simpl; lia.
Qed.

Lemma quiz_played_in_order_witness :
  let st := {| questions := [Samples.ask "What planet do we live on?" 2;
                             Samples.ask "What gas do plants absorb?" 1];
               currentIndex := 0; score := 0; answers := [];
               subject := js "science"; difficulty := js "easy";
               startTime := 0 |} in
  exists st',
    run (turns [2; 0]) st = Some st'
    /\ score st' = 1
    /\ map isCorrect (answers st') = [true; false]
    /\ currentIndex st' = 1.
Proof.
  cbv zeta.
  destruct (@quiz_played_in_order [2; 0]
              {| questions := [Samples.ask "What planet do we live on?" 2;
                               Samples.ask "What gas do plants absorb?" 1];
                 currentIndex := 0; score := 0; answers := [];
                 subject := js "science"; difficulty := js "easy";
                 startTime := 0 |})
    as (st' & E & Ha & Hs & _ & Hi).
  - simpl. lia.
  - simpl. lia.
  - exists st'. split; [exact E|]. rewrite Ha, Hs, Hi.
    repeat split; reflexivity.
Defined.

(** ** The history of the quizzes *)

Lemma saveQuizHistory_step (entry : Entry) (h : list Entry) :
  saveQuizHistory true entry (History h)
  = History (skipn (if 50 <=? length h then 1 else 0) (h ++ [entry])).
Proof.
  unfold saveQuizHistory. cbv beta iota zeta.
  assert (Hb : (50 <? length (h ++ [entry])) = (50 <=? length h)).
  { rewrite length_app. cbn [length].
    destruct (50 <=? length h) eqn:E.
    - apply Nat.leb_le in E. apply Nat.ltb_lt. lia.
    - apply Nat.leb_gt in E. apply Nat.ltb_ge. lia. }
  rewrite Hb. destruct (50 <=? length h); [|reflexivity].
  destruct (h ++ [entry]); reflexivity.
Qed.

(** X19.  Saving quizzes one after another keeps the entries in the order
    they were saved, the newest last, and drops from the front exactly what
    is beyond fifty: one earlier entry per quiz saved once fifty are held.
    A history that holds fifty entries or fewer never grows beyond fifty; a
    longer one, which only other code can have stored, is never cut down. *)
Theorem saveQuizHistory_keeps_recent (entries h : list Entry) :
  fold_left (fun stored entry => saveQuizHistory true entry stored)
            entries (History h)
  = History
      (skipn (Nat.min (length entries) (length h + length entries - 50))
             (h ++ entries)).
Proof.
  revert h. induction entries as [|e entries IH]; intros h.
  - simpl. now rewrite app_nil_r.
  - cbn [fold_left]. rewrite saveQuizHistory_step, IH. f_equal.
    assert (Hd : skipn (if 50 <=? length h then 1 else 0) (h ++ [e])
                 ++ entries
                 = skipn (if 50 <=? length h then 1 else 0)
                         (h ++ e :: entries)).
    { destruct (50 <=? length h) eqn:E.
      - apply Nat.leb_le in E.
        destruct h as [|x h]; [cbn [length] in E; lia|].
        cbn [app skipn]. now rewrite <- app_assoc.
      - cbn [skipn]. now rewrite <- app_assoc. }
    rewrite Hd, skipn_skipn. f_equal.
    rewrite length_skipn, length_app. cbn [length].
    destruct (50 <=? length h) eqn:E;
      [apply Nat.leb_le in E | apply Nat.leb_gt in E]; lia.
Qed.

Section Streak.

Let passed (e : Entry) : Prop := (percentage e >= 70)%Z.

Let streakStep (acc : nat * nat) (e : Entry) : nat * nat :=
  let (bestStreak, currentStreak) := acc in
  if (percentage e >=? 70)%Z
  then (Nat.max bestStreak (S currentStreak), S currentStreak)
  else (bestStreak, 0).

(** What the loop holds after the entries [l]: the length of the run of
    passed quizzes that ends [l], and of the longest run in [l]. *)
Let streaks (l : list Entry) (best cur : nat) : Prop :=
  (forall a r, l = a ++ r -> Forall passed r -> length r <= cur)
  /\ (exists a r, l = a ++ r /\ Forall passed r /\ length r = cur)
  /\ (forall a r b, l = a ++ r ++ b -> Forall passed r -> length r <= best)
  /\ (exists a r b, l = a ++ r ++ b /\ Forall passed r /\ length r = best).

Lemma snoc_cases {A} (l : list A) : l = [] \/ exists l' x, l = l' ++ [x].
Proof.
  destruct (rev l) as [|x r] eqn:E.
  - left. apply (f_equal (@rev A)) in E. now rewrite rev_involutive in E.
  - right. exists (rev r), x.
    apply (f_equal (@rev A)) in E. now rewrite rev_involutive in E.
Qed.

Lemma streaks_loop (l : list Entry) :
  let acc := fold_left streakStep l (0, 0) in
  streaks l (fst acc) (snd acc).
Proof.
  induction l as [|e l IH] using rev_ind; cbv zeta.
  - simpl. unfold streaks. repeat split.
    + intros a r E _. symmetry in E. apply app_eq_nil in E.
      destruct E as [_ ->]. simpl. lia.
    + exists [], []. repeat split. constructor.
    + intros a r b E _. symmetry in E. apply app_eq_nil in E.
      destruct E as [_ E]. apply app_eq_nil in E. destruct E as [-> _].
      simpl. lia.
    + exists [], [], []. repeat split. constructor.
  - rewrite fold_left_app. cbn [fold_left]. cbv zeta in IH.
    destruct (fold_left streakStep l (0, 0)) as [best cur].
    cbn [fst snd] in IH.
    destruct IH as (Hsuf & (a0 & r0 & El & Hr0 & Hc) & Hrun & Hbest).
    unfold streakStep.
    destruct (percentage e >=? 70)%Z eqn:Ep; cbn [fst snd].
    + assert (Hpe : passed e) by (unfold passed; lia).
      assert (Hsuf' : forall a r, l ++ [e] = a ++ r -> Forall passed r ->
                                  length r <= S cur).
      { intros a r E Hr. destruct (snoc_cases r) as [->|(r' & x & ->)].
        - simpl. lia.
        - rewrite app_assoc in E. apply app_inj_tail in E.
          destruct E as [E _]. rewrite length_app. simpl.
          apply Forall_app in Hr. destruct Hr as [Hr _].
          specialize (Hsuf a r' E Hr). lia. }
      repeat split.
      * exact Hsuf'.
      * exists a0, (r0 ++ [e]). rewrite app_assoc, <- El.
        repeat split.
        -- apply Forall_app. split; [exact Hr0 | now constructor].
        -- rewrite length_app. simpl. lia.
      * intros a r b E Hr. destruct (snoc_cases b) as [->|(b' & x & ->)].
        -- rewrite app_nil_r in E. specialize (Hsuf' a r E Hr). lia.
        -- rewrite !app_assoc in E. apply app_inj_tail in E.
           destruct E as [E _]. rewrite <- app_assoc in E.
           specialize (Hrun a r b' E Hr). lia.
      * destruct (Nat.max_spec best (S cur)) as [[Hlt ->]|[Hge ->]].
        -- exists a0, (r0 ++ [e]), []. rewrite app_nil_r, app_assoc, <- El.
           repeat split.
           ++ apply Forall_app. split; [exact Hr0 | now constructor].
           ++ rewrite length_app. simpl. lia.
        -- destruct Hbest as (a & r & b & E & Hr & Hb).
           exists a, r, (b ++ [e]). rewrite !app_assoc.
           rewrite <- (app_assoc a r b), <- E. repeat split; assumption.
    + assert (Hpe : ~ passed e) by (unfold passed; lia).
      repeat split.
      * intros a r E Hr. destruct (snoc_cases r) as [->|(r' & x & ->)].
        -- simpl. lia.
        -- rewrite app_assoc in E. apply app_inj_tail in E.
           destruct E as [_ <-]. apply Forall_app in Hr.
           destruct Hr as [_ Hr]. inversion Hr. contradiction.
      * exists (l ++ [e]), []. rewrite app_nil_r. repeat split. constructor.
      * intros a r b E Hr. destruct (snoc_cases b) as [->|(b' & x & ->)].
        -- rewrite app_nil_r in E.
           destruct (snoc_cases r) as [->|(r' & x & ->)]; [simpl; lia|].
           rewrite app_assoc in E. apply app_inj_tail in E.
           destruct E as [_ <-]. apply Forall_app in Hr.
           destruct Hr as [_ Hr]. inversion Hr. contradiction.
        -- rewrite !app_assoc in E. apply app_inj_tail in E.
           destruct E as [E _]. rewrite <- app_assoc in E.
           exact (Hrun a r b' E Hr).
      * destruct Hbest as (a & r & b & E & Hr & Hb).
        exists a, r, (b ++ [e]). rewrite !app_assoc.
        rewrite <- (app_assoc a r b), <- E. repeat split; assumption.
Qed.

(** X20.  The best streak shown in the statistics is the length of the
    longest run of consecutive quizzes of the history with 70 percent or
    more: there is such a run of that length, and none is longer. *)
Theorem bestStreak_longest_run (history : list Entry) :
  (exists before run after,
     history = before ++ run ++ after
     /\ Forall (fun e => (percentage e >= 70)%Z) run
     /\ length run = bestStreak history)
  /\ (forall before run after,
        history = before ++ run ++ after ->
        Forall (fun e => (percentage e >= 70)%Z) run ->
        length run <= bestStreak history).
Proof.
  destruct (streaks_loop history) as (_ & _ & Hrun & Hbest).
  split; [exact Hbest | exact Hrun].
Qed.

End Streak.

Lemma decimal_only_digits (n : nat) (u : N) :
  In u (Indexing.decimal n) -> (48 <= u <= 57)%N.
Proof.
  intros Hin. unfold Indexing.decimal in Hin.
  pose proof (digits_are_digits (Nat.to_uint n)) as F.
  rewrite Forall_forall in F. exact (F u Hin).
Qed.

(** X21.  [formatTime] shows different whole numbers of seconds
    differently: the duration can be read back from what is displayed. *)
Theorem formatTime_inj (s t : nat) : formatTime s = formatTime t <-> s = t.
Proof.
  split; [|now intros ->].
  assert (Hm : forall n r, In 109%N (Indexing.decimal n ++ r) -> In 109%N r).
  { intros n r Hin. apply in_app_or in Hin. destruct Hin as [Hin|Hin];
      [apply decimal_only_digits in Hin; lia | exact Hin]. }
  assert (Hcross : forall a b,
            Indexing.decimal a ++ js "s"
            <> Indexing.decimal (b / 60) ++ js "m "
               ++ Indexing.decimal (b mod 60) ++ js "s").
  { intros a b E.
    assert (Hin : In 109%N (Indexing.decimal a ++ js "s")).
    { rewrite E. apply in_or_app. right. now left. }
    apply Hm in Hin. destruct Hin as [Hin|[]]. discriminate Hin. }
  unfold formatTime.
  destruct (s <? 60) eqn:Es; destruct (t <? 60) eqn:Et; intros E.
  - apply app_inv_tail in E. now apply decimal_inj.
  - now apply Hcross in E.
  - symmetry in E. now apply Hcross in E.
  - apply Nat.ltb_ge in Es, Et.
    change (js "m " ++ ?r) with (109%N :: 32%N :: r) in E.
    apply app_sep_last in E.
    + destruct E as [Em Er].
      assert (Ed : s / 60 = t / 60) by (apply decimal_inj; exact Em).
      assert (Eo : s mod 60 = t mod 60).
      { apply decimal_inj. injection Er as Er.
        apply app_inv_tail in Er. exact Er. }
      pose proof (Nat.div_mod_eq s 60) as Hs.
      pose proof (Nat.div_mod_eq t 60) as Ht.
      rewrite Ed, Eo in Hs. congruence.
    + intros [Hin|Hin]; [discriminate Hin|].
      apply Hm in Hin. destruct Hin as [Hin|[]]. discriminate Hin.
    + intros [Hin|Hin]; [discriminate Hin|].
      apply Hm in Hin. destruct Hin as [Hin|[]]. discriminate Hin.
Qed.

(** ** The quick quiz *)

Lemma startsWith_spec (s p : jsstring) :
  startsWith s p = true <-> exists post, s = p ++ post.
Proof.
  revert s. induction p as [|a p IH]; intros [|b s]; cbn [startsWith].
  - split; [intros _; now exists [] | reflexivity].
  - split; [intros _; now exists (b :: s) | reflexivity].
  - split; [discriminate | intros (post & E); discriminate E].
  - rewrite andb_true_iff, IH. unfold unit_eqb. rewrite N.eqb_eq. split.
    + intros (-> & post & ->). now exists post.
    + intros (post & E). injection E as -> ->. split; [reflexivity|].
      now exists post.
Qed.

Lemma includes_spec (s needle : jsstring) :
  includes s needle = true <-> exists pre post, s = pre ++ needle ++ post.
Proof.
  induction s as [|c s IH].
  - cbn [includes]. rewrite orb_false_r, startsWith_spec. split.
    + intros (post & E). now exists [], post.
    + intros (pre & post & E). destruct pre; [now exists post|discriminate E].
  - cbn [includes]. rewrite orb_true_iff, startsWith_spec, IH. split.
    + intros [(post & E)|(pre & post & E)].
      * now exists [], post.
      * exists (c :: pre), post. simpl. now rewrite E.
    + intros (pre & post & E). destruct pre as [|x pre].
      * left. now exists post.
      * right. injection E as _ E. now exists pre, post.
Qed.

(** X22.  [checkQuizAnswer] answers only while a question is open, and it
    closes the question.  It marks an answer as correct exactly when, in
    lower case, the trimmed answer contains the expected answer or is
    contained in it; in all other cases it marks it incorrect.  Both cards
    show the expected answer. *)
Theorem checkQuizAnswer_verdict `{CaseMapping} (userAnswer : jsstring) :
  MiniQuiz.checkQuizAnswer None userAnswer = (None, None)
  /\ forall question,
       let correct := toLowerCase (MiniQuiz.a question) in
       let answer := trim (toLowerCase userAnswer) in
       let within (x y : jsstring) := exists pre post, y = pre ++ x ++ post in
       (within correct answer \/ within answer correct
        -> MiniQuiz.checkQuizAnswer (Some question) userAnswer
           = (Some (MiniQuiz.Correct (MiniQuiz.a question)), None))
       /\ (~ (within correct answer \/ within answer correct)
           -> MiniQuiz.checkQuizAnswer (Some question) userAnswer
              = (Some (MiniQuiz.Incorrect (MiniQuiz.a question)), None)).
Proof.
  split; [reflexivity|]. intros question. cbv zeta.
  unfold MiniQuiz.checkQuizAnswer. cbv zeta.
  set (correct := toLowerCase (MiniQuiz.a question)).
  set (answer := trim (toLowerCase userAnswer)).
  destruct (str_eqb answer correct || includes answer correct
            || includes correct answer) eqn:E.
  - split; [reflexivity|]. intros Hn. exfalso. apply Hn.
    rewrite !orb_true_iff, !includes_spec, str_eqb_eq in E.
    destruct E as [[E|E]|E]; [|now left|now right].
    left. exists [], []. now rewrite app_nil_r, E.
  - split; [|reflexivity]. intros Hw. exfalso.
    rewrite !orb_false_iff in E. destruct E as [[_ E1] E2].
    destruct Hw as [Hw|Hw]; apply includes_spec in Hw; congruence.
Qed.

Lemma checkQuizAnswer_verdict_witness :
  let question :=
    {| MiniQuiz.q := js "What is H2O commonly known as?";
       MiniQuiz.a := js "Water";
       MiniQuiz.hint := js "You drink it every day";
       MiniQuiz.subject := js "science" |} in
  MiniQuiz.checkQuizAnswer (Some question) (js " Water! ")
  = (Some (MiniQuiz.Correct (js "Water")), None)
  /\ MiniQuiz.checkQuizAnswer (Some question) (js "ice")
     = (Some (MiniQuiz.Incorrect (js "Water")), None).
Proof.
  cbv zeta. split.
  - destruct (@checkQuizAnswer_verdict asciiCase (js " Water! ")) as [_ Hv].
    apply Hv. left. exists [], (js "!"). reflexivity.
  - destruct (@checkQuizAnswer_verdict asciiCase (js "ice")) as [_ Hv].
    apply Hv. intros [(pre & post & E)|(pre & post & E)].
    + assert (Hi : includes (js "ice") (js "water") = true)
        by (apply includes_spec; exists pre, post; exact E).
      discriminate Hi.
    + assert (Hi : includes (js "water") (js "ice") = true)
        by (apply includes_spec; exists pre, post; exact E).
      discriminate Hi.
Defined.

(** X23.  An answer that is blank once trimmed is marked correct, whatever
    the question: the empty string is contained in every expected
    answer. *)
Theorem checkQuizAnswer_blank `{CaseMapping} (question : MiniQuiz.Question)
    (userAnswer : jsstring) :
  trim (toLowerCase userAnswer) = [] ->
  MiniQuiz.checkQuizAnswer (Some question) userAnswer
  = (Some (MiniQuiz.Correct (MiniQuiz.a question)), None).
Proof.
  intros E. unfold MiniQuiz.checkQuizAnswer. cbv zeta. rewrite E.
  replace (includes (toLowerCase (MiniQuiz.a question)) []) with true.
  - now rewrite orb_true_r.
  - symmetry. apply includes_spec.
    exists [], (toLowerCase (MiniQuiz.a question)). reflexivity.
Qed.

Lemma checkQuizAnswer_blank_witness :
  let question :=
    {| MiniQuiz.q := js "What is H2O commonly known as?";
       MiniQuiz.a := js "Water";
       MiniQuiz.hint := js "You drink it every day";
       MiniQuiz.subject := js "science" |} in
  trim (toLowerCase (js "  ")) = []
  /\ MiniQuiz.checkQuizAnswer (Some question) (js "  ")
     = (Some (MiniQuiz.Correct (js "Water")), None).
Proof.
  cbv zeta. split; [reflexivity|].
  exact (@checkQuizAnswer_blank asciiCase
           {| MiniQuiz.q := js "What is H2O commonly known as?";
              MiniQuiz.a := js "Water";
              MiniQuiz.hint := js "You drink it every day";
              MiniQuiz.subject := js "science" |}
           (js "  ") eq_refl).
Defined.

(** * The search stages of the assistant *)

Lemma slice0_slice0 {A} (i j : nat) (l : list A) :
  i <= j -> slice0 i (slice0 j l) = slice0 i l.
Proof.
  intros Hij. unfold slice0. rewrite firstn_firstn.
  now rewrite Nat.min_l.
Qed.

Lemma Assistant_generateAnswer_first `{CaseMapping} (query : jsstring)
    (contexts : list Assistant.Scored) :
  Assistant.generateAnswer query (slice0 3 contexts)
  = Assistant.generateAnswer query contexts.
Proof.
  destruct contexts as [|first rest]; [reflexivity|].
  unfold Assistant.generateAnswer.
  change (slice0 3 (first :: rest)) with (first :: slice0 2 rest).
  unfold Assistant.combine.
  change (first :: slice0 2 rest) with (slice0 3 (first :: rest)).
  rewrite slice0_slice0 by lia. reflexivity.
Qed.

Lemma Assistant_searchKnowledge_slice `{CaseMapping}
    (kb : list Assistant.Item) (query : jsstring) (i j : nat) :
  i <= j ->
  slice0 i (Assistant.searchKnowledge kb query j)
  = Assistant.searchKnowledge kb query i.
Proof.
  intros Hij. unfold Assistant.searchKnowledge. cbv zeta.
  destruct (length (Assistant.extractKeywords query) =? 0).
  - now destruct i.
  - now apply slice0_slice0.
Qed.

Lemma Assistant_answer_of_three `{CaseMapping} (kb : list Assistant.Item)
    (query : jsstring) (k : nat) :
  3 <= k ->
  Assistant.generateAnswer query (Assistant.searchKnowledge kb query k)
  = Assistant.generateAnswer query (Assistant.searchKnowledge kb query 3).
Proof.
  intros Hk. rewrite <- Assistant_generateAnswer_first.
  now rewrite Assistant_searchKnowledge_slice.
Qed.

(** X24.  When [semanticSearch] falls back to the local search, the backup
    stage of [getResponse] is of no use: an answer is made of the three best
    chunks only, which the search for 8 and the search for 5 share, so the
    backup stage shows an answer only when the first stage has shown it
    already.  An answer from the backup stage means that the remote service
    gave the contexts of the first stage. *)
Theorem backup_needs_remote `{CaseMapping}
    (generateUnshaped : jsstring
                        -> Assistant.Completion (option Assistant.Answer))
    (remote : Assistant.FetchOutcome)
    (knowledgeBase : list Assistant.Item) (input : jsstring) :
  Assistant.semanticSearch remote knowledgeBase input 8
  = Assistant.Normal
      (Assistant.Ranked (Assistant.searchKnowledge knowledgeBase input 8)) ->
  Responder.search generateUnshaped remote knowledgeBase input
  = Assistant.Normal
      (match Assistant.generateAnswer input
               (Assistant.searchKnowledge knowledgeBase input 3) with
       | Some result =>
           if 40 <? length (Assistant.text result)
           then Some (Responder.FromResources, result) else None
       | None => None
       end).
Proof.
  intros E. unfold Responder.search. rewrite E. cbn [Assistant.bind].
  cbv zeta.
  rewrite (@Assistant_answer_of_three _ knowledgeBase input 8) by lia.
  rewrite (@Assistant_answer_of_three _ knowledgeBase input 5) by lia.
  assert (Hnone : forall k,
            Assistant.searchKnowledge knowledgeBase input k = [] ->
            3 <= k ->
            Assistant.generateAnswer input
              (Assistant.searchKnowledge knowledgeBase input 3) = None).
  { intros k Ek Hk. rewrite <- (@Assistant_answer_of_three _ _ _ k Hk).
    now rewrite Ek. }
  destruct (Assistant.generateAnswer input
              (Assistant.searchKnowledge knowledgeBase input 3))
    as [result|] eqn:Eg.
  - destruct (Assistant.searchKnowledge knowledgeBase input 8) eqn:E8;
      [assert (Hn : 3 <= 8) by lia; discriminate (Hnone 8 E8 Hn)|].
    change (0 <? length (s :: l)) with true. cbv iota.
    destruct (40 <? length (Assistant.text result)); [reflexivity|].
    destruct (0 <? length knowledgeBase); [|reflexivity].
    now destruct (0 <? length (Assistant.searchKnowledge knowledgeBase input 5)).
  - destruct (0 <? length (Assistant.searchKnowledge knowledgeBase input 8));
      destruct (0 <? length knowledgeBase);
      destruct (0 <? length (Assistant.searchKnowledge knowledgeBase input 5));
      reflexivity.
Qed.

Lemma backup_needs_remote_witness :
  Assistant.semanticSearch Assistant.FetchRejected [Samples.waterEntry]
    (js "evaporation and condensation") 8
  = Assistant.Normal
      (Assistant.Ranked
         (Assistant.searchKnowledge [Samples.waterEntry]
            (js "evaporation and condensation") 8))
  /\ exists result,
       Responder.search (fun _ => Assistant.Throw) Assistant.FetchRejected
         [Samples.waterEntry] (js "evaporation and condensation")
       = Assistant.Normal (Some (Responder.FromResources, result)).
Proof.
  split; [reflexivity|].
  rewrite (@backup_needs_remote asciiCase (fun _ => Assistant.Throw)
             Assistant.FetchRejected [Samples.waterEntry]
             (js "evaporation and condensation") eq_refl).
  vm_compute. eexists. reflexivity.
Defined.
